(** * Tokenomics planner: allocation normalizer and unlock-schedule simulator

    A shallow embedding of the computation inside the [TokenomicsPlanner]
    component: [generateUnlockSchedule], [calculateMetrics] and
    [handleDistributionChange], with the state they read.

    The component computes with JavaScript numbers.  The program is written
    once, over an interface [JSNumber] of the operations it uses.  The
    instance the component runs on is [B64_number]: IEEE-754 binary64 with
    round-to-nearest-even, through the executable operations of
    [SpecFloat].  Every statement about the component is made on this
    instance, or for every instance.

    Results that follow from the shape of the program are proved for every
    instance (C1, C5, C7); results about one run are evaluated on binary64
    (C2, C4 and the counterexamples of C3, C8 and C10); the others are
    proved on binary64 for all the inputs in their ranges (C3, C6, C8, C9,
    C10).  These rest on a small theory of the format, developed from the
    definitions of [SpecFloat]: the rational a double holds ([B2Q]), the
    doubles in normal form ([is_double]), the order of the doubles as the
    order of the rationals they hold ([SFcompare_B2Q]), and the fact that
    an operation returns a rounding to nearest of the exact result
    ([binary_round_aux_rounding], [faithful], [rounds]).

    A second instance, [Exact_number], has the rationals with the two
    infinities and NaN, no rounding and no overflow.  The component never
    runs on it; it only shows, next to C1, C2, C4 and C5, what the same
    program computes when nothing is rounded.  [compare_to_exact] relates
    the order of the doubles to the order of the exact numbers they hold.

    The distribution object always has the same seven keys, so it is a
    function on [Category]; [Object.entries] lists it in insertion order.
    A [setDistribution] with an updater function is applied to the
    distribution the handler was called with.

    Beyond the claims, the development covers the rest of the handler (the
    TGE and vesting edits, what an edit leaves alone), the two number inputs
    and the effect that sets the fully diluted value, the shape of the
    schedule and the range of its values, the criterion for the throw past
    the horizon, and what the component displays from these values (X1 to
    X24). *)

From Stdlib Require Import ZArith QArith Qround Lqa Lia List Bool String.
From Stdlib Require Import SpecFloat.
From Stdlib Require Import Ascii.
From Stdlib Require Import Qpower.
Import ListNotations.

(** ** Outcomes

    Reading a property of [undefined] throws a [TypeError], which aborts the
    render.  [OutOfFuel] only bounds the recursion of the model; it is shown
    unreachable in [vesting_loop_fuel]. *)

Inductive outcome (A : Type) : Type :=
| Ok (a : A)
| TypeError
| OutOfFuel.

Arguments Ok {A} a.
Arguments TypeError {A}.
Arguments OutOfFuel {A}.

Definition bind {A B : Type} (o : outcome A) (k : A -> outcome B) : outcome B :=
  match o with
  | Ok a => k a
  | TypeError => TypeError
  | OutOfFuel => OutOfFuel
  end.

Notation "x <- o ;; k" := (bind o (fun x => k))
  (at level 61, o at next level, right associativity).

(** ** JavaScript numbers *)

Class JSNumber : Type := {
  num : Type;
  (** an integer literal *)
  of_Z : Z -> num;
  (** [Number.POSITIVE_INFINITY] *)
  pos_infinity : num;
  add : num -> num -> num;
  sub : num -> num -> num;
  mul : num -> num -> num;
  div : num -> num -> num;
  (** [Math.floor], [Math.round] *)
  floor : num -> num;
  round : num -> num;
  (** [Math.min], [Math.max] *)
  min : num -> num -> num;
  max : num -> num -> num;
  (** [<], [<=] and [===] on numbers *)
  ltb : num -> num -> bool;
  leb : num -> num -> bool;
  strict_eqb : num -> num -> bool
}.

Declare Scope js_scope.
Delimit Scope js_scope with js.

(** ** Binary64 *)

Module B64.

Definition prec : Z := 53.
Definition emax : Z := 1024.

Definition t : Type := spec_float.

Definition of_Z (z : Z) : t := binary_normalize prec emax z 0 false.

Definition signed (s : bool) (m : positive) : Z := cond_Zopp s (Zpos m).

(** [Math.floor]: a finite value [m * 2^e] with [e >= 0] is an integer; for
    [e < 0] the arithmetic shift rounds towards minus infinity.  The result
    zero only arises from a positive argument below one. *)
Definition floor (x : t) : t :=
  match x with
  | S754_finite s m e =>
      if (0 <=? e)%Z then x
      else of_Z (Z.shiftr (signed s m) (- e))
  | _ => x
  end.

(** [Math.round]: the integer nearest to the argument, ties towards plus
    infinity; an argument in [[-0.5, 0)] gives [-0]. *)
Definition round (x : t) : t :=
  match x with
  | S754_finite s m e =>
      if (0 <=? e)%Z then x
      else
        let z := Z.shiftr (signed s m + Z.shiftl 1 (- e - 1)) (- e) in
        if (z =? 0)%Z then S754_zero s else of_Z z
  | _ => x
  end.

Definition is_nan (x : t) : bool :=
  match x with S754_nan => true | _ => false end.

Definition is_neg_zero (x : t) : bool :=
  match x with S754_zero true => true | _ => false end.

(** [Math.min]: NaN if either argument is NaN; [-0] is below [+0]. *)
Definition min (x y : t) : t :=
  if is_nan x || is_nan y then S754_nan
  else if SFltb x y then x
  else if SFltb y x then y
  else if is_neg_zero x then x else y.

(** [Math.max]: NaN if either argument is NaN; [+0] is above [-0]. *)
Definition max (x y : t) : t :=
  if is_nan x || is_nan y then S754_nan
  else if SFltb x y then y
  else if SFltb y x then x
  else if is_neg_zero x then y else x.

End B64.

Definition B64_number : JSNumber := {|
  num := B64.t;
  of_Z := B64.of_Z;
  pos_infinity := S754_infinity false;
  add := SFadd B64.prec B64.emax;
  sub := SFsub B64.prec B64.emax;
  mul := SFmul B64.prec B64.emax;
  div := SFdiv B64.prec B64.emax;
  floor := B64.floor;
  round := B64.round;
  min := B64.min;
  max := B64.max;
  ltb := SFltb;
  leb := SFleb;
  strict_eqb := SFeqb
|}.

(** ** Exact arithmetic

    Rationals with the two infinities and NaN.  The special values follow the
    rules of the double type; there is one zero, which divides like [+0]. *)

Module Exact.

Inductive t : Type :=
| Fin (q : Q)
| PInf
| NInf
| NaN.

Definition of_Z (z : Z) : t := Fin (inject_Z z).

(** The infinity of a given sign; NaN for no sign. *)
Definition inf_of (c : comparison) : t :=
  match c with
  | Gt => PInf
  | Lt => NInf
  | Eq => NaN
  end.

Definition sgn (x : t) : comparison :=
  match x with
  | Fin a => (a ?= 0)%Q
  | PInf => Gt
  | NInf => Lt
  | NaN => Eq
  end.

Definition sgn_mul (c d : comparison) : comparison :=
  match c, d with
  | Eq, _ | _, Eq => Eq
  | Gt, Gt | Lt, Lt => Gt
  | Gt, Lt | Lt, Gt => Lt
  end.

Definition opp (x : t) : t :=
  match x with
  | Fin a => Fin (- a)
  | PInf => NInf
  | NInf => PInf
  | NaN => NaN
  end.

Definition add (x y : t) : t :=
  match x, y with
  | NaN, _ | _, NaN => NaN
  | Fin a, Fin b => Fin (a + b)
  | PInf, NInf | NInf, PInf => NaN
  | PInf, _ | _, PInf => PInf
  | NInf, _ | _, NInf => NInf
  end.

Definition sub (x y : t) : t := add x (opp y).

Definition mul (x y : t) : t :=
  match x, y with
  | NaN, _ | _, NaN => NaN
  | Fin a, Fin b => Fin (a * b)
  | _, _ => inf_of (sgn_mul (sgn x) (sgn y))
  end.

Definition div (x y : t) : t :=
  match x, y with
  | NaN, _ | _, NaN => NaN
  | Fin a, Fin b =>
      if Qeq_bool b 0 then inf_of (a ?= 0)%Q else Fin (a / b)
  | Fin _, _ => Fin 0
  | _, Fin b => inf_of (sgn_mul (sgn x) (if Qle_bool 0 b then Gt else Lt))
  | _, _ => NaN
  end.

Definition floor (x : t) : t :=
  match x with
  | Fin a => Fin (inject_Z (Qfloor a))
  | _ => x
  end.

Definition round (x : t) : t :=
  match x with
  | Fin a => Fin (inject_Z (Qfloor (a + (1 # 2))))
  | _ => x
  end.

Definition compare (x y : t) : option comparison :=
  match x, y with
  | NaN, _ | _, NaN => None
  | Fin a, Fin b => Some (a ?= b)%Q
  | PInf, PInf | NInf, NInf => Some Eq
  | PInf, _ | _, NInf => Some Gt
  | NInf, _ | _, PInf => Some Lt
  end.

Definition ltb (x y : t) : bool :=
  match compare x y with Some Lt => true | _ => false end.

Definition leb (x y : t) : bool :=
  match compare x y with Some (Lt | Eq) => true | _ => false end.

Definition eqb (x y : t) : bool :=
  match compare x y with Some Eq => true | _ => false end.

Definition min (x y : t) : t :=
  match compare x y with
  | None => NaN
  | Some Lt => x
  | Some _ => y
  end.

Definition max (x y : t) : t :=
  match compare x y with
  | None => NaN
  | Some Lt => y
  | Some _ => x
  end.

End Exact.

Definition Exact_number : JSNumber := {|
  num := Exact.t;
  of_Z := Exact.of_Z;
  pos_infinity := Exact.PInf;
  add := Exact.add;
  sub := Exact.sub;
  mul := Exact.mul;
  div := Exact.div;
  floor := Exact.floor;
  round := Exact.round;
  min := Exact.min;
  max := Exact.max;
  ltb := Exact.ltb;
  leb := Exact.leb;
  strict_eqb := Exact.eqb
|}.

(** ** Data model *)

(** The seven keys of the distribution object, in insertion order. *)
Inductive Category : Type :=
| publicSale
| privateRounds
| teamAndAdvisors
| development
| ecosystem
| treasury
| liquidityPool.

Definition categories : list Category :=
  [publicSale; privateRounds; teamAndAdvisors; development; ecosystem;
   treasury; liquidityPool].

Definition Category_eqb (a b : Category) : bool :=
  match a, b with
  | publicSale, publicSale
  | privateRounds, privateRounds
  | teamAndAdvisors, teamAndAdvisors
  | development, development
  | ecosystem, ecosystem
  | treasury, treasury
  | liquidityPool, liquidityPool => true
  | _, _ => false
  end.

(** [keyof DistributionData] *)
Inductive Field : Type :=
| f_percentage
| f_tge
| f_duration.

(** An element of the array that [calculateMetrics] filters with [Boolean]:
    the value of [cond && "message"]. *)
Inductive jsval : Type :=
| JFalse
| JString (s : string).

Definition and_then (c : bool) (v : jsval) : jsval :=
  if c then v else JFalse.

Definition truthy (v : jsval) : bool :=
  match v with
  | JFalse => false
  | JString s => negb (String.eqb s "")
  end.

Section Planner.

Context {N : JSNumber}.

Notation "0" := (of_Z 0) : js_scope.
Notation "1" := (of_Z 1) : js_scope.
Notation "5" := (of_Z 5) : js_scope.
Notation "10" := (of_Z 10) : js_scope.
Notation "20" := (of_Z 20) : js_scope.
Notation "25" := (of_Z 25) : js_scope.
Notation "100" := (of_Z 100) : js_scope.
Infix "+" := add : js_scope.
Infix "-" := sub : js_scope.
Infix "*" := mul : js_scope.
Infix "/" := div : js_scope.
Infix "<" := ltb : js_scope.
Infix "<=" := leb : js_scope.
Notation "a > b" := (ltb b a) : js_scope.
Infix "===" := strict_eqb (at level 70) : js_scope.
Notation "a !== b" := (negb (strict_eqb a b)) (at level 70) : js_scope.

Local Open Scope js_scope.

(** A decimal literal [n/d], with [n] and [d] integers that the number type
    holds exactly: the correctly rounded quotient is the value the literal
    denotes. *)
Definition lit (n d : Z) : num := of_Z n / of_Z d.

Record DistributionData : Type := {
  percentage : num;
  tge : num;
  duration : num
}.

(** The distribution object always has the seven keys of [Category]. *)
Definition Distribution : Type := Category -> DistributionData.

(** [Object.entries] and [Object.values], in insertion order. *)
Definition entries (d : Distribution) : list (Category * DistributionData) :=
  map (fun c => (c, d c)) categories.

Definition values (d : Distribution) : list DistributionData :=
  map d categories.

(** [{ ...prev, [category]: data }] *)
Definition set_category (d : Distribution) (category : Category)
    (data : DistributionData) : Distribution :=
  fun c => if Category_eqb c category then data else d c.

Definition with_percentage (data : DistributionData) (p : num)
    : DistributionData :=
  {| percentage := p; tge := tge data; duration := duration data |}.

Definition with_tge (data : DistributionData) (x : num) : DistributionData :=
  {| percentage := percentage data; tge := x; duration := duration data |}.

Definition with_duration (data : DistributionData) (x : num)
    : DistributionData :=
  {| percentage := percentage data; tge := tge data; duration := x |}.

(** The initial state of the component. *)
Definition default_distribution : Distribution :=
  fun c =>
    match c with
    | publicSale =>
        {| percentage := of_Z 20; tge := of_Z 10; duration := of_Z 12 |}
    | privateRounds =>
        {| percentage := of_Z 15; tge := of_Z 5; duration := of_Z 24 |}
    | teamAndAdvisors =>
        {| percentage := of_Z 15; tge := of_Z 0; duration := of_Z 36 |}
    | development =>
        {| percentage := of_Z 20; tge := of_Z 0; duration := of_Z 48 |}
    | ecosystem =>
        {| percentage := of_Z 15; tge := of_Z 5; duration := of_Z 36 |}
    | treasury =>
        {| percentage := of_Z 10; tge := of_Z 0; duration := of_Z 48 |}
    | liquidityPool =>
        {| percentage := of_Z 5; tge := of_Z 20; duration := of_Z 24 |}
    end.

(** The state the closures of the component read. *)
Record PlannerState : Type := {
  totalSupply : num;
  initialTokenPrice : num;
  fdv : num;
  distribution : Distribution
}.

Definition initial_state : PlannerState :=
  {| totalSupply := of_Z 1000000000;
     initialTokenPrice := lit 1 1000;
     fdv := 0;
     distribution := default_distribution |}.

(** The effect on [totalSupply] and [initialTokenPrice]:
    [setFdv(Math.max(0, totalSupply * initialTokenPrice))]. *)
Definition fdv_effect (st : PlannerState) : PlannerState :=
  {| totalSupply := totalSupply st;
     initialTokenPrice := initialTokenPrice st;
     fdv := max 0 (totalSupply st * initialTokenPrice st);
     distribution := distribution st |}.

(** *** generateUnlockSchedule *)

Definition months : nat := 48.

Record SchedulePoint : Type := {
  sp_month : nat;
  sp_circulating : num;
  rawCirculating : num
}.

Record UnlockPoint : Type := {
  month : nat;
  circulating : num;
  percentCirculating : num
}.

(** [Array.from({ length: months + 1 }, (_, month) => ...)] *)
Definition empty_schedule : list SchedulePoint :=
  map (fun m => {| sp_month := m; sp_circulating := 0; rawCirculating := 0 |})
      (seq 0 (months + 1)).

Fixpoint set_nth {A : Type} (l : list A) (i : nat) (x : A) : list A :=
  match l, i with
  | [], _ => []
  | _ :: r, O => x :: r
  | y :: r, S j => y :: set_nth r j x
  end.

(** [schedule[i].rawCirculating += x]; past the end of the array
    [schedule[i]] is [undefined] and the property read throws. *)
Definition add_raw (schedule : list SchedulePoint) (i : nat) (x : num)
    : outcome (list SchedulePoint) :=
  match nth_error schedule i with
  | None => TypeError
  | Some p =>
      Ok (set_nth schedule i
            {| sp_month := sp_month p;
               sp_circulating := sp_circulating p;
               rawCirculating := rawCirculating p + x |})
  end.

(** [for (let month = 1; month <= data.duration; month++)
       schedule[month].rawCirculating += monthlyUnlock;]
    entered at [month = m]. *)
Fixpoint vesting_loop (fuel m : nat) (dur monthlyUnlock : num)
    (schedule : list SchedulePoint) : outcome (list SchedulePoint) :=
  if of_Z (Z.of_nat m) <= dur then
    match fuel with
    | O => OutOfFuel
    | S fuel' =>
        schedule' <- add_raw schedule m monthlyUnlock ;;
        vesting_loop fuel' (S m) dur monthlyUnlock schedule'
    end
  else Ok schedule.

(** The callback of [Object.entries(distribution).forEach]. *)
Definition unlock_category (supply : num) (data : DistributionData)
    (schedule : list SchedulePoint) : outcome (list SchedulePoint) :=
  let tokenAmount := floor ((supply * percentage data) / 100) in
  let tgeAmount := floor ((tokenAmount * tge data) / 100) in
  let remainingAmount := tokenAmount - tgeAmount in
  let monthlyUnlock :=
    if duration data > 0 then remainingAmount / duration data else 0 in
  schedule0 <- add_raw schedule 0 tgeAmount ;;
  if duration data > 0 then
    vesting_loop (S (List.length schedule0)) 1 (duration data) monthlyUnlock
      schedule0
  else Ok schedule0.

Fixpoint for_each (supply : num) (l : list (Category * DistributionData))
    (schedule : list SchedulePoint) : outcome (list SchedulePoint) :=
  match l with
  | [] => Ok schedule
  | (_, data) :: r =>
      schedule' <- unlock_category supply data schedule ;;
      for_each supply r schedule'
  end.

(** [schedule.map((point) => { cumulative += point.rawCirculating; ... })] *)
Fixpoint cumulate (supply cumulative : num) (schedule : list SchedulePoint)
    : list UnlockPoint :=
  match schedule with
  | [] => []
  | point :: r =>
      let cumulative' := cumulative + rawCirculating point in
      let actualCirculating := min cumulative' supply in
      {| month := sp_month point;
         circulating := actualCirculating;
         percentCirculating := (actualCirculating / supply) * 100 |}
      :: cumulate supply cumulative' r
  end.

Definition generateUnlockSchedule (d : Distribution) (supply : num)
    : outcome (list UnlockPoint) :=
  schedule <- for_each supply (entries d) empty_schedule ;;
  Ok (cumulate supply 0 schedule).

(** *** calculateMetrics *)

Record Metrics : Type := {
  tgeCirculating : num;
  tgeCirculatingPercent : num;
  initialMarketCap : num;
  fdvToMcapRatio : num;
  warnings : list jsval
}.

Definition high_tge_warning : jsval :=
  JString "High TGE unlock may cause price instability".
Definition high_fdv_warning : jsval :=
  JString "High FDV/MCap ratio indicates significant future dilution".
Definition team_warning : jsval :=
  JString "Team allocation appears high".
Definition liquidity_warning : jsval :=
  JString "Low liquidity allocation may cause price volatility".

Definition calculateMetrics (st : PlannerState) : outcome Metrics :=
  unlockSchedule <- generateUnlockSchedule (distribution st) (totalSupply st) ;;
  match unlockSchedule with
  | [] => TypeError
  | point0 :: _ =>
      let tgeCirculating := circulating point0 in
      let tgeCirculatingPercent := (tgeCirculating / totalSupply st) * 100 in
      Ok {| tgeCirculating := tgeCirculating;
            tgeCirculatingPercent := tgeCirculatingPercent;
            initialMarketCap := tgeCirculating * initialTokenPrice st;
            fdvToMcapRatio :=
              if tgeCirculating > 0
              then fdv st / (tgeCirculating * initialTokenPrice st)
              else pos_infinity;
            warnings :=
              filter truthy
                [ and_then (tgeCirculatingPercent > 25) high_tge_warning;
                  and_then (tgeCirculating > 0)
                    (and_then
                       (fdv st / (tgeCirculating * initialTokenPrice st)
                        > 100)
                       high_fdv_warning);
                  and_then
                    (percentage (distribution st teamAndAdvisors) > 20)
                    team_warning;
                  and_then
                    (percentage (distribution st liquidityPool) < 5)
                    liquidity_warning ] |}
  end.

(** *** handleDistributionChange *)

(** [Math.round(x * 10) / 10] *)
Definition round1 (x : num) : num := round (x * 10) / 10.

(** [Object.entries(d).filter(([cat]) => cat !== category)] *)
Definition other_entries (d : Distribution) (category : Category)
    : list (Category * DistributionData) :=
  filter (fun e => negb (Category_eqb (fst e) category)) (entries d).

(** [.reduce((sum, [_, data]) => sum + data.percentage, 0)] *)
Definition sum_percentages (l : list DistributionData) : num :=
  fold_left (fun sum data => sum + percentage data) l 0.

Definition otherTotal (d : Distribution) (category : Category) : num :=
  sum_percentages (map snd (other_entries d category)).

(** The object built by the [reduce] of the rebalancing branch: it visits
    the keys in insertion order and assigns each of them once. *)
Definition scaled (d : Distribution) (category : Category)
    (numValue scale : num) : Distribution :=
  fun cat =>
    if Category_eqb cat category
    then with_percentage (d cat) (round1 numValue)
    else with_percentage (d cat) (round (percentage (d cat) * scale * 10) / 10).

(** [.reduce((max, curr) => curr[1].percentage > max[1].percentage ? curr : max)]
    with no initial value: the first entry starts the reduction, and an
    empty array throws. *)
Definition largest_entry (l : list (Category * DistributionData))
    : outcome (Category * DistributionData) :=
  match l with
  | [] => TypeError
  | e :: r =>
      Ok (fold_left
            (fun mx curr =>
               if percentage (snd curr) > percentage (snd mx) then curr else mx)
            r e)
  end.

(** The handler, as a function from the current distribution to the one it
    sets.  The updater of the first branch receives the distribution the
    handler was called with.  The test [if (largestCategory[0])] is on the key
    of an entry, a non-empty string, and always holds. *)
Definition handleDistributionChange (d : Distribution)
    (category : Category) (field : Field) (value : num)
    : outcome Distribution :=
  let numValue := max 0 value in
  match field with
  | f_percentage =>
      let otherTotal := otherTotal d category in
      if otherTotal + numValue <= 100 then
        Ok (set_category d category
              (with_percentage (d category) (round1 numValue)))
      else
        let scale := (100 - numValue) / otherTotal in
        let newDistribution := scaled d category numValue scale in
        let newTotal := sum_percentages (values newDistribution) in
        if newTotal !== 100 then
          largestCategory <-
            largest_entry (other_entries newDistribution category) ;;
          let key := fst largestCategory in
          Ok (set_category newDistribution key
                (with_percentage (newDistribution key)
                   (percentage (newDistribution key)
                    + round1 (100 - newTotal))))
        else Ok newDistribution
  | f_tge =>
      Ok (set_category d category
            (with_tge (d category) (min 100 (max 0 (round1 numValue)))))
  | f_duration =>
      Ok (set_category d category
            (with_duration (d category) (max 0 (round numValue))))
  end.

(** [Object.values(distribution).reduce((sum, data) => sum + data.percentage, 0)] *)
Definition totalPercentage (d : Distribution) : num :=
  sum_percentages (values d).

End Planner.

(** * Vocabulary of the statements *)

Section Vocabulary.

Context {N : JSNumber}.

(** [a > b] is [b < a]. *)
Definition gtb (a b : num) : bool := ltb b a.

(** The TGE share of one category, as [generateUnlockSchedule] computes it. *)
Definition tokenAmount_of (supply : num) (data : DistributionData) : num :=
  floor (div (mul supply (percentage data)) (of_Z 100)).

Definition tgeAmount_of (supply : num) (data : DistributionData) : num :=
  floor (div (mul (tokenAmount_of supply data) (tge data)) (of_Z 100)).

(** The sum of the TGE shares over the categories, in insertion order. *)
Definition tge_total (d : Distribution) (supply : num) : num :=
  fold_left (fun acc c => add acc (tgeAmount_of supply (d c))) categories
    (of_Z 0).

(** The head of the array with [x] added to its raw amount. *)
Definition bump_head (p : SchedulePoint) (x : num) : SchedulePoint :=
  {| sp_month := sp_month p;
     sp_circulating := sp_circulating p;
     rawCirculating := add (rawCirculating p) x |}.

(** The guard of the vesting loop holds at every month from 1 to [n]. *)
Definition loop_runs_to (dur : num) (n : nat) : Prop :=
  gtb dur (of_Z 0) = true /\
  forall m : nat, (1 <= m <= n)%nat -> leb (of_Z (Z.of_nat m)) dur = true.

(** The warnings the four rules select, in their fixed order. *)
Definition expected_warnings (st : PlannerState) (m : Metrics) : list jsval :=
  (if gtb (tgeCirculatingPercent m) (of_Z 25) then [high_tge_warning] else [])
  ++ (if gtb (tgeCirculating m) (of_Z 0) && gtb (fdvToMcapRatio m) (of_Z 100)
      then [high_fdv_warning] else [])
  ++ (if gtb (percentage (distribution st teamAndAdvisors)) (of_Z 20)
      then [team_warning] else [])
  ++ (if ltb (percentage (distribution st liquidityPool)) (of_Z 5)
      then [liquidity_warning] else []).

(** The circulating values of a schedule never decrease, and none exceeds
    the supply. *)
Definition non_decreasing (s : list UnlockPoint) : Prop :=
  forall (i j : nat) (p q : UnlockPoint),
    (i <= j)%nat -> nth_error s i = Some p -> nth_error s j = Some q ->
    leb (circulating p) (circulating q) = true.

Definition capped (supply : num) (s : list UnlockPoint) : Prop :=
  forall p : UnlockPoint, In p s -> leb (circulating p) supply = true.

(** The guard of the vesting loop fails at some month up to [n], or the loop
    is not entered at all. *)
Definition loop_stops_by (dur : num) (n : nat) : Prop :=
  gtb dur (of_Z 0) = false \/
  exists m : nat, (1 <= m <= n)%nat /\ leb (of_Z (Z.of_nat m)) dur = false.

(** A state with one field of one category replaced. *)
Definition with_distribution (st : PlannerState) (d : Distribution)
    : PlannerState :=
  {| totalSupply := totalSupply st;
     initialTokenPrice := initialTokenPrice st;
     fdv := fdv st;
     distribution := d |}.

Definition with_price (st : PlannerState) (p : num) : PlannerState :=
  {| totalSupply := totalSupply st;
     initialTokenPrice := p;
     fdv := fdv st;
     distribution := distribution st |}.

End Vocabulary.

(** ** Concrete runs on binary64 *)

(** The default distribution with the vesting of [development] set to 49
    months, as [handleDistributionChange(development, "duration", 49)]
    leaves it. *)
Definition horizon_distribution : Distribution (N := B64_number) :=
  set_category default_distribution development
    (with_duration (default_distribution development) (of_Z 49)).

(** The state once the effect has set [fdv]. *)
Definition settled_state : PlannerState (N := B64_number) :=
  fdv_effect initial_state.

(** The settled state after [handleDistributionChange(liquidityPool,
    "percentage", 4)]: within budget, so only that percentage changes. *)
Definition low_liquidity_state : PlannerState (N := B64_number) :=
  with_distribution settled_state
    (set_category default_distribution liquidityPool
       (with_percentage (default_distribution liquidityPool) (of_Z 4))).

(** The metrics of a run that returned; all zero otherwise. *)
Definition metrics_or_zero {N : JSNumber} (o : outcome Metrics) : Metrics :=
  match o with
  | Ok m => m
  | _ => {| tgeCirculating := of_Z 0;
            tgeCirculatingPercent := of_Z 0;
            initialMarketCap := of_Z 0;
            fdvToMcapRatio := of_Z 0;
            warnings := [] |}
  end.

Definition low_liquidity_metrics : Metrics (N := B64_number) :=
  Eval vm_compute in metrics_or_zero (calculateMetrics low_liquidity_state).

(** What a run returned, seen through [f]. *)
Definition map_outcome {A B : Type} (f : A -> B) (o : outcome A) : outcome B :=
  match o with
  | Ok a => Ok (f a)
  | TypeError => TypeError
  | OutOfFuel => OutOfFuel
  end.

(** The percentages of a distribution, in insertion order. *)
Definition percentages {N : JSNumber} (d : Distribution) : list num :=
  map percentage (values d).

Definition default_metrics : Metrics (N := B64_number) :=
  Eval vm_compute in metrics_or_zero (calculateMetrics settled_state).

(** The settled state with the token price edited to 0, which
    [handleTokenPriceChange] accepts. *)
Definition zero_price_state : PlannerState (N := B64_number) :=
  fdv_effect (with_price initial_state (of_Z 0)).

(** The double next above 100, [100 + 2^-46], printed
    [100.00000000000001]. *)
Definition just_above_100 : B64.t := S754_finite false 7036874417766401 (-46).

(** Binary64 values that are numbers: neither NaN nor an infinity. *)
Definition B64_is_number (x : B64.t) : bool :=
  match x with
  | S754_zero _ | S754_finite _ _ _ => true
  | _ => false
  end.

Definition B64_is_zero (x : B64.t) : bool :=
  match x with
  | S754_zero _ => true
  | _ => false
  end.

(** The default distribution with [publicSale] raised to 25, so that the
    categories other than [liquidityPool] sum to 100. *)
Definition with_percentage_of (d : Distribution (N := B64_number))
    : Distribution (N := B64_number) :=
  set_category d publicSale (with_percentage (d publicSale) (of_Z 25)).

(** ** Ranges *)

Section Ranges.

Context {N : JSNumber}.

(** [lo <= x && x <= hi] *)
Definition in_range (lo hi : Z) (x : num) : Prop :=
  leb (of_Z lo) x = true /\ leb x (of_Z hi) = true.

(** The fields of every category are in the ranges of the data model:
    percentage and TGE unlock in [[0,100]], vesting months at least 0. *)
Definition valid_distribution (d : Distribution) : Prop :=
  forall c : Category,
    in_range 0 100 (percentage (d c)) /\
    in_range 0 100 (tge (d c)) /\
    leb (of_Z 0) (duration (d c)) = true.

(** A supply of at least one token, and not infinite. *)
Definition valid_supply (supply : num) : Prop :=
  leb (of_Z 1) supply = true /\ ltb supply pos_infinity = true.

End Ranges.

(** The schedule of a run that returned; empty otherwise. *)
Definition schedule_or_nil {N : JSNumber} (o : outcome (list UnlockPoint))
    : list UnlockPoint :=
  match o with
  | Ok s => s
  | _ => []
  end.

Definition default_schedule : list (UnlockPoint (N := B64_number)) :=
  Eval vm_compute in
    schedule_or_nil
      (generateUnlockSchedule (N := B64_number) default_distribution
         (of_Z 1000000000)).

(** ** The rebalancing branch *)

Section RebalanceVocabulary.

Context {N : JSNumber}.

(** [scale = (100 - numValue) / otherTotal] *)
Definition rebalance_scale (d : Distribution) (category : Category)
    (value : num) : num :=
  div (sub (of_Z 100) (max (of_Z 0) value)) (otherTotal d category).

(** [newDistribution] before the residual step. *)
Definition rebalanced (d : Distribution) (category : Category) (value : num)
    : Distribution :=
  scaled d category (max (of_Z 0) value) (rebalance_scale d category value).

(** [Math.round((100 - newTotal) * 10) / 10] *)
Definition residual (d : Distribution) (category : Category) (value : num)
    : num :=
  round1 (sub (of_Z 100) (totalPercentage (rebalanced d category value))).

(** [newDistribution] after the residual went to the category [key]. *)
Definition corrected (d : Distribution) (category : Category) (value : num)
    (key : Category) : Distribution :=
  set_category (rebalanced d category value) key
    (with_percentage (rebalanced d category value key)
       (add (percentage (rebalanced d category value key))
          (residual d category value))).

(** The scaled percentage of a category other than the target. *)
Definition scaled_percentage (d : Distribution) (category : Category)
    (value : num) (c : Category) : num :=
  div (round (mul (mul (percentage (d c)) (rebalance_scale d category value))
                (of_Z 10))) (of_Z 10).

End RebalanceVocabulary.

Definition zero_price_metrics : Metrics (N := B64_number) :=
  Eval vm_compute in metrics_or_zero (calculateMetrics zero_price_state).

(** An exact number that is a rational. *)
Definition is_rational (x : Exact.t) : Prop := exists q : Q, x = Exact.Fin q.

(** A rational with at most one decimal. *)
Definition tenth (q : Q) : Prop := exists k : Z, q == inject_Z k / 10.

(** The rational an exact number holds; 0 for the special values. *)
Definition to_Q (x : Exact.t) : Q :=
  match x with
  | Exact.Fin q => q
  | _ => 0
  end.

(** The percentages of the rebalanced object when the edit is 100 and the
    scale is 0. *)
Definition zeroed (d : Distribution (N := B64_number)) (category : Category)
    : Distribution (N := B64_number) :=
  scaled d category (max (of_Z 0) (of_Z 100)) (S754_zero false).

(** A supply of [1e307] tokens, which [handleTotalSupplyChange] accepts, and
    the schedule of the default distribution for it. *)
Definition huge_supply : B64.t := B64.of_Z (10 ^ 307).

Definition overflowed_schedule : list (UnlockPoint (N := B64_number)) :=
  Eval vm_compute in
    schedule_or_nil
      (generateUnlockSchedule (N := B64_number) default_distribution
         huge_supply).

(** ** The number inputs and the allocation bar *)

Section Inputs.

Context {N : JSNumber}.

(** [setTotalSupply(Math.max(1, value))] *)
Definition handleTotalSupplyChange (st : PlannerState) (value : num)
    : PlannerState :=
  {| totalSupply := max (of_Z 1) value;
     initialTokenPrice := initialTokenPrice st;
     fdv := fdv st;
     distribution := distribution st |}.

(** [setInitialTokenPrice(Math.max(0, value))] *)
Definition handleTokenPriceChange (st : PlannerState) (value : num)
    : PlannerState :=
  {| totalSupply := totalSupply st;
     initialTokenPrice := max (of_Z 0) value;
     fdv := fdv st;
     distribution := distribution st |}.

(** [totalPercentage > 100], the test that turns the allocation bar red, and
    the width of the bar in percent, [Math.min(totalPercentage, 100)]. *)
Definition over_allocated (d : Distribution) : bool :=
  ltb (of_Z 100) (totalPercentage d).

Definition bar_width (d : Distribution) : num :=
  min (totalPercentage d) (of_Z 100).

End Inputs.

(** A double that is NaN or at least [lo]. *)
Definition nan_or_at_least (lo : Z) (x : B64.t) : Prop :=
  x = S754_nan \/ SFleb (B64.of_Z lo) x = true.

(** The default distribution with every vesting set to 0 months. *)
Definition no_vesting_distribution : Distribution (N := B64_number) :=
  fun c => with_duration (default_distribution c) (of_Z 0).

(** The state after the supply input, the price input and the effect that
    follows them. *)
Definition after_number_inputs {N : JSNumber} (st : PlannerState)
    (supply price : num) : PlannerState :=
  fdv_effect
    (handleTokenPriceChange (handleTotalSupplyChange st supply) price).

(** ** What the component displays *)

(** [Number.isFinite(metrics.fdvToMcapRatio)]: the ratio is printed when it
    holds, the infinity sign otherwise. *)
Definition ratio_is_printed (m : Metrics (N := B64_number)) : bool :=
  B64_is_number (fdvToMcapRatio m).

(** The settled state with every TGE unlock edited to 0, and its metrics. *)
Definition no_tge_state : PlannerState (N := B64_number) :=
  with_distribution settled_state
    (fun c => with_tge (default_distribution c) (of_Z 0)).

Definition no_tge_metrics : Metrics (N := B64_number) :=
  Eval vm_compute in metrics_or_zero (calculateMetrics no_tge_state).

(** The keys of the distribution object, and the labels that [chartConfig]
    gives them. *)
Definition key_of (c : Category) : string :=
  match c with
  | publicSale => "publicSale"
  | privateRounds => "privateRounds"
  | teamAndAdvisors => "teamAndAdvisors"
  | development => "development"
  | ecosystem => "ecosystem"
  | treasury => "treasury"
  | liquidityPool => "liquidityPool"
  end.

Definition chartConfig_label (c : Category) : string :=
  match c with
  | publicSale => "Public Sale"
  | privateRounds => "Private Rounds"
  | teamAndAdvisors => "Team And Advisors"
  | development => "Development"
  | ecosystem => "Ecosystem"
  | treasury => "Treasury"
  | liquidityPool => "Liquidity Pool"
  end.

(** [/[A-Z]/] on a character of the ASCII range. *)
Definition is_capital (a : ascii) : bool :=
  ((65 <=? nat_of_ascii a) && (nat_of_ascii a <=? 90))%nat.

(** [.replace(/([A-Z])/g, " $1")] *)
Fixpoint space_capitals (s : string) : string :=
  match s with
  | EmptyString => EmptyString
  | String a r =>
      if is_capital a then String " " (String a (space_capitals r))
      else String a (space_capitals r)
  end.

(** [str.toUpperCase()] on a character of the ASCII range. *)
Definition toUpperCase (a : ascii) : ascii :=
  if ((97 <=? nat_of_ascii a) && (nat_of_ascii a <=? 122))%nat
  then ascii_of_nat (nat_of_ascii a - 32)
  else a.

(** [.replace(/^./, (str) => str.toUpperCase())]: the dot matches the first
    character unless it ends a line. *)
Definition capitalize (s : string) : string :=
  match s with
  | EmptyString => EmptyString
  | String a r =>
      if ((nat_of_ascii a =? 10) || (nat_of_ascii a =? 13))%nat then s
      else String (toUpperCase a) r
  end.

(** The name a category is listed under. *)
Definition category_title (category : string) : string :=
  capitalize (space_capitals category).

(** ** The expanded category *)



(** * Vocabulary of binary64

    The definitions that the statements on doubles use.  [SpecFloat] gives
    the operations; what follows gives the numbers they are about. *)

(** ** The numbers that doubles hold *)

(** [2^e] *)
Definition bpow (e : Z) : Q := 2 ^ e.

(** [m * 2^e] *)
Definition F2Q (m e : Z) : Q := inject_Z m * bpow e.

(** The rational a double holds; 0 for the infinities and NaN. *)
Definition B2Q (x : B64.t) : Q :=
  match x with
  | S754_finite s m e => F2Q (cond_Zopp s (Zpos m)) e
  | _ => 0
  end.

(** [spec_float] also holds mantissa and exponent pairs that no double has;
    a double is a value in the normal form of the format. *)
Definition is_double (x : B64.t) : Prop := valid_binary 53 1024 x = true.

(** The normal form, on integers: the exponent is in the range of the
    format, the mantissa has at most 53 bits, and exactly 53 above the
    least exponent. *)
Definition canon (m e : Z) : Prop :=
  (-1074 <= e <= 971)%Z /\ (0 < m < 2 ^ 53)%Z /\
  ((-1074 < e)%Z -> (2 ^ 52 <= m)%Z).

(** A double that holds an integer; the infinities and NaN hold 0. *)
Definition integer_valued (x : B64.t) : Prop :=
  exists k : Z, B2Q x == inject_Z k.

(** A double at least 0 with the sign bit clear. *)
Definition B64_is_positive (x : B64.t) : bool :=
  match x with
  | S754_zero false | S754_finite false _ _ | S754_infinity false => true
  | _ => false
  end.


(** The exact number a double holds. *)
Definition to_exact (x : B64.t) : Exact.t :=
  match x with
  | S754_nan => Exact.NaN
  | S754_infinity false => Exact.PInf
  | S754_infinity true => Exact.NInf
  | _ => Exact.Fin (B2Q x)
  end.

(** ** Rounding *)

Definition half_of (r : bool) : Q := if r then 1 # 2 else 0.

(** What a shift record says of a number [u] counted in units of the last
    place: [u] is the mantissa plus the round bit, exactly when the sticky
    bit is clear, with less than half a unit more when it is set. *)
Definition inbu (mrs : shr_record) (u : Q) : Prop :=
  if shr_s mrs
  then inject_Z (shr_m mrs) + half_of (shr_r mrs) < u /\
       u < inject_Z (shr_m mrs) + half_of (shr_r mrs) + (1 # 2)
  else u == inject_Z (shr_m mrs) + half_of (shr_r mrs).

(** The same of a number [v] and the exponent [e] of the last place. *)
Definition inb (mrs : shr_record) (e : Z) (v : Q) : Prop :=
  inbu mrs (v * bpow (- e)).

(** A mantissa and exponent that [binary_round_aux] can take: the exponent
    is at most the one the format gives a number of that size. *)
Definition aligned (mx ex : Z) : Prop :=
  (ex <= fexp 53 1024 (Zdigits2 mx + ex))%Z.

(** The rounding of a number [v >= 0] to the format: [m'] units of exponent
    [e'] are the part of [v] the format keeps, and [m1], which is [m'] or
    [m' + 1], is the nearer of the two. *)
Record rounding (v : Q) (m' e' m1 : Z) : Prop := {
  rnd_lo : F2Q m' e' <= v;
  rnd_hi : v < F2Q (m' + 1) e';
  rnd_range : (0 <= m' < 2 ^ 53)%Z;
  rnd_emin : (-1074 <= e')%Z;
  rnd_normal : (-1074 < e')%Z -> (2 ^ 52 <= m')%Z;
  rnd_choice :
    (m1 = m' /\ 2 * v <= F2Q (2 * m' + 1) e') \/
    (m1 = (m' + 1)%Z /\ F2Q (2 * m' + 1) e' <= 2 * v)
}.

(** The double for [m1] units of exponent [e']. *)
Definition pack (sx : bool) (m1 e' : Z) : spec_float :=
  match m1 with
  | Z0 => S754_zero sx
  | Zpos p =>
      if (m1 =? 2 ^ 53)%Z then
        if (e' + 1 <=? 971)%Z
        then S754_finite sx 4503599627370496 (e' + 1)
        else S754_infinity sx
      else
        if (e' <=? 971)%Z then S754_finite sx p e' else S754_infinity sx
  | Zneg _ => S754_nan
  end.

(** [r] is a rounding of the real number [v]: a double or an infinity that
    no double separates from [v]. *)
Definition faithful (v : Q) (r : B64.t) : Prop :=
  is_double r /\ r <> S754_nan /\
  (forall f : B64.t,
     is_double f -> B64_is_number f = true -> B2Q f <= v ->
     SFleb f r = true) /\
  (forall f : B64.t,
     is_double f -> B64_is_number f = true -> v <= B2Q f ->
     SFleb r f = true).

(** What a product or a quotient of numbers at least 0 returns: a zero for
    0, and otherwise the double packed from a rounding. *)
Definition rounds (v : Q) (r : B64.t) : Prop :=
  (v == 0 /\ B64_is_number r = true /\ B2Q r == 0) \/
  (exists m' e' m1 : Z, rounding v m' e' m1 /\ r = pack false m1 e').


(** ** Amounts *)

(** Every field of every category is a double. *)
Definition doubles (d : Distribution (N := B64_number)) : Prop :=
  forall c : Category,
    is_double (percentage (d c)) /\ is_double (tge (d c)) /\
    is_double (duration (d c)).

(** A double that is a number at least 0. *)
Definition amount (x : B64.t) : Prop :=
  is_double x /\ B64_is_number x = true /\ 0 <= B2Q x.

(** A double at least 0, plus infinity included. *)
Definition at_least_0 (x : B64.t) : Prop :=
  is_double x /\ SFleb (B64.of_Z 0) x = true.

Definition raws_at_least_0 (s : list (SchedulePoint (N := B64_number))) : Prop :=
  Forall (fun p : SchedulePoint (N := B64_number) => at_least_0 (rawCirculating p)) s.

(** * Proofs *)

(** ** Outcomes *)

Lemma bind_Ok (A B : Type) (o : outcome A) (k : A -> outcome B) (b : B) :
  bind o k = Ok b -> exists a, o = Ok a /\ k a = Ok b.
Proof.
  destruct o as [a| |]; simpl; try discriminate.
  intros H. exists a. split; [reflexivity|exact H].
Qed.

Lemma bind_OutOfFuel (A B : Type) (o : outcome A) (k : A -> outcome B) :
  bind o k = OutOfFuel ->
  o = OutOfFuel \/ exists a, o = Ok a /\ k a = OutOfFuel.
Proof.
  destruct o as [a| |]; simpl; try discriminate; auto.
  intros H. right. exists a. split; [reflexivity|exact H].
Qed.

Lemma bind_TypeError_l (A B : Type) (k : A -> outcome B) :
  bind TypeError k = TypeError.
Proof. reflexivity. Qed.

(** ** The schedule array *)

Section ScheduleFacts.

Context {N : JSNumber}.

Lemma set_nth_length (A : Type) (l : list A) (i : nat) (x : A) :
  List.length (set_nth l i x) = List.length l.
Proof.
  revert i; induction l as [|y r IH]; intros [|j]; simpl; auto.
Qed.

Lemma add_raw_length (s s' : list SchedulePoint) (i : nat) (x : num) :
  add_raw s i x = Ok s' -> List.length s' = List.length s.
Proof.
  unfold add_raw. destruct (nth_error s i); intros H; inversion H.
  apply set_nth_length.
Qed.

Lemma add_raw_past_end (s : list SchedulePoint) (i : nat) (x : num) :
  (List.length s <= i)%nat -> add_raw s i x = TypeError.
Proof.
  intros H. unfold add_raw.
  now rewrite (proj2 (nth_error_None s i) H).
Qed.

Lemma add_raw_inside (s : list SchedulePoint) (i : nat) (x : num) :
  (i < List.length s)%nat -> exists s', add_raw s i x = Ok s'.
Proof.
  intros H. unfold add_raw.
  destruct (nth_error s i) eqn:E.
  - eexists; reflexivity.
  - apply nth_error_None in E. lia.
Qed.

Lemma add_raw_fuel (s : list SchedulePoint) (i : nat) (x : num) :
  add_raw s i x <> OutOfFuel.
Proof.
  unfold add_raw. destruct (nth_error s i); discriminate.
Qed.

Lemma vesting_loop_eq (fuel m : nat) (dur mu : num) (s : list SchedulePoint) :
  vesting_loop fuel m dur mu s =
  if leb (of_Z (Z.of_nat m)) dur then
    match fuel with
    | O => OutOfFuel
    | S fuel' =>
        bind (add_raw s m mu) (vesting_loop fuel' (S m) dur mu)
    end
  else Ok s.
Proof. destruct fuel; reflexivity. Qed.

(** The loop never exhausts its fuel: it leaves the array, and throws, first. *)
Lemma vesting_loop_fuel (fuel m : nat) (dur mu : num) (s : list SchedulePoint) :
  (0 < fuel)%nat -> (List.length s < fuel + m)%nat ->
  vesting_loop fuel m dur mu s <> OutOfFuel.
Proof.
  revert m s. induction fuel as [|f IH]; intros m s Hpos Hlen; [lia|].
  simpl. destruct (leb (of_Z (Z.of_nat m)) dur); [|discriminate].
  destruct (add_raw s m mu) as [s'| |] eqn:E; simpl; try discriminate.
  - assert (Hm : (m < List.length s)%nat).
    { destruct (Nat.lt_ge_cases m (List.length s)) as [Hlt|Hge]; [exact Hlt|].
      rewrite (add_raw_past_end s m mu Hge) in E. discriminate. }
    apply IH.
    + lia.
    + rewrite (add_raw_length _ _ _ _ E). lia.
  - exfalso. exact (add_raw_fuel _ _ _ E).
Qed.

Lemma vesting_loop_length (fuel m : nat) (dur mu : num)
    (s s' : list SchedulePoint) :
  vesting_loop fuel m dur mu s = Ok s' -> List.length s' = List.length s.
Proof.
  revert m s. induction fuel as [|f IH]; intros m s; simpl;
    destruct (leb (of_Z (Z.of_nat m)) dur); try discriminate.
  - intros H; now inversion H.
  - destruct (add_raw s m mu) as [s1| |] eqn:E; simpl; try discriminate.
    intros H. rewrite (IH _ _ H). exact (add_raw_length _ _ _ _ E).
  - intros H; now inversion H.
Qed.

Lemma unlock_category_length (supply : num) (data : DistributionData)
    (s s' : list SchedulePoint) :
  unlock_category supply data s = Ok s' -> List.length s' = List.length s.
Proof.
  unfold unlock_category. intros H.
  apply bind_Ok in H. destruct H as (s0 & E & H).
  rewrite <- (add_raw_length _ _ _ _ E).
  destruct (ltb (of_Z 0) (duration data)).
  - exact (vesting_loop_length _ _ _ _ _ _ H).
  - now inversion H.
Qed.

Lemma unlock_category_fuel (supply : num) (data : DistributionData)
    (s : list SchedulePoint) :
  unlock_category supply data s <> OutOfFuel.
Proof.
  unfold unlock_category. intros H.
  apply bind_OutOfFuel in H. destruct H as [H|(s0 & E & H)].
  - exact (add_raw_fuel _ _ _ H).
  - destruct (ltb (of_Z 0) (duration data)); [|discriminate].
    revert H. apply vesting_loop_fuel; lia.
Qed.

Lemma for_each_length (supply : num) (l : list (Category * DistributionData))
    (s s' : list SchedulePoint) :
  for_each supply l s = Ok s' -> List.length s' = List.length s.
Proof.
  revert s. induction l as [|[c data] r IH]; intros s; simpl.
  - intros H; now inversion H.
  - destruct (unlock_category supply data s) as [s1| |] eqn:E; simpl;
      try discriminate.
    intros H. rewrite (IH _ H). exact (unlock_category_length _ _ _ _ E).
Qed.

Lemma for_each_fuel (supply : num) (l : list (Category * DistributionData))
    (s : list SchedulePoint) :
  for_each supply l s <> OutOfFuel.
Proof.
  revert s. induction l as [|[c data] r IH]; intros s; simpl; [discriminate|].
  destruct (unlock_category supply data s) as [s1| |] eqn:E; simpl;
    try discriminate.
  - apply IH.
  - exfalso. exact (unlock_category_fuel _ _ _ E).
Qed.

(** [generateUnlockSchedule] returns or throws; the model's fuel is enough. *)
Lemma generateUnlockSchedule_fuel (d : Distribution) (supply : num) :
  generateUnlockSchedule d supply <> OutOfFuel.
Proof.
  unfold generateUnlockSchedule.
  destruct (for_each supply (entries d) empty_schedule) eqn:E; simpl;
    try discriminate.
  exfalso. exact (for_each_fuel _ _ _ E).
Qed.

Lemma empty_schedule_length : List.length empty_schedule = 49%nat.
Proof. reflexivity. Qed.

Lemma In_entries (d : Distribution) (c : Category) : In (c, d c) (entries d).
Proof.
  unfold entries. apply (in_map (fun c => (c, d c))).
  destruct c; simpl; auto 8.
Qed.

(** *** Leaving the array *)

Lemma vesting_loop_throws (fuel m : nat) (dur mu : num)
    (s : list SchedulePoint) :
  (forall k : nat, (1 <= k <= List.length s)%nat ->
                   leb (of_Z (Z.of_nat k)) dur = true) ->
  (1 <= m <= List.length s)%nat -> (List.length s < fuel + m)%nat ->
  vesting_loop fuel m dur mu s = TypeError.
Proof.
  intros Hg. revert m s Hg.
  induction fuel as [|f IH]; intros m s Hg Hm Hf; [lia|].
  simpl. rewrite (Hg m Hm).
  destruct (Nat.eq_dec m (List.length s)) as [->|Hne].
  - now rewrite add_raw_past_end.
  - destruct (add_raw_inside s m mu) as [s' E]; [lia|].
    rewrite E. simpl.
    pose proof (add_raw_length _ _ _ _ E) as L.
    apply IH; rewrite L; auto; lia.
Qed.

Lemma unlock_category_throws (supply : num) (data : DistributionData)
    (s : list SchedulePoint) :
  (0 < List.length s)%nat -> loop_runs_to (duration data) (List.length s) ->
  unlock_category supply data s = TypeError.
Proof.
  intros Hs [Hpos Hg]. unfold unlock_category.
  destruct (add_raw_inside s 0%nat (tgeAmount_of supply data) Hs)
    as [s0 E].
  unfold tgeAmount_of, tokenAmount_of in E. rewrite E.
  unfold bind. unfold gtb in Hpos. rewrite Hpos.
  pose proof (add_raw_length _ _ _ _ E) as L.
  apply vesting_loop_throws; rewrite L; auto; lia.
Qed.

Lemma for_each_throws (supply : num) (l : list (Category * DistributionData))
    (s : list SchedulePoint) (c : Category) (data : DistributionData) :
  In (c, data) l ->
  (0 < List.length s)%nat -> loop_runs_to (duration data) (List.length s) ->
  for_each supply l s = TypeError.
Proof.
  revert s. induction l as [|[c' data'] r IH]; intros s Hin Hs Hrun;
    [contradiction|].
  simpl. destruct Hin as [Heq|Hin].
  - inversion Heq; subst. now rewrite unlock_category_throws.
  - destruct (unlock_category supply data' s) as [s1| |] eqn:E; simpl; auto.
    + pose proof (unlock_category_length _ _ _ _ E) as L.
      apply IH; rewrite ?L; auto.
    + exfalso. exact (unlock_category_fuel _ _ _ E).
Qed.

(** *** Staying inside the array *)

Lemma vesting_loop_returns (fuel m : nat) (dur mu : num)
    (s : list SchedulePoint) (stop : nat) :
  leb (of_Z (Z.of_nat stop)) dur = false ->
  (m <= stop <= List.length s)%nat -> (List.length s < fuel + m)%nat ->
  exists s', vesting_loop fuel m dur mu s = Ok s'.
Proof.
  intros Hstop. revert m s.
  induction fuel as [|f IH]; intros m s Hm Hf; [lia|].
  simpl. destruct (leb (of_Z (Z.of_nat m)) dur) eqn:G.
  - assert (m <> stop) by (intros ->; congruence).
    destruct (add_raw_inside s m mu) as [s' E]; [lia|].
    rewrite E. simpl.
    pose proof (add_raw_length _ _ _ _ E) as L.
    apply IH; rewrite L; lia.
  - eexists; reflexivity.
Qed.

Lemma unlock_category_returns (supply : num) (data : DistributionData)
    (s : list SchedulePoint) :
  (0 < List.length s)%nat -> loop_stops_by (duration data) (List.length s) ->
  exists s', unlock_category supply data s = Ok s'.
Proof.
  intros Hs Hstop. unfold unlock_category.
  destruct (add_raw_inside s 0%nat (tgeAmount_of supply data) Hs)
    as [s0 E].
  unfold tgeAmount_of, tokenAmount_of in E. rewrite E. unfold bind.
  pose proof (add_raw_length _ _ _ _ E) as L.
  destruct (ltb (of_Z 0) (duration data)) eqn:G.
  - destruct Hstop as [Hn|(m & Hm & Hg)].
    + unfold gtb in Hn. congruence.
    + apply (vesting_loop_returns _ _ _ _ _ m Hg); rewrite L; lia.
  - eexists; reflexivity.
Qed.

Lemma for_each_returns (supply : num) (l : list (Category * DistributionData))
    (s : list SchedulePoint) :
  (0 < List.length s)%nat ->
  (forall e, In e l -> loop_stops_by (duration (snd e)) (List.length s)) ->
  exists s', for_each supply l s = Ok s'.
Proof.
  revert s. induction l as [|[c data] r IH]; intros s Hs Hall.
  - eexists; reflexivity.
  - simpl.
    destruct (unlock_category_returns supply data s Hs) as [s1 E].
    { exact (Hall (c, data) (or_introl eq_refl)). }
    rewrite E. simpl.
    pose proof (unlock_category_length _ _ _ _ E) as L.
    apply IH; rewrite L; auto.
    intros e He. apply Hall. now right.
Qed.

(** Every loop stops within the 48 months: a schedule is returned. *)
Lemma generateUnlockSchedule_returns (d : Distribution) (supply : num) :
  (forall c, loop_stops_by (duration (d c)) 49) ->
  exists s, generateUnlockSchedule d supply = Ok s.
Proof.
  intros Hall. unfold generateUnlockSchedule.
  destruct (for_each_returns supply (entries d) empty_schedule) as [s E].
  - rewrite empty_schedule_length. lia.
  - intros e He. unfold entries in He. apply in_map_iff in He.
    destruct He as (c & <- & _). simpl. apply Hall.
  - rewrite E. simpl. eexists; reflexivity.
Qed.

(** [calculateMetrics] returns whenever the schedule is returned. *)
Lemma calculateMetrics_returns (st : PlannerState) :
  (forall c, loop_stops_by (duration (distribution st c)) 49) ->
  exists m : Metrics, calculateMetrics st = Ok m.
Proof.
  intros Hall.
  destruct (generateUnlockSchedule_returns (distribution st) (totalSupply st)
              Hall) as [s Hs].
  unfold calculateMetrics. rewrite Hs. unfold bind.
  destruct s as [|p0 rest]; [|eexists; reflexivity].
  unfold generateUnlockSchedule in Hs.
  apply bind_Ok in Hs. destruct Hs as (sched & E & H).
  apply for_each_length in E. rewrite empty_schedule_length in E.
  destruct sched; [discriminate|]. discriminate.
Qed.

End ScheduleFacts.

(** ** C1: vesting past the 48-month horizon *)

Section Horizon.

Context {N : JSNumber}.

(** C1 (refuted by the code).  The claim says that a category vesting over
    more than 48 months still yields the 49 points, its later unlocks being
    dropped.  The loop of [generateUnlockSchedule] has no such bound: when its
    guard [month <= duration] still holds at month 49 it reads [schedule[49]],
    which is [undefined], and the call throws instead of returning. *)
Theorem generateUnlockSchedule_throws_past_horizon
    (d : Distribution) (supply : num) (c : Category) :
  loop_runs_to (duration (d c)) 49 ->
  generateUnlockSchedule d supply = TypeError.
Proof.
  intros Hrun. unfold generateUnlockSchedule.
  rewrite (for_each_throws supply (entries d) empty_schedule c (d c)).
  - reflexivity.
  - apply In_entries.
  - rewrite empty_schedule_length. lia.
  - rewrite empty_schedule_length. exact Hrun.
Qed.

End Horizon.

Section HorizonOnBinary64.

#[local] Existing Instance B64_number.

Lemma horizon_distribution_runs_to_49 :
  loop_runs_to (duration (horizon_distribution development)) 49.
Proof.
  split; [reflexivity|].
  intros m Hm.
  do 50 (destruct m as [|m]; [first [lia | reflexivity]|]).
  lia.
Qed.

Lemma generateUnlockSchedule_throws_past_horizon_witness :
  loop_runs_to (duration (horizon_distribution development)) 49 /\
  generateUnlockSchedule horizon_distribution (of_Z 1000000000) = TypeError.
Proof.
  split.
  - exact horizon_distribution_runs_to_49.
  - apply (generateUnlockSchedule_throws_past_horizon
             horizon_distribution (of_Z 1000000000) development).
    exact horizon_distribution_runs_to_49.
Defined.

End HorizonOnBinary64.

(** ** C5: the month-0 slot *)

Section MonthZero.

Context {N : JSNumber}.

Lemma add_raw_head (p : SchedulePoint) (r : list SchedulePoint) (x : num) :
  add_raw (p :: r) 0 x = Ok (bump_head p x :: r).
Proof. reflexivity. Qed.

Lemma add_raw_tail (p : SchedulePoint) (r s' : list SchedulePoint)
    (m : nat) (x : num) :
  add_raw (p :: r) (S m) x = Ok s' -> exists r', s' = p :: r'.
Proof.
  unfold add_raw. simpl. destruct (nth_error r m); intros H; inversion H.
  eexists; reflexivity.
Qed.

(** The loop starts at month 1 and never writes slot 0. *)
Lemma vesting_loop_head (fuel m : nat) (dur mu : num) (p : SchedulePoint)
    (r s' : list SchedulePoint) :
  vesting_loop fuel (S m) dur mu (p :: r) = Ok s' -> exists r', s' = p :: r'.
Proof.
  revert m r. induction fuel as [|f IH]; intros m r; rewrite vesting_loop_eq;
    destruct (leb (of_Z (Z.of_nat (S m))) dur); try discriminate.
  - intros H; inversion H. eexists; reflexivity.
  - intros H. apply bind_Ok in H. destruct H as (s1 & E & H).
    apply add_raw_tail in E. destruct E as (r1 & ->).
    exact (IH _ _ H).
  - intros H; inversion H. eexists; reflexivity.
Qed.

Lemma unlock_category_head (supply : num) (data : DistributionData)
    (p : SchedulePoint) (r s' : list SchedulePoint) :
  unlock_category supply data (p :: r) = Ok s' ->
  exists r', s' = bump_head p (tgeAmount_of supply data) :: r'.
Proof.
  unfold unlock_category. rewrite add_raw_head. unfold bind.
  destruct (ltb (of_Z 0) (duration data)).
  - apply vesting_loop_head.
  - intros H; inversion H. eexists; reflexivity.
Qed.

Lemma for_each_head (supply : num) (l : list (Category * DistributionData))
    (p : SchedulePoint) (r s' : list SchedulePoint) :
  for_each supply l (p :: r) = Ok s' ->
  exists r',
    s' = {| sp_month := sp_month p;
            sp_circulating := sp_circulating p;
            rawCirculating :=
              fold_left (fun acc e => add acc (tgeAmount_of supply (snd e))) l
                (rawCirculating p) |} :: r'.
Proof.
  revert p r. induction l as [|[c data] l IH]; intros p r; simpl.
  - intros H; inversion H. destruct p. eexists; reflexivity.
  - intros H. apply bind_Ok in H. destruct H as (s1 & E & H).
    apply unlock_category_head in E. destruct E as (r1 & ->).
    exact (IH _ _ H).
Qed.

Lemma fold_entries (d : Distribution) (supply x : num) :
  fold_left (fun acc e => add acc (tgeAmount_of supply (snd e))) (entries d) x
  = fold_left (fun acc c => add acc (tgeAmount_of supply (d c))) categories x.
Proof.
  unfold entries. generalize categories. intros l. revert x.
  induction l as [|c l IH]; intros x; simpl; auto.
Qed.

(** A returned schedule is the running total over an array whose slot 0
    holds the TGE total. *)
Lemma returned_schedule_head
    (d : Distribution) (supply : num) (s : list UnlockPoint) :
  generateUnlockSchedule d supply = Ok s ->
  exists r' : list SchedulePoint,
    s = cumulate supply (of_Z 0)
          ({| sp_month := 0; sp_circulating := of_Z 0;
              rawCirculating := tge_total d supply |} :: r').
Proof.
  unfold generateUnlockSchedule. intros H.
  apply bind_Ok in H. destruct H as (sched & E & H).
  change empty_schedule with
    ({| sp_month := 0; sp_circulating := of_Z 0; rawCirculating := of_Z 0 |}
     :: map (fun m => {| sp_month := m; sp_circulating := of_Z 0;
                         rawCirculating := of_Z 0 |}) (seq 1 months)) in E.
  apply for_each_head in E. destruct E as (r' & ->).
  exists r'. injection H as <-.
  cbn [sp_month sp_circulating rawCirculating].
  unfold tge_total. now rewrite <- fold_entries.
Qed.

(** C5.  Whenever [generateUnlockSchedule] returns, the first point of the
    schedule is month 0 and its circulating amount is the sum over the
    categories of [floor(floor(totalSupply * percentage / 100) * tge / 100)],
    accumulated from 0 in insertion order and added to the running total 0,
    capped at [totalSupply] by [Math.min].  This holds for every number
    type, on binary64 in particular. *)
Theorem month_zero_is_capped_tge_total
    (d : Distribution) (supply : num) (s : list UnlockPoint) :
  generateUnlockSchedule d supply = Ok s ->
  exists (p0 : UnlockPoint) (rest : list UnlockPoint),
    s = p0 :: rest /\
    month p0 = 0%nat /\
    circulating p0 = min (add (of_Z 0) (tge_total d supply)) supply.
Proof.
  intros H. destruct (returned_schedule_head d supply s H) as (r' & ->).
  cbn [cumulate]. cbv zeta.
  eexists. eexists. split; [reflexivity|].
  split; reflexivity.
Qed.

End MonthZero.

(** ** C6: an edit within the budget *)

Section Frame.

Context {N : JSNumber}.

Lemma Category_eqb_eq (a b : Category) : Category_eqb a b = true <-> a = b.
Proof. destruct a, b; simpl; split; intros H; congruence. Qed.

Lemma Category_eqb_refl (a : Category) : Category_eqb a a = true.
Proof. now apply Category_eqb_eq. Qed.

Lemma Category_eqb_neq (a b : Category) : a <> b -> Category_eqb a b = false.
Proof.
  intros H. destruct (Category_eqb a b) eqn:E; [|reflexivity].
  apply Category_eqb_eq in E. contradiction.
Qed.

(** With [v] the edited value as the handler clamps it,
    [Math.max(0, value)]: if the other categories' percentages plus [v]
    stay within 100, the handler returns the distribution in which the
    target's percentage is [Math.round(v * 10) / 10], its TGE and duration
    are the old ones, and the record of every other category is the old
    record itself.  For every number type. *)
Lemma within_budget_frame
    (d : Distribution) (category : Category) (value : num) :
  leb (add (otherTotal d category) (max (of_Z 0) value)) (of_Z 100) = true ->
  exists d' : Distribution,
    handleDistributionChange d category f_percentage value = Ok d' /\
    percentage (d' category) = round1 (max (of_Z 0) value) /\
    tge (d' category) = tge (d category) /\
    duration (d' category) = duration (d category) /\
    forall c : Category, c <> category -> d' c = d c.
Proof.
  intros Hle. unfold handleDistributionChange. rewrite Hle.
  eexists. split; [reflexivity|].
  unfold set_category. rewrite Category_eqb_refl.
  repeat split.
  intros c Hc. now rewrite (Category_eqb_neq c category Hc).
Qed.

End Frame.

(** ** C7: the warnings *)

(** C7.  Whenever [calculateMetrics] returns, its warnings are exactly the
    messages of the four rules whose condition holds, each rule evaluated on
    its own and the messages kept in the fixed order: TGE circulating percent
    above 25; TGE circulating above 0 and FDV/MCap ratio above 100; team
    percentage above 20; liquidity percentage below 5.  In particular a
    liquidity percentage below 5 always yields the low-liquidity warning. *)
Theorem warnings_follow_the_four_rules
    (N : JSNumber) (st : PlannerState) (m : Metrics) :
  calculateMetrics st = Ok m ->
  warnings m = expected_warnings st m /\
  (ltb (percentage (distribution st liquidityPool)) (of_Z 5) = true ->
   In liquidity_warning (warnings m)).
Proof.
  unfold calculateMetrics. intros H.
  apply bind_Ok in H. destruct H as (s & _ & H).
  destruct s as [|p0 rest]; [discriminate|].
  inversion H; subst; clear H.
  unfold expected_warnings, gtb.
  cbn [warnings tgeCirculating tgeCirculatingPercent fdvToMcapRatio].
  destruct (ltb (of_Z 25) _) eqn:C1;
    destruct (ltb (of_Z 0) (circulating p0)) eqn:C2;
    [ destruct (ltb (of_Z 100) _) eqn:C2' |
    | destruct (ltb (of_Z 100) _) eqn:C2' | ];
    destruct (ltb (of_Z 20) _) eqn:C3;
    destruct (ltb _ (of_Z 5)) eqn:C4;
    (split; [try reflexivity | intros; simpl; auto 6; try discriminate]).
Qed.

Section WarningsOnBinary64.

#[local] Existing Instance B64_number.

Lemma warnings_follow_the_four_rules_witness :
  calculateMetrics low_liquidity_state = Ok low_liquidity_metrics /\
  warnings low_liquidity_metrics = [liquidity_warning] /\
  warnings low_liquidity_metrics
  = expected_warnings low_liquidity_state low_liquidity_metrics /\
  (ltb (percentage (distribution low_liquidity_state liquidityPool))
     (of_Z 5) = true ->
   In liquidity_warning (warnings low_liquidity_metrics)).
Proof.
  split; [reflexivity|].
  split; [reflexivity|].
  apply (warnings_follow_the_four_rules B64_number low_liquidity_state
           low_liquidity_metrics).
  reflexivity.
Defined.

End WarningsOnBinary64.

(** ** Runs on binary64 *)

Section OnBinary64.

#[local] Existing Instance B64_number.

Lemma low_liquidity_state_is_the_edit :
  handleDistributionChange default_distribution liquidityPool f_percentage
    (of_Z 4)
  = Ok (distribution low_liquidity_state).
Proof. reflexivity. Qed.

(** C4.  With [totalSupply = 1,000,000,000], [initialTokenPrice = 0.001] and
    the default distribution, on binary64: the month-0 point of the schedule
    circulates 45,000,000 tokens; the metrics are [tgeCirculating =
    45,000,000], [tgeCirculatingPercent = 4.5], [initialMarketCap = 45,000];
    the fully diluted value [fdv] is 1,000,000; and the ratio is
    [fdv / initialMarketCap], between 22.15 and 22.25, that is 22.2 to one
    decimal. *)
Theorem default_scenario_metrics :
  totalSupply settled_state = of_Z 1000000000 /\
  initialTokenPrice settled_state = lit 1 1000 /\
  percentages (distribution settled_state)
  = [of_Z 20; of_Z 15; of_Z 15; of_Z 20; of_Z 15; of_Z 10; of_Z 5] /\
  map tge (values (distribution settled_state))
  = [of_Z 10; of_Z 5; of_Z 0; of_Z 0; of_Z 5; of_Z 0; of_Z 20] /\
  map duration (values (distribution settled_state))
  = [of_Z 12; of_Z 24; of_Z 36; of_Z 48; of_Z 36; of_Z 48; of_Z 24] /\
  map_outcome (fun s => map circulating (firstn 1 s))
    (generateUnlockSchedule (distribution settled_state)
       (totalSupply settled_state))
  = Ok [of_Z 45000000] /\
  calculateMetrics settled_state = Ok default_metrics /\
  tgeCirculating default_metrics = of_Z 45000000 /\
  tgeCirculatingPercent default_metrics = lit 45 10 /\
  initialMarketCap default_metrics = of_Z 45000 /\
  fdv settled_state = of_Z 1000000 /\
  fdvToMcapRatio default_metrics
  = div (fdv settled_state) (initialMarketCap default_metrics) /\
  ltb (lit 2215 100) (fdvToMcapRatio default_metrics) = true /\
  ltb (fdvToMcapRatio default_metrics) (lit 2225 100) = true /\
  round1 (fdvToMcapRatio default_metrics) = lit 222 10 /\
  warnings default_metrics = [].
Proof.
  repeat split; try reflexivity; vm_compute; reflexivity.
Qed.

(** C2 (refuted by the code).  The claim says that the percentages sum to
    exactly 100 after a rebalancing edit.  On binary64 they need not: from the
    default distribution, setting [publicSale] to 21.5 (a value in [[0,100]],
    with the others summing to 80 > 0 and 80 + 21.5 > 100) takes the
    rebalancing branch and leaves 21.5, 14.7, 14.7, 19.7, 14.7, 9.8, 4.9,
    whose sum as [totalPercentage] computes it is [100.00000000000001], not
    100: the residual step adds a multiple of 0.1 and cannot remove rounding
    error of the additions. *)
Theorem rebalancing_total_is_not_100 :
  leb (of_Z 0) (lit 215 10) = true /\
  leb (lit 215 10) (of_Z 100) = true /\
  gtb (otherTotal default_distribution publicSale) (of_Z 0) = true /\
  leb (add (otherTotal default_distribution publicSale)
         (max (of_Z 0) (lit 215 10))) (of_Z 100) = false /\
  map_outcome percentages
    (handleDistributionChange default_distribution publicSale f_percentage
       (lit 215 10))
  = Ok [lit 215 10; lit 147 10; lit 147 10;
        add (lit 196 10) (lit 1 10); lit 147 10; lit 98 10; lit 49 10] /\
  map_outcome totalPercentage
    (handleDistributionChange default_distribution publicSale f_percentage
       (lit 215 10))
  = Ok just_above_100 /\
  strict_eqb just_above_100 (of_Z 100) = false /\
  gtb just_above_100 (of_Z 100) = true.
Proof.
  repeat split; vm_compute; reflexivity.
Qed.

Lemma default_schedule_is_returned :
  generateUnlockSchedule default_distribution (of_Z 1000000000)
  = Ok default_schedule.
Proof. reflexivity. Qed.

Lemma month_zero_is_capped_tge_total_witness :
  generateUnlockSchedule default_distribution (of_Z 1000000000)
  = Ok default_schedule /\
  exists (p0 : UnlockPoint) (rest : list UnlockPoint),
    default_schedule = p0 :: rest /\
    month p0 = 0%nat /\
    circulating p0
    = min (add (of_Z 0) (tge_total default_distribution (of_Z 1000000000)))
        (of_Z 1000000000).
Proof.
  split; [exact default_schedule_is_returned|].
  apply (month_zero_is_capped_tge_total default_distribution
           (of_Z 1000000000) default_schedule).
  exact default_schedule_is_returned.
Defined.

(** Adding the running total 0 changes nothing but the sign of a zero. *)
Lemma B64_zero_add (x : num) :
  add (of_Z 0) x = x \/ (x = S754_zero true /\ add (of_Z 0) x = S754_zero false).
Proof.
  destruct x as [[|]|s| |s m e]; try (left; reflexivity).
  right. split; reflexivity.
Qed.

End OnBinary64.

Section ScenarioOnExact.

#[local] Existing Instance Exact_number.

(** The same scenario on exact arithmetic: the values are 45,000,000, 4.5,
    45,000 and 1,000,000, and the ratio is 200/9. *)
Example default_scenario_on_exact :
  map_outcome
    (fun m =>
       [strict_eqb (tgeCirculating m) (of_Z 45000000);
        strict_eqb (tgeCirculatingPercent m) (lit 45 10);
        strict_eqb (initialMarketCap m) (of_Z 45000);
        strict_eqb (fdv (fdv_effect initial_state)) (of_Z 1000000);
        strict_eqb (fdvToMcapRatio m) (lit 200 9)])
    (calculateMetrics (fdv_effect initial_state))
  = Ok [true; true; true; true; true].
Proof. vm_compute. reflexivity. Qed.

End ScenarioOnExact.

(** ** C9: setting a category to 100 when the others sum to 100 *)

Section FullEdit.

#[local] Existing Instance B64_number.

Lemma SFeqb_100 (x : num) : strict_eqb x (of_Z 100) = true -> x = of_Z 100.
Proof.
  change (of_Z 100) with (S754_finite false 7036874417766400 (-46)).
  change (strict_eqb x) with (SFeqb x).
  destruct x as [s|s| |s m e]; try discriminate.
  - destruct s; discriminate.
  - unfold SFeqb, SFcompare. destruct s; [discriminate|].
    destruct (Z.compare e (-46)) eqn:Ee; try discriminate.
    destruct (Pos.compare_cont Eq m 7036874417766400) eqn:Em; try discriminate.
    intros _. apply Z.compare_eq in Ee. apply Pos.compare_eq in Em.
    now subst.
Qed.

Lemma SFadd_is_number (x y : B64.t) :
  B64_is_number (SFadd B64.prec B64.emax x y) = true ->
  B64_is_number x = true /\ B64_is_number y = true.
Proof.
  destruct x as [sx|sx| |sx mx ex], y as [sy|sy| |sy my ey];
    try (intros _; split; reflexivity);
    try discriminate.
  destruct sx, sy; discriminate.
Qed.

Lemma sum_percentages_is_number (l : list DistributionData) (acc : num) :
  B64_is_number (fold_left (fun sum data => add sum (percentage data)) l acc)
  = true ->
  B64_is_number acc = true /\
  Forall (fun data => B64_is_number (percentage data) = true) l.
Proof.
  revert acc. induction l as [|data l IH]; intros acc H.
  - split; [exact H|constructor].
  - cbn [fold_left] in H. apply IH in H. destruct H as [Ha Hl].
    apply SFadd_is_number in Ha. destruct Ha as [Ha Hp].
    split; [exact Ha|]. now constructor.
Qed.

(** A number scaled by 0 and rounded to one decimal is a zero. *)
Lemma scaled_by_zero (p : B64.t) :
  B64_is_number p = true ->
  B64_is_zero
    (div (round (mul (mul p (S754_zero false)) (of_Z 10))) (of_Z 10)) = true.
Proof.
  destruct p as [s|s| |s m e]; try discriminate; intros _;
    destruct s; reflexivity.
Qed.

Lemma zero_plus_zero (x y : B64.t) :
  B64_is_zero x = true -> B64_is_zero y = true ->
  B64_is_zero (add x y) = true.
Proof.
  destruct x as [[|]| | |], y as [[|]| | |]; try discriminate; reflexivity.
Qed.

Lemma zero_plus_100 (x : B64.t) :
  B64_is_zero x = true -> add x (of_Z 100) = of_Z 100.
Proof. destruct x as [[|]| | |]; try discriminate; reflexivity. Qed.

Lemma hundred_plus_zero (x : B64.t) :
  B64_is_zero x = true -> add (of_Z 100) x = of_Z 100.
Proof. destruct x as [[|]| | |]; try discriminate; reflexivity. Qed.

Lemma zero_is_0 (x : B64.t) :
  B64_is_zero x = true -> strict_eqb x (of_Z 0) = true.
Proof. destruct x as [[|]| | |]; try discriminate; reflexivity. Qed.

Lemma zero_is_number (x : B64.t) : B64_is_zero x = true -> B64.is_nan x = false.
Proof. destruct x as [[|]| | |]; try discriminate; reflexivity. Qed.

Lemma zeroed_target (d : Distribution) (category : Category) :
  percentage (zeroed d category category) = of_Z 100.
Proof.
  unfold zeroed, scaled. rewrite Category_eqb_refl. reflexivity.
Qed.

Lemma zeroed_other (d : Distribution) (category c : Category) :
  c <> category -> B64_is_number (percentage (d c)) = true ->
  B64_is_zero (percentage (zeroed d category c)) = true.
Proof.
  intros Hc Hp. unfold zeroed, scaled. rewrite (Category_eqb_neq _ _ Hc).
  cbn [percentage with_percentage]. now apply scaled_by_zero.
Qed.

Lemma other_entries_In (d : Distribution) (category c : Category) :
  c <> category -> In (d c) (map snd (other_entries d category)).
Proof.
  intros Hc. unfold other_entries, entries.
  apply in_map_iff. exists (c, d c). split; [reflexivity|].
  apply filter_In. split.
  - apply (in_map (fun c => (c, d c))). destruct c; simpl; auto 8.
  - simpl. now rewrite (Category_eqb_neq _ _ Hc).
Qed.

Lemma zeroed_total (d : Distribution) (category : Category) :
  (forall c, c <> category -> B64_is_number (percentage (d c)) = true) ->
  totalPercentage (zeroed d category) = of_Z 100.
Proof.
  intros Hnum.
  assert (Hz : forall c, c <> category ->
                 B64_is_zero (percentage (zeroed d category c)) = true).
  { intros c Hc. apply zeroed_other; auto. }
  pose proof (zeroed_target d category) as Ht.
  unfold totalPercentage, sum_percentages, values, categories.
  cbn [map fold_left].
  destruct category; rewrite Ht;
    repeat match goal with
    | |- context [percentage (zeroed d ?cat ?c)] =>
        let H := fresh "H" in
        assert (H : c <> cat) by discriminate;
        apply Hz in H;
        destruct (percentage (zeroed d cat c)) as [[|]| | |];
        try discriminate H; clear H
    end; reflexivity.
Qed.

(** C9.  On binary64, if the percentages of the categories other than the
    target sum to exactly 100 ([otherTotal === 100]) and the target is set to
    100, then the scale is [(100 - 100) / 100 = 0]; the handler returns the
    rebalanced object, in which the target holds 100 and every other category
    holds 0; that object already totals 100, so the residual step is skipped;
    and no percentage is NaN, so no quotient [0/0] was formed anywhere. *)
Theorem full_edit_zeroes_the_others (d : Distribution) (category : Category) :
  strict_eqb (otherTotal d category) (of_Z 100) = true ->
  div (sub (of_Z 100) (max (of_Z 0) (of_Z 100))) (otherTotal d category)
  = S754_zero false /\
  handleDistributionChange d category f_percentage (of_Z 100)
  = Ok (zeroed d category) /\
  percentage (zeroed d category category) = of_Z 100 /\
  (forall c, c <> category ->
     strict_eqb (percentage (zeroed d category c)) (of_Z 0) = true) /\
  strict_eqb (totalPercentage (zeroed d category)) (of_Z 100) = true /\
  (forall c, B64.is_nan (percentage (zeroed d category c)) = false).
Proof.
  intros H. apply SFeqb_100 in H.
  assert (Hnum : forall c, c <> category ->
                   B64_is_number (percentage (d c)) = true).
  { intros c Hc.
    assert (Hs : B64_is_number (otherTotal d category) = true)
      by (rewrite H; reflexivity).
    apply sum_percentages_is_number in Hs. destruct Hs as [_ Hs].
    rewrite Forall_forall in Hs. apply Hs. now apply other_entries_In. }
  pose proof (zeroed_total d category Hnum) as Htot.
  split; [rewrite H; reflexivity|].
  split.
  { unfold handleDistributionChange. rewrite H.
    change (leb (add (of_Z 100) (max (of_Z 0) (of_Z 100))) (of_Z 100))
      with false.
    cbv zeta.
    change (scaled d category (max (of_Z 0) (of_Z 100))
              (div (sub (of_Z 100) (max (of_Z 0) (of_Z 100))) (of_Z 100)))
      with (zeroed d category).
    unfold totalPercentage in Htot. rewrite Htot. reflexivity. }
  split; [apply zeroed_target|].
  split.
  { intros c Hc. apply zero_is_0. apply zeroed_other; auto. }
  split; [rewrite Htot; reflexivity|].
  intros c. destruct (Category_eqb c category) eqn:E.
  - apply Category_eqb_eq in E. subst c. rewrite zeroed_target. reflexivity.
  - assert (Hc : c <> category).
    { intros ->. rewrite Category_eqb_refl in E. discriminate. }
    apply zero_is_number. apply zeroed_other; auto.
Qed.

Lemma full_edit_zeroes_the_others_witness :
  strict_eqb (otherTotal (with_percentage_of default_distribution) liquidityPool)
    (of_Z 100) = true /\
  handleDistributionChange (with_percentage_of default_distribution)
    liquidityPool f_percentage (of_Z 100)
  = Ok (zeroed (with_percentage_of default_distribution) liquidityPool).
Proof.
  split; [reflexivity|].
  apply (full_edit_zeroes_the_others (with_percentage_of default_distribution)
           liquidityPool).
  reflexivity.
Defined.

End FullEdit.

(** ** Exact arithmetic *)

Section ExactFacts.

#[local] Existing Instance Exact_number.
#[local] Canonical Structure Exact_number.

Local Abbreviation Fin := Exact.Fin.

Lemma leb_Fin (a b : Q) : leb (Fin a) (Fin b) = true <-> a <= b.
Proof.
  change (leb (Fin a) (Fin b))
    with (match (a ?= b) with Lt | Eq => true | Gt => false end).
  rewrite Qle_alt. destruct (a ?= b); split; intros H; congruence.
Qed.

Lemma ltb_Fin (a b : Q) : ltb (Fin a) (Fin b) = true <-> a < b.
Proof.
  change (ltb (Fin a) (Fin b))
    with (match (a ?= b) with Lt => true | _ => false end).
  rewrite Qlt_alt. destruct (a ?= b); split; intros H; congruence.
Qed.

Lemma eqb_Fin (a b : Q) : strict_eqb (Fin a) (Fin b) = true <-> a == b.
Proof.
  change (strict_eqb (Fin a) (Fin b))
    with (match (a ?= b) with Eq => true | _ => false end).
  rewrite Qeq_alt. destruct (a ?= b); split; intros H; congruence.
Qed.

Lemma add_Fin (a b : Q) : add (Fin a) (Fin b) = Fin (a + b).
Proof. reflexivity. Qed.

Lemma sub_Fin (a b : Q) : sub (Fin a) (Fin b) = Fin (a - b).
Proof. reflexivity. Qed.

Lemma div_Fin (a b : Q) : ~ b == 0 -> div (Fin a) (Fin b) = Fin (a / b).
Proof.
  intros Hb. change (div (Fin a) (Fin b))
    with (if Qeq_bool b 0 then Exact.inf_of (a ?= 0) else Fin (a / b)).
  destruct (Qeq_bool b 0) eqn:E; [|reflexivity].
  apply Qeq_bool_iff in E. contradiction.
Qed.

Lemma min_Fin (a b : Q) :
  min (Fin a) (Fin b) = Fin (match a ?= b with Lt => a | _ => b end).
Proof.
  change (min (Fin a) (Fin b))
    with (match (a ?= b) with Lt => Fin a | _ => Fin b end).
  destruct (a ?= b); reflexivity.
Qed.

(** *** The raw amounts stay rationals at least 0 *)

(** *** The running total *)

(** A duration of at least 49 months keeps the loop running to month 49. *)
Lemma long_duration_runs_to_49 (dur : num) :
  leb (of_Z 49) dur = true -> loop_runs_to dur 49.
Proof.
  intros H. destruct dur as [D| | |]; try discriminate.
  - change (of_Z 49) with (Fin 49) in H. apply leb_Fin in H. split.
    + unfold gtb. change (of_Z 0) with (Fin 0). apply ltb_Fin. lra.
    + intros m Hm. change (of_Z (Z.of_nat m)) with (Fin (inject_Z (Z.of_nat m))).
      apply leb_Fin.
      assert (Hz : (Z.of_nat m <= 49)%Z) by lia.
      rewrite Zle_Qle in Hz. change (inject_Z 49) with 49 in Hz. lra.
  - split; [reflexivity|]. intros m _. reflexivity.
Qed.

(** *** The month-0 amount on exact arithmetic *)

Lemma tgeAmount_of_rational (supply : num) (data : DistributionData) :
  is_rational supply -> is_rational (percentage data) ->
  is_rational (tge data) -> is_rational (tgeAmount_of supply data).
Proof.
  intros [T ->] [p Hp] [g Hg]. unfold tgeAmount_of, tokenAmount_of.
  rewrite Hp, Hg. eexists. reflexivity.
Qed.

Lemma tge_total_rational (d : Distribution) (supply : num) :
  is_rational supply ->
  (forall c, is_rational (percentage (d c)) /\ is_rational (tge (d c))) ->
  is_rational (tge_total d supply).
Proof.
  intros Hs Hd. unfold tge_total.
  assert (H : forall (l : list Category) (a : Q),
            is_rational
              (fold_left (fun acc c => add acc (tgeAmount_of supply (d c))) l
                 (Fin a))).
  { induction l as [|c l IH]; intros a; [exists a; reflexivity|].
    cbn [fold_left].
    destruct (tgeAmount_of_rational supply (d c) Hs (proj1 (Hd c))
                (proj2 (Hd c))) as [t ->].
    rewrite add_Fin. apply IH. }
  apply H.
Qed.

(** On exact arithmetic the running total 0 adds nothing: the month-0 amount
    is the TGE total capped at the supply. *)
Lemma month_zero_on_exact (d : Distribution) (supply : num)
    (s : list UnlockPoint) :
  is_rational supply ->
  (forall c, is_rational (percentage (d c)) /\ is_rational (tge (d c))) ->
  generateUnlockSchedule d supply = Ok s ->
  exists (p0 : UnlockPoint) (rest : list UnlockPoint),
    s = p0 :: rest /\
    strict_eqb (circulating p0) (min (tge_total d supply) supply) = true.
Proof.
  intros Hs Hd Hrun.
  destruct (returned_schedule_head d supply s Hrun) as (r' & ->).
  cbn [cumulate]. cbv zeta. eexists. eexists. split; [reflexivity|].
  cbn [circulating rawCirculating].
  destruct (tge_total_rational d supply Hs Hd) as [t ->].
  destruct Hs as [T ->]. change (of_Z 0) with (Fin 0).
  rewrite add_Fin, !min_Fin. apply eqb_Fin.
  destruct (Qcompare_spec (0 + t) T), (Qcompare_spec t T); lra.
Qed.

End ExactFacts.

(** ** C8: the FDV / market-cap ratio *)

Section Ratio.

Context {N : JSNumber}.

(** The ratio is the quotient when the guard [tgeCirculating > 0] holds and
    [Number.POSITIVE_INFINITY] when it does not. *)
Lemma ratio_is_guarded_quotient (st : PlannerState) (m : Metrics) :
  calculateMetrics st = Ok m ->
  initialMarketCap m = mul (tgeCirculating m) (initialTokenPrice st) /\
  (gtb (tgeCirculating m) (of_Z 0) = true ->
   fdvToMcapRatio m = div (fdv st) (initialMarketCap m)) /\
  (gtb (tgeCirculating m) (of_Z 0) = false ->
   fdvToMcapRatio m = pos_infinity).
Proof.
  unfold calculateMetrics. intros H.
  apply bind_Ok in H. destruct H as (s & _ & H).
  destruct s as [|p0 rest]; [discriminate|].
  inversion H; subst; clear H. unfold gtb.
  cbn [tgeCirculating initialMarketCap fdvToMcapRatio].
  split; [reflexivity|].
  split; intros G; rewrite G; reflexivity.
Qed.

End Ratio.

Section RatioRuns.

#[local] Existing Instance B64_number.

(** C8, as stated, fails on the code: with the default distribution,
    [totalSupply = 1,000,000,000 >= 1] and [initialTokenPrice = 0 >= 0], the
    TGE circulating amount is above 0, so the division is performed, and its
    divisor [initialMarketCap] is 0; the ratio is the NaN of [0 / 0]. *)
Lemma zero_price_divides_by_zero :
  leb (of_Z 1) (totalSupply zero_price_state) = true /\
  leb (of_Z 0) (initialTokenPrice zero_price_state) = true /\
  calculateMetrics zero_price_state = Ok zero_price_metrics /\
  gtb (tgeCirculating zero_price_metrics) (of_Z 0) = true /\
  strict_eqb (initialMarketCap zero_price_metrics) (of_Z 0) = true /\
  fdvToMcapRatio zero_price_metrics = S754_nan /\
  ~ (forall (st : PlannerState) (m : Metrics),
       leb (of_Z 1) (totalSupply st) = true ->
       leb (of_Z 0) (initialTokenPrice st) = true ->
       calculateMetrics st = Ok m ->
       gtb (tgeCirculating m) (of_Z 0) = true ->
       strict_eqb (initialMarketCap m) (of_Z 0) = false).
Proof.
  assert (Hrun : calculateMetrics zero_price_state = Ok zero_price_metrics)
    by reflexivity.
  repeat (split; [reflexivity|]).
  intros H.
  specialize (H zero_price_state zero_price_metrics eq_refl eq_refl Hrun
                eq_refl).
  discriminate H.
Qed.

End RatioRuns.

(** ** The rebalancing branch *)

Section Rebalance.

Context {N : JSNumber}.

Lemma handle_rebalance (d : Distribution) (category : Category) (value : num) :
  leb (add (otherTotal d category) (max (of_Z 0) value)) (of_Z 100) = false ->
  handleDistributionChange d category f_percentage value =
  if negb (strict_eqb (totalPercentage (rebalanced d category value))
             (of_Z 100))
  then bind (largest_entry (other_entries (rebalanced d category value)
                              category))
         (fun e => Ok (corrected d category value (fst e)))
  else Ok (rebalanced d category value).
Proof.
  intros H. unfold handleDistributionChange. rewrite H. reflexivity.
Qed.

Lemma fold_largest_In (r : list (Category * DistributionData))
    (e : Category * DistributionData) :
  In (fold_left
        (fun mx curr =>
           if ltb (percentage (snd mx)) (percentage (snd curr))
           then curr else mx) r e) (e :: r).
Proof.
  revert e. induction r as [|x r IH]; intros e; [left; reflexivity|].
  cbn [fold_left].
  destruct (ltb (percentage (snd e)) (percentage (snd x))).
  - right. apply IH.
  - destruct (IH e) as [H|H]; [left; exact H|right; right; exact H].
Qed.

Lemma largest_entry_In (l : list (Category * DistributionData))
    (e : Category * DistributionData) :
  largest_entry l = Ok e -> In e l.
Proof.
  destruct l as [|x r]; [discriminate|].
  unfold largest_entry. intros H. injection H as <-. apply fold_largest_In.
Qed.

Lemma other_entries_spec (D : Distribution) (category : Category)
    (e : Category * DistributionData) :
  In e (other_entries D category) -> fst e <> category /\ snd e = D (fst e).
Proof.
  unfold other_entries, entries. intros H. apply filter_In in H.
  destruct H as [H1 H2]. apply in_map_iff in H1. destruct H1 as (c & <- & _).
  cbn [fst snd] in *. split; [|reflexivity].
  intros ->. rewrite Category_eqb_refl in H2. discriminate.
Qed.

Lemma other_entries_nonempty (D : Distribution) (category : Category) :
  exists e, largest_entry (other_entries D category) = Ok e.
Proof.
  destruct category; eexists; reflexivity.
Qed.

(** The handler returns the rebalanced object, or that object with the
    residual added to one category other than the target. *)
Lemma rebalance_shape (d : Distribution) (category : Category) (value : num) :
  leb (add (otherTotal d category) (max (of_Z 0) value)) (of_Z 100) = false ->
  (strict_eqb (totalPercentage (rebalanced d category value)) (of_Z 100)
   = true /\
   handleDistributionChange d category f_percentage value
   = Ok (rebalanced d category value)) \/
  (strict_eqb (totalPercentage (rebalanced d category value)) (of_Z 100)
   = false /\
   exists e,
     largest_entry (other_entries (rebalanced d category value) category)
     = Ok e /\
     fst e <> category /\
     handleDistributionChange d category f_percentage value
     = Ok (corrected d category value (fst e))).
Proof.
  intros H. rewrite (handle_rebalance d category value H).
  destruct (strict_eqb (totalPercentage (rebalanced d category value))
              (of_Z 100)); cbn [negb].
  - left. split; reflexivity.
  - right. split; [reflexivity|].
    destruct (other_entries_nonempty (rebalanced d category value) category)
      as [e He].
    exists e. split; [exact He|]. split.
    + apply largest_entry_In in He. now apply other_entries_spec in He.
    + rewrite He. reflexivity.
Qed.

Lemma rebalanced_target (d : Distribution) (category : Category) (value : num) :
  rebalanced d category value category
  = with_percentage (d category) (round1 (max (of_Z 0) value)).
Proof. unfold rebalanced, scaled. now rewrite Category_eqb_refl. Qed.

Lemma rebalanced_other (d : Distribution) (category : Category) (value : num)
    (c : Category) :
  c <> category ->
  rebalanced d category value c
  = with_percentage (d c) (scaled_percentage d category value c).
Proof.
  intros Hc. unfold rebalanced, scaled. now rewrite (Category_eqb_neq _ _ Hc).
Qed.

Lemma corrected_key (d : Distribution) (category : Category) (value : num)
    (key : Category) :
  percentage (corrected d category value key key)
  = add (percentage (rebalanced d category value key))
      (residual d category value).
Proof. unfold corrected, set_category. now rewrite Category_eqb_refl. Qed.

Lemma corrected_other (d : Distribution) (category : Category) (value : num)
    (key c : Category) :
  c <> key -> corrected d category value key c = rebalanced d category value c.
Proof.
  intros Hc. unfold corrected, set_category.
  now rewrite (Category_eqb_neq _ _ Hc).
Qed.

End Rebalance.

Section RebalanceOnExact.

#[local] Existing Instance Exact_number.
#[local] Canonical Structure Exact_number.

Local Abbreviation Fin := Exact.Fin.

Lemma sum_percentages_rational (l : list DistributionData) (a : Q) :
  Forall (fun data => is_rational (percentage data)) l ->
  exists T : Q,
    fold_left (fun sum data => add sum (percentage data)) l (Fin a) = Fin T.
Proof.
  intros Hl. revert a. induction Hl as [|data l [p Hp] Hl IH]; intros a.
  - exists a. reflexivity.
  - cbn [fold_left]. rewrite Hp, add_Fin. apply IH.
Qed.

Lemma otherTotal_rational (d : Distribution) (category : Category) :
  (forall c, is_rational (percentage (d c))) ->
  exists T : Q, otherTotal d category = Fin T.
Proof.
  intros Hd. unfold otherTotal, sum_percentages.
  apply sum_percentages_rational. apply Forall_forall. intros data Hin.
  apply in_map_iff in Hin. destruct Hin as (e & <- & He).
  apply other_entries_spec in He. destruct He as [_ ->]. apply Hd.
Qed.

Lemma max_zero_Fin (q : Q) :
  max (of_Z 0) (Fin q) = Fin (match 0 ?= q with Lt => q | _ => 0 end).
Proof.
  change (max (of_Z 0) (Fin q))
    with (match (0 ?= q) with Lt => Fin q | _ => Fin 0 end).
  destruct (0 ?= q); reflexivity.
Qed.

Lemma round1_Fin (a : Q) :
  round1 (Fin a) = Fin (inject_Z (Qfloor (a * 10 + (1 # 2))) / 10).
Proof. reflexivity. Qed.

Lemma scaled_percentage_Fin (d : Distribution) (category : Category)
    (value : num) (c : Category) (p sc : Q) :
  percentage (d c) = Fin p -> rebalance_scale d category value = Fin sc ->
  scaled_percentage d category value c
  = Fin (inject_Z (Qfloor (p * sc * 10 + (1 # 2))) / 10).
Proof.
  intros Hp Hsc. unfold scaled_percentage. rewrite Hp, Hsc. reflexivity.
Qed.

(** *** Numbers with one decimal *)

Lemma tenth_of_floor (a : Q) : tenth (inject_Z (Qfloor a) / 10).
Proof. exists (Qfloor a). reflexivity. Qed.

Lemma tenth_0 : tenth 0.
Proof. exists 0%Z. reflexivity. Qed.

Lemma tenth_plus (a b : Q) : tenth a -> tenth b -> tenth (a + b).
Proof.
  intros [k Hk] [l Hl]. exists (k + l)%Z.
  rewrite Hk, Hl, inject_Z_plus. field.
Qed.

Lemma tenth_to_100 (a : Q) : tenth a -> tenth (100 - a).
Proof.
  intros [k Hk]. exists (1000 - k)%Z.
  rewrite Hk. unfold Z.sub. rewrite inject_Z_plus, inject_Z_opp.
  change (inject_Z 1000) with 1000. field.
Qed.

Lemma Qfloor_half (k : Z) : Qfloor (inject_Z k + (1 # 2)) = k.
Proof.
  unfold Qfloor, Qplus, inject_Z. cbn [Qnum Qden].
  change (Z.pos (1 * 2)) with 2%Z.
  replace (k * 2 + 1 * 1)%Z with (1 + k * 2)%Z by ring.
  rewrite Z.div_add by discriminate. reflexivity.
Qed.

(** Rounding a number with one decimal to one decimal changes nothing. *)
Lemma round1_of_tenth (q : Q) :
  tenth q -> inject_Z (Qfloor (q * 10 + (1 # 2))) / 10 == q.
Proof.
  intros [k Hk].
  assert (H : q * 10 + (1 # 2) == inject_Z k + (1 # 2))
    by (rewrite Hk; field).
  rewrite H, Qfloor_half. symmetry. exact Hk.
Qed.

(** *** The total of a distribution of rationals *)

Lemma total_Fin (D : Distribution) (pq : Category -> Q) :
  (forall c, percentage (D c) = Fin (pq c)) ->
  totalPercentage D
  = Fin (0 + pq publicSale + pq privateRounds + pq teamAndAdvisors
         + pq development + pq ecosystem + pq treasury + pq liquidityPool).
Proof.
  intros H. unfold totalPercentage, sum_percentages, values, categories.
  cbn [map fold_left]. rewrite !H. reflexivity.
Qed.

Lemma is_rational_to_Q (x : num) : is_rational x -> x = Fin (to_Q x).
Proof. intros [q ->]. reflexivity. Qed.

(** The facts about a rebalancing edit of rationals that the results below
    share: the scale is a rational, and so is every percentage of the
    rebalanced object, with one decimal. *)
Lemma rebalanced_rational (d : Distribution) (category : Category)
    (value : num) :
  (forall c, is_rational (percentage (d c))) -> is_rational value ->
  gtb (otherTotal d category) (of_Z 0) = true ->
  exists (T v sc : Q) (pq : Category -> Q),
    otherTotal d category = Fin T /\ 0 < T /\
    max (of_Z 0) value = Fin v /\
    rebalance_scale d category value = Fin sc /\ sc == (100 - v) / T /\
    pq category = inject_Z (Qfloor (v * 10 + (1 # 2))) / 10 /\
    (forall c, c <> category ->
       pq c = inject_Z (Qfloor (to_Q (percentage (d c)) * sc * 10 + (1 # 2)))
              / 10 /\
       scaled_percentage d category value c = Fin (pq c)) /\
    (forall c, percentage (rebalanced d category value c) = Fin (pq c)) /\
    (forall c, tenth (pq c)).
Proof.
  intros Hd [q Hq] Hpos.
  destruct (otherTotal_rational d category Hd) as [T HT].
  unfold gtb in Hpos. rewrite HT in Hpos.
  change (of_Z 0) with (Fin 0) in Hpos. apply ltb_Fin in Hpos.
  set (v := match 0 ?= q with Lt => q | _ => 0 end).
  assert (Hv : max (of_Z 0) value = Fin v) by (rewrite Hq; apply max_zero_Fin).
  set (sc := (100 - v) / T).
  assert (Hsc : rebalance_scale d category value = Fin sc).
  { unfold rebalance_scale. rewrite Hv, HT.
    change (of_Z 100) with (Fin 100). rewrite sub_Fin, div_Fin by lra.
    reflexivity. }
  set (pq := fun c =>
               if Category_eqb c category
               then inject_Z (Qfloor (v * 10 + (1 # 2))) / 10
               else inject_Z
                      (Qfloor (to_Q (percentage (d c)) * sc * 10 + (1 # 2)))
                    / 10).
  assert (Hother : forall c, c <> category ->
            pq c = inject_Z
                     (Qfloor (to_Q (percentage (d c)) * sc * 10 + (1 # 2)))
                   / 10 /\
            scaled_percentage d category value c = Fin (pq c)).
  { intros c Hc. unfold pq. rewrite (Category_eqb_neq _ _ Hc).
    split; [reflexivity|].
    apply scaled_percentage_Fin; [|exact Hsc].
    apply is_rational_to_Q, Hd. }
  exists T, v, sc, pq.
  split; [exact HT|]. split; [exact Hpos|]. split; [exact Hv|].
  split; [exact Hsc|]. split; [reflexivity|].
  split; [unfold pq; now rewrite Category_eqb_refl|].
  split; [exact Hother|]. split.
  - intros c. destruct (Category_eqb c category) eqn:E.
    + apply Category_eqb_eq in E. subst c.
      rewrite rebalanced_target. cbn [percentage with_percentage].
      rewrite Hv, round1_Fin. unfold pq. now rewrite Category_eqb_refl.
    + assert (Hc : c <> category).
      { intros ->. rewrite Category_eqb_refl in E. discriminate. }
      rewrite (rebalanced_other d category value c Hc).
      cbn [percentage with_percentage]. exact (proj2 (Hother c Hc)).
  - intros c. unfold pq. destruct (Category_eqb c category);
      apply tenth_of_floor.
Qed.

(** On exact arithmetic the claim of C2 holds: after a rebalancing edit of
    rationals the percentages total exactly 100. *)
Lemma rebalancing_total_is_100_on_exact (d : Distribution)
    (category : Category) (value : num) :
  (forall c, is_rational (percentage (d c))) -> is_rational value ->
  gtb (otherTotal d category) (of_Z 0) = true ->
  leb (add (otherTotal d category) (max (of_Z 0) value)) (of_Z 100) = false ->
  exists d' : Distribution,
    handleDistributionChange d category f_percentage value = Ok d' /\
    strict_eqb (totalPercentage d') (of_Z 100) = true.
Proof.
  intros Hd Hval Hpos Hbranch.
  destruct (rebalanced_rational d category value Hd Hval Hpos)
    as (T & v & sc & pq & _ & _ & _ & _ & _ & _ & _ & Hreb & Hten).
  pose proof (total_Fin (rebalanced d category value) pq Hreb) as Htot.
  set (S := 0 + pq publicSale + pq privateRounds + pq teamAndAdvisors
            + pq development + pq ecosystem + pq treasury + pq liquidityPool)
    in Htot.
  assert (HS : tenth S).
  { unfold S. repeat apply tenth_plus; auto using tenth_0. }
  destruct (rebalance_shape d category value Hbranch)
    as [[Heq Hres]|(Hne & e & _ & _ & Hres)].
  - exists (rebalanced d category value). split; [exact Hres|exact Heq].
  - exists (corrected d category value (fst e)). split; [exact Hres|].
    set (key := fst e).
    set (r := inject_Z (Qfloor ((100 - S) * 10 + (1 # 2))) / 10).
    assert (Hr : residual d category value = Fin r).
    { unfold residual. rewrite Htot. reflexivity. }
    assert (Hr100 : r == 100 - S).
    { apply round1_of_tenth. now apply tenth_to_100. }
    set (pq' := fun c => if Category_eqb c key then pq key + r else pq c).
    assert (Hcor : forall c,
              percentage (corrected d category value key c) = Fin (pq' c)).
    { intros c. unfold pq'. destruct (Category_eqb c key) eqn:E.
      - apply Category_eqb_eq in E. subst c.
        rewrite corrected_key, Hreb, Hr. reflexivity.
      - rewrite corrected_other; [apply Hreb|].
        intros ->. rewrite Category_eqb_refl in E. discriminate. }
    rewrite (total_Fin _ pq' Hcor).
    change (of_Z 100) with (Fin 100). apply eqb_Fin.
    unfold pq'. unfold S in Hr100. clearbody r. clear - Hr100.
    destruct key; cbn [Category_eqb]; lra.
Qed.

End RebalanceOnExact.

Section RebalanceOnBinary64.

#[local] Existing Instance B64_number.


End RebalanceOnBinary64.

(** ** C3 on binary64 *)

Section OverflowOnBinary64.

#[local] Existing Instance B64_number.

Lemma default_distribution_valid_on_binary64 :
  valid_distribution default_distribution.
Proof. intros c. destruct c; repeat split; reflexivity. Qed.

(** C3, as stated, fails on the code.  With the default distribution and
    [totalSupply = 1e307], which is finite and at least 1, the product
    [totalSupply * percentage] overflows to [Infinity]; [Infinity * 0] and
    [Infinity - Infinity] are NaN, and every circulating amount of the
    returned schedule is NaN, which is not [<= totalSupply]. *)
Lemma huge_supply_overflows :
  valid_supply huge_supply /\
  valid_distribution default_distribution /\
  generateUnlockSchedule default_distribution huge_supply
  = Ok overflowed_schedule /\
  map circulating overflowed_schedule = repeat S754_nan 49 /\
  leb S754_nan huge_supply = false /\
  ~ (forall (d : Distribution) (supply : num) (s : list UnlockPoint),
       valid_supply supply -> valid_distribution d ->
       generateUnlockSchedule d supply = Ok s -> capped supply s).
Proof.
  assert (Hsup : valid_supply huge_supply) by (split; reflexivity).
  assert (Hrun : generateUnlockSchedule default_distribution huge_supply
                 = Ok overflowed_schedule) by reflexivity.
  split; [exact Hsup|].
  split; [exact default_distribution_valid_on_binary64|].
  split; [exact Hrun|].
  split; [reflexivity|]. split; [reflexivity|].
  intros H.
  specialize (H default_distribution huge_supply overflowed_schedule Hsup
                default_distribution_valid_on_binary64 Hrun).
  specialize (H (hd {| month := 0; circulating := of_Z 0;
                       percentCirculating := of_Z 0 |} overflowed_schedule)
                (or_introl eq_refl)).
  discriminate H.
Qed.

End OverflowOnBinary64.

(** ** The handler as a whole *)

Section Handler.

Context {N : JSNumber}.

Lemma set_category_same (d : Distribution) (category : Category)
    (data : DistributionData) :
  set_category d category data category = data.
Proof. unfold set_category. now rewrite Category_eqb_refl. Qed.

Lemma set_category_other (d : Distribution) (category c : Category)
    (data : DistributionData) :
  c <> category -> set_category d category data c = d c.
Proof.
  intros Hc. unfold set_category. now rewrite (Category_eqb_neq _ _ Hc).
Qed.

Lemma Category_eq_or_neq (a b : Category) : a = b \/ a <> b.
Proof.
  destruct (Category_eqb a b) eqn:E.
  - left. now apply Category_eqb_eq.
  - right. intros ->. rewrite Category_eqb_refl in E. discriminate.
Qed.

(** Replacing the percentage of one category keeps every unlock term. *)
Lemma set_percentage_keeps_unlock_terms (d : Distribution) (key k : Category)
    (p : num) :
  tge (set_category d key (with_percentage (d key) p) k) = tge (d k) /\
  duration (set_category d key (with_percentage (d key) p) k) = duration (d k).
Proof.
  destruct (Category_eq_or_neq k key) as [->|Hk].
  - rewrite set_category_same. split; reflexivity.
  - rewrite (set_category_other _ _ _ _ Hk). split; reflexivity.
Qed.

Lemma scaled_keeps_unlock_terms (d : Distribution) (category k : Category)
    (numValue scale : num) :
  tge (scaled d category numValue scale k) = tge (d k) /\
  duration (scaled d category numValue scale k) = duration (d k).
Proof.
  unfold scaled. destruct (Category_eqb k category); split; reflexivity.
Qed.

(** X1.  [handleDistributionChange] returns a distribution for every
    category, field and value: the [reduce] without an initial value that
    looks for the largest category runs over the six other entries, never
    over an empty array. *)
Theorem handleDistributionChange_never_throws
    (d : Distribution) (category : Category) (field : Field) (value : num) :
  exists d' : Distribution,
    handleDistributionChange d category field value = Ok d'.
Proof.
  destruct field; [|eexists; reflexivity..].
  destruct (leb (add (otherTotal d category) (max (of_Z 0) value)) (of_Z 100))
    eqn:H.
  - eexists. unfold handleDistributionChange. rewrite H. reflexivity.
  - destruct (rebalance_shape d category value H)
      as [[_ E]|[_ (e & _ & _ & E)]]; eexists; exact E.
Qed.

(** X2.  A percentage edit, whether it fits the budget, rebalances the other
    categories or also moves the residual, changes percentages only: the TGE
    unlock and the vesting months of every category stay as they were. *)
Theorem percentage_edit_keeps_unlock_terms
    (d : Distribution) (category : Category) (value : num) :
  exists d' : Distribution,
    handleDistributionChange d category f_percentage value = Ok d' /\
    forall k : Category,
      tge (d' k) = tge (d k) /\ duration (d' k) = duration (d k).
Proof.
  destruct (leb (add (otherTotal d category) (max (of_Z 0) value)) (of_Z 100))
    eqn:H.
  - eexists. split.
    + unfold handleDistributionChange. rewrite H. reflexivity.
    + intros k. apply set_percentage_keeps_unlock_terms.
  - destruct (rebalance_shape d category value H)
      as [[_ E]|[_ (e & _ & _ & E)]]; eexists; (split; [exact E|]); intros k.
    + apply scaled_keeps_unlock_terms.
    + unfold corrected.
      destruct (set_percentage_keeps_unlock_terms
                  (rebalanced d category value) (fst e) k
                  (add (percentage (rebalanced d category value (fst e)))
                     (residual d category value))) as [-> ->].
      apply scaled_keeps_unlock_terms.
Qed.

Lemma sum_percentages_from (l l' : list DistributionData) (acc : num) :
  map percentage l = map percentage l' ->
  fold_left (fun sum data => add sum (percentage data)) l acc
  = fold_left (fun sum data => add sum (percentage data)) l' acc.
Proof.
  revert l' acc. induction l as [|x l IH]; intros [|y l'] acc H;
    try discriminate; [reflexivity|].
  cbn [map] in H. injection H as Hx Hl. cbn [fold_left]. rewrite Hx.
  now apply IH.
Qed.

Lemma totalPercentage_ext (d d' : Distribution) :
  (forall k, percentage (d' k) = percentage (d k)) ->
  totalPercentage d' = totalPercentage d.
Proof.
  intros H. unfold totalPercentage, sum_percentages, values.
  apply sum_percentages_from. rewrite !map_map. apply map_ext. exact H.
Qed.

(** X3.  An edit of the TGE unlock or of the vesting months changes that one
    field of that one category: every percentage, and so the total
    allocation, is unchanged, and so is the other unlock term. *)
Theorem unlock_edit_keeps_percentages
    (d : Distribution) (category : Category) (value : num) :
  (exists d' : Distribution,
     handleDistributionChange d category f_tge value = Ok d' /\
     (forall k, percentage (d' k) = percentage (d k)) /\
     (forall k, duration (d' k) = duration (d k)) /\
     (forall k, k <> category -> d' k = d k) /\
     totalPercentage d' = totalPercentage d) /\
  (exists d' : Distribution,
     handleDistributionChange d category f_duration value = Ok d' /\
     (forall k, percentage (d' k) = percentage (d k)) /\
     (forall k, tge (d' k) = tge (d k)) /\
     (forall k, k <> category -> d' k = d k) /\
     totalPercentage d' = totalPercentage d).
Proof.
  assert (Ht : forall x k,
             percentage (set_category d category (with_tge (d category) x) k)
             = percentage (d k) /\
             duration (set_category d category (with_tge (d category) x) k)
             = duration (d k)).
  { intros x k. destruct (Category_eq_or_neq k category) as [->|Hk].
    - rewrite set_category_same. split; reflexivity.
    - rewrite (set_category_other _ _ _ _ Hk). split; reflexivity. }
  assert (Hd : forall x k,
             percentage
               (set_category d category (with_duration (d category) x) k)
             = percentage (d k) /\
             tge (set_category d category (with_duration (d category) x) k)
             = tge (d k)).
  { intros x k. destruct (Category_eq_or_neq k category) as [->|Hk].
    - rewrite set_category_same. split; reflexivity.
    - rewrite (set_category_other _ _ _ _ Hk). split; reflexivity. }
  split; eexists; (split; [reflexivity|]).
  - split; [intros k; apply Ht|]. split; [intros k; apply Ht|].
    split; [intros k Hk; now apply set_category_other|].
    apply totalPercentage_ext. intros k. apply Ht.
  - split; [intros k; apply Hd|]. split; [intros k; apply Hd|].
    split; [intros k Hk; now apply set_category_other|].
    apply totalPercentage_ext. intros k. apply Hd.
Qed.

End Handler.

(** ** The shape of the returned schedule *)

Section ScheduleShape.

Context {N : JSNumber}.

Lemma set_nth_months (s : list SchedulePoint) (i : nat) (p q : SchedulePoint) :
  nth_error s i = Some p -> sp_month q = sp_month p ->
  map sp_month (set_nth s i q) = map sp_month s.
Proof.
  revert i. induction s as [|y s IH]; intros [|i] H Hq; try discriminate.
  - cbn in H. injection H as ->. cbn. now rewrite Hq.
  - cbn in H |- *. f_equal. now apply IH.
Qed.

Lemma add_raw_months (s s' : list SchedulePoint) (i : nat) (x : num) :
  add_raw s i x = Ok s' -> map sp_month s' = map sp_month s.
Proof.
  unfold add_raw. destruct (nth_error s i) as [p|] eqn:E; [|discriminate].
  intros H. injection H as <-. now apply (set_nth_months s i p).
Qed.

Lemma vesting_loop_months (fuel m : nat) (dur mu : num)
    (s s' : list SchedulePoint) :
  vesting_loop fuel m dur mu s = Ok s' -> map sp_month s' = map sp_month s.
Proof.
  revert m s. induction fuel as [|fuel IH]; intros m s; rewrite vesting_loop_eq;
    destruct (leb (of_Z (Z.of_nat m)) dur); intros H; try discriminate;
    try (injection H as <-; reflexivity).
  apply bind_Ok in H. destruct H as (s1 & H1 & H2).
  rewrite (IH _ _ H2). now apply add_raw_months in H1.
Qed.

Lemma unlock_category_months (supply : num) (data : DistributionData)
    (s s' : list SchedulePoint) :
  unlock_category supply data s = Ok s' -> map sp_month s' = map sp_month s.
Proof.
  unfold unlock_category. intros H. apply bind_Ok in H.
  destruct H as (s0 & H0 & H). apply add_raw_months in H0. rewrite <- H0.
  destruct (ltb (of_Z 0) (duration data)).
  - now apply vesting_loop_months in H.
  - now injection H as <-.
Qed.

Lemma for_each_months (supply : num) (l : list (Category * DistributionData))
    (s s' : list SchedulePoint) :
  for_each supply l s = Ok s' -> map sp_month s' = map sp_month s.
Proof.
  revert s. induction l as [|[c data] l IH]; intros s H.
  - now injection H as <-.
  - cbn [for_each] in H. apply bind_Ok in H. destruct H as (s1 & H1 & H2).
    rewrite (IH _ H2). now apply unlock_category_months in H1.
Qed.

Lemma cumulate_months (supply c : num) (s : list SchedulePoint) :
  map month (cumulate supply c s) = map sp_month s.
Proof.
  revert c. induction s as [|p s IH]; intros c; [reflexivity|].
  cbn [cumulate map month]. f_equal. apply IH.
Qed.

Lemma cumulate_percent (supply c : num) (s : list SchedulePoint) :
  Forall (fun p => percentCirculating p
                   = mul (div (circulating p) supply) (of_Z 100))
    (cumulate supply c s).
Proof.
  revert c. induction s as [|p s IH]; intros c; [constructor|].
  cbn [cumulate]. constructor; [reflexivity|apply IH].
Qed.

Lemma returned_schedule_months
    (d : Distribution) (supply : num) (s : list UnlockPoint) :
  generateUnlockSchedule d supply = Ok s -> map month s = seq 0 49.
Proof.
  unfold generateUnlockSchedule. intros H. apply bind_Ok in H.
  destruct H as (s0 & H0 & H). injection H as <-.
  rewrite cumulate_months. now rewrite (for_each_months _ _ _ _ H0).
Qed.

Lemma returned_schedule_percent
    (d : Distribution) (supply : num) (s : list UnlockPoint) :
  generateUnlockSchedule d supply = Ok s ->
  Forall (fun p => percentCirculating p
                   = mul (div (circulating p) supply) (of_Z 100)) s.
Proof.
  unfold generateUnlockSchedule. intros H. apply bind_Ok in H.
  destruct H as (s0 & H0 & H). injection H as <-. apply cumulate_percent.
Qed.

(** X4.  Every schedule that [generateUnlockSchedule] returns has the 49
    points of months 0 to 48, in this order, and the percentage of each
    point is its own circulating amount divided by the supply, times 100. *)
Theorem returned_schedule_shape
    (d : Distribution) (supply : num) (s : list UnlockPoint) :
  generateUnlockSchedule d supply = Ok s ->
  map month s = seq 0 49 /\
  forall p : UnlockPoint,
    In p s ->
    percentCirculating p = mul (div (circulating p) supply) (of_Z 100).
Proof.
  intros H. split; [now apply (returned_schedule_months d supply)|].
  apply Forall_forall. now apply (returned_schedule_percent d).
Qed.

(** X5.  The metrics read the month-0 point of the schedule: the tokens
    circulating at TGE and their percentage are the circulating amount and
    the percentage of that point, and the initial market capitalisation is
    that amount times the token price. *)
Theorem metrics_read_month_zero (st : PlannerState) (m : Metrics) :
  calculateMetrics st = Ok m ->
  exists (p0 : UnlockPoint) (rest : list UnlockPoint),
    generateUnlockSchedule (distribution st) (totalSupply st)
    = Ok (p0 :: rest) /\
    month p0 = 0%nat /\
    tgeCirculating m = circulating p0 /\
    tgeCirculatingPercent m = percentCirculating p0 /\
    initialMarketCap m = mul (circulating p0) (initialTokenPrice st).
Proof.
  unfold calculateMetrics. intros H. apply bind_Ok in H.
  destruct H as (s & Hs & H). destruct s as [|p0 rest]; [discriminate|].
  injection H as <-. exists p0, rest. split; [exact Hs|].
  pose proof (returned_schedule_months _ _ _ Hs) as Hm.
  pose proof (returned_schedule_percent _ _ _ Hs) as Hp.
  inversion Hp as [|? ? Hp0 _]; subst.
  cbn in Hm. injection Hm as Hm _.
  cbn [tgeCirculating tgeCirculatingPercent initialMarketCap].
  repeat split; [exact Hm|]. now rewrite Hp0.
Qed.

(** X6.  [calculateMetrics] throws exactly when [generateUnlockSchedule]
    does: the read of [unlockSchedule[0]] never fails, since a returned
    schedule is never empty. *)
Theorem calculateMetrics_throws_with_the_schedule (st : PlannerState) :
  calculateMetrics st = TypeError <->
  generateUnlockSchedule (distribution st) (totalSupply st) = TypeError.
Proof.
  unfold calculateMetrics.
  destruct (generateUnlockSchedule (distribution st) (totalSupply st))
    as [s| |] eqn:E; cbn [bind].
  - apply returned_schedule_months in E.
    destruct s as [|p0 rest]; [discriminate|]. split; discriminate.
  - split; reflexivity.
  - split; discriminate.
Qed.

End ScheduleShape.

Section ScheduleShapeOnBinary64.

#[local] Existing Instance B64_number.

Lemma returned_schedule_shape_witness :
  generateUnlockSchedule default_distribution (of_Z 1000000000)
  = Ok default_schedule /\
  map month default_schedule = seq 0 49 /\
  forall p : UnlockPoint,
    In p default_schedule ->
    percentCirculating p
    = mul (div (circulating p) (of_Z 1000000000)) (of_Z 100).
Proof.
  split; [exact default_schedule_is_returned|].
  apply (returned_schedule_shape default_distribution (of_Z 1000000000)
           default_schedule).
  exact default_schedule_is_returned.
Defined.

Lemma settled_state_metrics : calculateMetrics settled_state = Ok default_metrics.
Proof. reflexivity. Qed.

Lemma metrics_read_month_zero_witness :
  calculateMetrics settled_state = Ok default_metrics /\
  exists (p0 : UnlockPoint) (rest : list UnlockPoint),
    generateUnlockSchedule (distribution settled_state)
      (totalSupply settled_state)
    = Ok (p0 :: rest) /\
    month p0 = 0%nat /\
    tgeCirculating default_metrics = circulating p0 /\
    tgeCirculatingPercent default_metrics = percentCirculating p0 /\
    initialMarketCap default_metrics
    = mul (circulating p0) (initialTokenPrice settled_state).
Proof.
  split; [exact settled_state_metrics|].
  apply (metrics_read_month_zero settled_state default_metrics).
  exact settled_state_metrics.
Defined.

End ScheduleShapeOnBinary64.

(** ** The clamps on binary64 *)

Section ClampsOnBinary64.

#[local] Existing Instance B64_number.

Lemma SFcompare_antisym (x y : B64.t) :
  SFcompare x y = option_map CompOpp (SFcompare y x).
Proof.
  destruct x as [[|]|[|]| |[|] m e], y as [[|]|[|]| |[|] m' e'];
    try reflexivity; cbn [SFcompare option_map]; f_equal;
    rewrite (Z.compare_antisym e e'); destruct (e ?= e')%Z; cbn [CompOpp];
    try reflexivity;
    rewrite (Pos.compare_cont_antisym m' m Eq); cbn [CompOpp];
    try reflexivity; now rewrite CompOpp_involutive.
Qed.

Lemma SFltb_leb (x y : B64.t) : SFltb x y = true -> SFleb x y = true.
Proof.
  unfold SFltb, SFleb. destruct (SFcompare x y) as [[| |]|]; easy.
Qed.

(** Not above, and comparable: below or equal. *)
Lemma SFleb_of_not_ltb (x y : B64.t) :
  B64.is_nan x = false -> B64.is_nan y = false ->
  SFltb y x = false -> SFleb x y = true.
Proof.
  intros Hx Hy. unfold SFltb, SFleb. rewrite (SFcompare_antisym y x).
  destruct (SFcompare x y) as [[| |]|] eqn:E; cbn; try easy.
  destruct x as [[|]|[|]| |[|] ? ?], y as [[|]|[|]| |[|] ? ?]; discriminate.
Qed.

Lemma is_nan_eq (x : B64.t) : B64.is_nan x = true -> x = S754_nan.
Proof. destruct x; try discriminate. reflexivity. Qed.

Lemma B64_max_cases (lo v : B64.t) :
  B64.is_nan lo = false -> B64.is_neg_zero lo = false ->
  (B64.is_nan v = true /\ B64.max lo v = S754_nan) \/
  (B64.is_nan v = false /\
   (B64.max lo v = lo \/ (SFltb lo v = true /\ B64.max lo v = v))).
Proof.
  intros Hlo Hz. unfold B64.max. rewrite Hlo, Hz. cbn [orb].
  destruct (B64.is_nan v); [left; split; reflexivity|right].
  split; [reflexivity|].
  destruct (SFltb lo v); [right; split; reflexivity|].
  destruct (SFltb v lo); left; reflexivity.
Qed.

Lemma B64_max_is_nan (lo v : B64.t) :
  B64.is_nan lo = false -> B64.is_neg_zero lo = false ->
  B64.is_nan (B64.max lo v) = B64.is_nan v.
Proof.
  intros H1 H2.
  destruct (B64_max_cases lo v H1 H2) as [[Hv E]|[Hv [E|[_ E]]]]; rewrite E;
    [now rewrite Hv|now rewrite Hv, H1|reflexivity].
Qed.

Lemma B64_max_at_least (lo v : B64.t) :
  B64.is_nan lo = false -> B64.is_neg_zero lo = false ->
  SFleb lo lo = true ->
  B64.is_nan v = false -> SFleb lo (B64.max lo v) = true.
Proof.
  intros H1 H2 H3 Hv.
  destruct (B64_max_cases lo v H1 H2) as [[Hn _]|[_ [E|[L E]]]]; rewrite ?E.
  - rewrite Hn in Hv. discriminate.
  - exact H3.
  - now apply SFltb_leb.
Qed.

Lemma B64_min_cases (hi y : B64.t) :
  B64.is_nan hi = false -> B64.is_neg_zero hi = false ->
  (B64.is_nan y = true /\ B64.min hi y = S754_nan) \/
  (B64.is_nan y = false /\
   (B64.min hi y = hi \/ (SFleb y hi = true /\ B64.min hi y = y))).
Proof.
  intros Hhi Hz. unfold B64.min. rewrite Hhi, Hz. cbn [orb].
  destruct (B64.is_nan y) eqn:Hy; [left; split; reflexivity|right].
  split; [reflexivity|].
  destruct (SFltb hi y) eqn:L1; [left; reflexivity|].
  right. split; [now apply SFleb_of_not_ltb|].
  destruct (SFltb y hi); reflexivity.
Qed.

(** *** Rounding never produces NaN *)

Lemma shr_1_nonneg (mrs : shr_record) :
  (0 <= shr_m mrs)%Z -> (0 <= shr_m (shr_1 mrs))%Z.
Proof.
  destruct mrs as [m r s]. cbn [shr_m]. intros H.
  destruct m as [|[p|p|]|p]; cbn; lia.
Qed.

Lemma iter_shr_1_nonneg (p : positive) (mrs : shr_record) :
  (0 <= shr_m mrs)%Z -> (0 <= shr_m (iter_pos shr_1 p mrs))%Z.
Proof.
  revert mrs. induction p as [p IH|p IH|]; intros mrs H; cbn [iter_pos].
  - apply IH, IH, shr_1_nonneg, H.
  - apply IH, IH, H.
  - apply shr_1_nonneg, H.
Qed.

Lemma shr_fexp_nonneg (m e : Z) (l : location) :
  (0 <= m)%Z -> (0 <= shr_m (fst (shr_fexp B64.prec B64.emax m e l)))%Z.
Proof.
  intros H. unfold shr_fexp, shr.
  assert (H0 : (0 <= shr_m (shr_record_of_loc m l))%Z)
    by (destruct l as [|[| |]]; exact H).
  destruct (fexp B64.prec B64.emax (Zdigits2 m + e) - e)%Z; cbn [fst];
    try exact H0.
  now apply iter_shr_1_nonneg.
Qed.

Lemma round_nearest_even_nonneg (m : Z) (l : location) :
  (0 <= m)%Z -> (0 <= round_nearest_even m l)%Z.
Proof.
  intros H. unfold round_nearest_even.
  destruct l as [|[| |]]; try destruct (Z.even m); lia.
Qed.

Lemma binary_round_aux_is_number (s : bool) (m e : Z) (l : location) :
  (0 <= m)%Z ->
  B64.is_nan (binary_round_aux B64.prec B64.emax s m e l) = false.
Proof.
  intros H. unfold binary_round_aux.
  pose proof (shr_fexp_nonneg m e l H) as H1.
  destruct (shr_fexp B64.prec B64.emax m e l) as [mrs' e']. cbn [fst] in H1.
  pose proof (shr_fexp_nonneg
                (round_nearest_even (shr_m mrs') (loc_of_shr_record mrs'))
                e' loc_Exact (round_nearest_even_nonneg _ _ H1)) as H2.
  destruct (shr_fexp B64.prec B64.emax
              (round_nearest_even (shr_m mrs') (loc_of_shr_record mrs'))
              e' loc_Exact) as [mrs'' e'']. cbn [fst] in H2.
  destruct (shr_m mrs'') as [|p|p]; [reflexivity| |lia].
  destruct (e'' <=? B64.emax - B64.prec)%Z; reflexivity.
Qed.

Lemma of_Z_is_number (z : Z) : B64.is_nan (B64.of_Z z) = false.
Proof.
  unfold B64.of_Z, binary_normalize. destruct z as [|p|p]; [reflexivity| |];
    unfold binary_round;
    destruct (shl_align p 0 (fexp B64.prec B64.emax (Z.pos (digits2_pos p) + 0)))
      as [mz ez]; now apply binary_round_aux_is_number.
Qed.

Lemma SFmul_is_nan (x : B64.t) (s : bool) (m : positive) (e : Z) :
  B64.is_nan (SFmul B64.prec B64.emax x (S754_finite s m e)) = B64.is_nan x.
Proof.
  destruct x as [sx|sx| |sx mx ex]; try reflexivity.
  cbn [SFmul B64.is_nan]. now apply binary_round_aux_is_number.
Qed.

Lemma SFdiv_is_nan (x : B64.t) (s : bool) (m : positive) (e : Z) :
  B64.is_nan (SFdiv B64.prec B64.emax x (S754_finite s m e)) = B64.is_nan x.
Proof.
  destruct x as [sx|sx| |sx mx ex]; try reflexivity.
  cbn [SFdiv B64.is_nan]. unfold SFdiv_core_binary.
  set (m' := match _ with 0%Z => _ | Z.pos _ => _ | Z.neg _ => _ end).
  assert (Hm : (0 <= m')%Z).
  { subst m'. destruct (_ - _ - _)%Z; [lia| |lia].
    apply Z.shiftl_nonneg. lia. }
  assert (Hq : (0 <= fst (Z.div_eucl m' (Z.pos m)))%Z).
  { change (fst (Z.div_eucl m' (Z.pos m))) with (m' / Z.pos m)%Z.
    apply Z.div_pos; lia. }
  destruct (Z.div_eucl m' (Z.pos m)) as [q r]. cbn [fst] in Hq.
  now apply binary_round_aux_is_number.
Qed.

Lemma round_is_nan (x : B64.t) : B64.is_nan (B64.round x) = B64.is_nan x.
Proof.
  destruct x as [sx|sx| |sx mx ex]; try reflexivity.
  unfold B64.round. destruct (0 <=? ex)%Z; [reflexivity|].
  destruct (_ =? 0)%Z; [reflexivity|]. apply of_Z_is_number.
Qed.

Lemma ten_is_finite :
  B64.of_Z 10 = S754_finite false 5629499534213120 (-49).
Proof. reflexivity. Qed.

Lemma round1_is_nan (x : B64.t) : B64.is_nan (round1 x) = B64.is_nan x.
Proof.
  unfold round1. cbn [mul div round of_Z B64_number]. rewrite ten_is_finite.
  now rewrite SFdiv_is_nan, round_is_nan, SFmul_is_nan.
Qed.

(** [Math.min(100, Math.max(0, x))] of a number is between 0 and 100. *)
Lemma B64_clamp_0_100 (x : B64.t) :
  B64.is_nan x = false ->
  in_range 0 100 (B64.min (B64.of_Z 100) (B64.max (B64.of_Z 0) x)).
Proof.
  intros Hx.
  pose proof (B64_max_at_least (B64.of_Z 0) x eq_refl eq_refl eq_refl Hx)
    as H0.
  destruct (B64_min_cases (B64.of_Z 100) (B64.max (B64.of_Z 0) x)
              eq_refl eq_refl) as [[Hn _]|[_ [E|[L E]]]].
  - rewrite (B64_max_is_nan (B64.of_Z 0) x eq_refl eq_refl), Hx in Hn.
    discriminate.
  - unfold in_range. cbn [leb of_Z B64_number]. rewrite E.
    split; reflexivity.
  - unfold in_range. cbn [leb of_Z B64_number]. rewrite E.
    split; assumption.
Qed.

(** X7.  On binary64, for every value that is not NaN (the infinities
    included), the TGE unlock that a TGE edit stores lies between 0 and
    100. *)
Theorem tge_edit_is_clamped
    (d : Distribution) (category : Category) (value : num) :
  B64.is_nan value = false ->
  exists d' : Distribution,
    handleDistributionChange d category f_tge value = Ok d' /\
    in_range 0 100 (tge (d' category)).
Proof.
  intros Hv. eexists. split; [reflexivity|].
  rewrite set_category_same. cbn [tge with_tge].
  apply B64_clamp_0_100. rewrite round1_is_nan, <- Hv.
  exact (B64_max_is_nan (B64.of_Z 0) value eq_refl eq_refl).
Qed.

Lemma tge_edit_is_clamped_witness :
  exists d' : Distribution,
    handleDistributionChange default_distribution publicSale f_tge (of_Z 250)
    = Ok d' /\
    in_range 0 100 (tge (d' publicSale)).
Proof.
  apply (tge_edit_is_clamped default_distribution publicSale (of_Z 250)).
  reflexivity.
Defined.

(** X8.  On binary64, for every value that is not NaN, the vesting months
    that a vesting edit stores are at least 0. *)
Theorem duration_edit_is_clamped
    (d : Distribution) (category : Category) (value : num) :
  B64.is_nan value = false ->
  exists d' : Distribution,
    handleDistributionChange d category f_duration value = Ok d' /\
    leb (of_Z 0) (duration (d' category)) = true.
Proof.
  intros Hv. eexists. split; [reflexivity|].
  rewrite set_category_same. cbn [duration with_duration].
  apply (B64_max_at_least (B64.of_Z 0)); try reflexivity.
  cbn [round B64_number]. rewrite round_is_nan, <- Hv.
  exact (B64_max_is_nan (B64.of_Z 0) value eq_refl eq_refl).
Qed.

Lemma duration_edit_is_clamped_witness :
  exists d' : Distribution,
    handleDistributionChange default_distribution publicSale f_duration
      (of_Z (-3))
    = Ok d' /\
    leb (of_Z 0) (duration (d' publicSale)) = true.
Proof.
  apply (duration_edit_is_clamped default_distribution publicSale (of_Z (-3))).
  reflexivity.
Defined.

(** X9.  On binary64, for every value that is not NaN, the supply input
    stores a supply of at least 1 and the price input a price of at least 0,
    and neither changes anything else of the state; the effect then sets a
    fully diluted value that is NaN or at least 0. *)
Theorem number_inputs_are_clamped (st : PlannerState) (value : num) :
  B64.is_nan value = false ->
  leb (of_Z 1) (totalSupply (handleTotalSupplyChange st value)) = true /\
  leb (of_Z 0) (initialTokenPrice (handleTokenPriceChange st value)) = true /\
  initialTokenPrice (handleTotalSupplyChange st value) = initialTokenPrice st /\
  distribution (handleTotalSupplyChange st value) = distribution st /\
  totalSupply (handleTokenPriceChange st value) = totalSupply st /\
  distribution (handleTokenPriceChange st value) = distribution st /\
  nan_or_at_least 0 (fdv (fdv_effect st)).
Proof.
  intros Hv.
  cbn [handleTotalSupplyChange handleTokenPriceChange fdv_effect totalSupply
         initialTokenPrice distribution fdv].
  split; [apply (B64_max_at_least (B64.of_Z 1)); (reflexivity || exact Hv)|].
  split; [apply (B64_max_at_least (B64.of_Z 0)); (reflexivity || exact Hv)|].
  repeat split. unfold nan_or_at_least.
  destruct (B64.is_nan (mul (totalSupply st) (initialTokenPrice st))) eqn:Hp.
  - left. apply is_nan_eq. rewrite <- Hp.
    exact (B64_max_is_nan (B64.of_Z 0) _ eq_refl eq_refl).
  - right. apply (B64_max_at_least (B64.of_Z 0)); (reflexivity || exact Hp).
Qed.

Lemma number_inputs_are_clamped_witness :
  leb (of_Z 1) (totalSupply (handleTotalSupplyChange initial_state (of_Z 0)))
  = true /\
  leb (of_Z 0)
    (initialTokenPrice (handleTokenPriceChange initial_state (of_Z 0)))
  = true.
Proof.
  destruct (number_inputs_are_clamped initial_state (of_Z 0) eq_refl)
    as (H1 & H2 & _).
  split; [exact H1|exact H2].
Defined.

(** X10.  NaN passes every clamp: on binary64 the TGE edit, the vesting
    edit, the supply input and the price input all store NaN when they are
    called with NaN. *)
Theorem nan_passes_the_clamps
    (st : PlannerState) (d : Distribution) (category : Category) :
  handleDistributionChange d category f_tge S754_nan
  = Ok (set_category d category (with_tge (d category) S754_nan)) /\
  handleDistributionChange d category f_duration S754_nan
  = Ok (set_category d category (with_duration (d category) S754_nan)) /\
  totalSupply (handleTotalSupplyChange st S754_nan) = S754_nan /\
  initialTokenPrice (handleTokenPriceChange st S754_nan) = S754_nan.
Proof. repeat split; reflexivity. Qed.

End ClampsOnBinary64.

(** ** A distribution without vesting *)

Section NoVesting.

Context {N : JSNumber}.

Lemma unlock_category_no_vesting (supply : num) (data : DistributionData)
    (p : SchedulePoint) (r : list SchedulePoint) :
  gtb (duration data) (of_Z 0) = false ->
  unlock_category supply data (p :: r)
  = Ok (bump_head p (tgeAmount_of supply data) :: r).
Proof.
  intros H. unfold unlock_category. rewrite add_raw_head. cbn [bind].
  unfold gtb in H. rewrite H. reflexivity.
Qed.

Lemma for_each_no_vesting (supply : num)
    (l : list (Category * DistributionData))
    (p : SchedulePoint) (r : list SchedulePoint) :
  (forall e, In e l -> gtb (duration (snd e)) (of_Z 0) = false) ->
  for_each supply l (p :: r)
  = Ok ({| sp_month := sp_month p;
           sp_circulating := sp_circulating p;
           rawCirculating :=
             fold_left (fun acc e => add acc (tgeAmount_of supply (snd e))) l
               (rawCirculating p) |} :: r).
Proof.
  revert p. induction l as [|[c data] l IH]; intros p H.
  - destruct p. reflexivity.
  - cbn [for_each].
    rewrite (unlock_category_no_vesting supply data p r
               (H (c, data) (or_introl eq_refl))).
    cbn [bind]. rewrite IH; [reflexivity|].
    intros e He. apply H. right. exact He.
Qed.

End NoVesting.

Section NoVestingOnBinary64.

#[local] Existing Instance B64_number.

Lemma SFadd_zero_r (c : B64.t) :
  B64.is_neg_zero c = false -> add c (of_Z 0) = c.
Proof. destruct c as [[|]|[|]| |[|] m e]; try discriminate; reflexivity. Qed.

Lemma zero_add_is_not_neg_zero (x : B64.t) :
  B64.is_neg_zero (add (of_Z 0) x) = false.
Proof. destruct x as [[|]|[|]| |[|] m e]; reflexivity. Qed.

Lemma empty_schedule_cons :
  empty_schedule
  = {| sp_month := 0; sp_circulating := of_Z 0; rawCirculating := of_Z 0 |}
    :: tl empty_schedule.
Proof. reflexivity. Qed.

(** Once nothing more is added, the running total stays where it is. *)
Lemma cumulate_flat (supply c : num) (r : list SchedulePoint) :
  B64.is_neg_zero c = false ->
  Forall (fun p => rawCirculating p = of_Z 0) r ->
  forall q : UnlockPoint,
    In q (cumulate supply c r) -> circulating q = min c supply.
Proof.
  intros Hc Hr. induction Hr as [|p r Hp Hr IH]; intros q Hq; [destruct Hq|].
  cbn [cumulate] in Hq. cbv zeta in Hq. rewrite Hp in Hq.
  rewrite (SFadd_zero_r c Hc) in Hq.
  destruct Hq as [<-|Hq]; [reflexivity|]. now apply IH.
Qed.

(** X11.  On binary64, when no category vests (no vesting months above 0),
    the schedule is returned and is flat: all 49 points circulate the
    month-0 amount, the capped sum of the TGE amounts.  What a category
    does not unlock at TGE is then never released. *)
Theorem no_vesting_gives_flat_schedule (d : Distribution) (supply : num) :
  (forall c : Category, gtb (duration (d c)) (of_Z 0) = false) ->
  exists s : list UnlockPoint,
    generateUnlockSchedule d supply = Ok s /\
    map month s = seq 0 49 /\
    forall p : UnlockPoint,
      In p s ->
      circulating p = min (add (of_Z 0) (tge_total d supply)) supply.
Proof.
  intros H.
  assert (E : generateUnlockSchedule d supply
              = Ok (cumulate supply (of_Z 0)
                      ({| sp_month := 0; sp_circulating := of_Z 0;
                          rawCirculating := tge_total d supply |}
                       :: tl empty_schedule))).
  { unfold generateUnlockSchedule. rewrite empty_schedule_cons at 1.
    rewrite for_each_no_vesting.
    - cbn [bind sp_month sp_circulating rawCirculating].
      rewrite fold_entries. unfold tge_total. reflexivity.
    - intros e He. unfold entries in He. apply in_map_iff in He.
      destruct He as (c & <- & _). apply H. }
  eexists. split; [exact E|]. split.
  - now apply (returned_schedule_months d supply).
  - intros p Hp. cbn [cumulate] in Hp. cbv zeta in Hp.
    cbn [rawCirculating] in Hp. destruct Hp as [<-|Hp]; [reflexivity|].
    apply (cumulate_flat supply _ (tl empty_schedule)); [| |exact Hp].
    + apply zero_add_is_not_neg_zero.
    + unfold empty_schedule. cbn [months Nat.add seq map tl].
      repeat constructor.
Qed.

Lemma no_vesting_gives_flat_schedule_witness :
  exists s : list UnlockPoint,
    generateUnlockSchedule no_vesting_distribution (of_Z 1000000000) = Ok s /\
    map month s = seq 0 49 /\
    forall p : UnlockPoint,
      In p s ->
      circulating p
      = min (add (of_Z 0)
               (tge_total no_vesting_distribution (of_Z 1000000000)))
          (of_Z 1000000000).
Proof.
  apply (no_vesting_gives_flat_schedule no_vesting_distribution
           (of_Z 1000000000)).
  intros c. destruct c; reflexivity.
Defined.

(** *** The allocation bar *)

Lemma SFltb_is_number (x y : B64.t) :
  SFltb x y = true -> B64.is_nan x = false /\ B64.is_nan y = false.
Proof.
  destruct x as [[|]|[|]| |[|] ? ?], y as [[|]|[|]| |[|] ? ?];
    try discriminate; split; reflexivity.
Qed.

Lemma SFcompare_is_number (x y : B64.t) :
  B64.is_nan x = false -> B64.is_nan y = false -> SFcompare x y <> None.
Proof.
  destruct x as [[|]|[|]| |[|] ? ?], y as [[|]|[|]| |[|] ? ?];
    intros Hx Hy; discriminate.
Qed.

Lemma SFltb_asym (x y : B64.t) : SFltb x y = true -> SFltb y x = false.
Proof.
  unfold SFltb. rewrite (SFcompare_antisym y x).
  destruct (SFcompare x y) as [[| |]|]; easy.
Qed.

(** X12.  On binary64, when the total allocation is a number, the bar is
    100 percent wide whenever it is red (the total is above 100) and as wide
    as the total otherwise. *)
Theorem bar_is_full_when_over_allocated (d : Distribution) :
  B64.is_nan (totalPercentage d) = false ->
  bar_width d = if over_allocated d then of_Z 100 else totalPercentage d.
Proof.
  intros Hn. unfold bar_width, over_allocated.
  cbn [min ltb of_Z B64_number]. unfold B64.min. rewrite Hn. cbn [orb B64.is_nan].
  change (B64.is_nan (B64.of_Z 100)) with false. cbv iota.
  destruct (SFltb (B64.of_Z 100) (totalPercentage d)) eqn:L.
  - now rewrite (SFltb_asym _ _ L).
  - destruct (SFltb (totalPercentage d) (B64.of_Z 100)) eqn:L'; [reflexivity|].
    assert (E : totalPercentage d = B64.of_Z 100).
    { apply SFeqb_100. revert Hn L L'. generalize (totalPercentage d).
      intros t Hn L L'. cbn [strict_eqb of_Z B64_number].
      unfold SFeqb. unfold SFltb in L, L'.
      rewrite (SFcompare_antisym (B64.of_Z 100) t) in L.
      pose proof (SFcompare_is_number t (B64.of_Z 100) Hn eq_refl) as C.
      destruct (SFcompare t (B64.of_Z 100)) as [[| |]|];
        try discriminate; [reflexivity|now elim C]. }
    rewrite E. reflexivity.
Qed.

Lemma bar_is_full_when_over_allocated_witness :
  over_allocated (with_percentage_of default_distribution) = true /\
  bar_width (with_percentage_of default_distribution) = of_Z 100.
Proof.
  split; [reflexivity|].
  apply (bar_is_full_when_over_allocated
           (with_percentage_of default_distribution)).
  reflexivity.
Defined.

End NoVestingOnBinary64.

(** ** What the component displays *)

Section Display.

Context {N : JSNumber}.

(** The second rule of the warnings needs circulating tokens. *)
Lemma fdv_warning_needs_circulating_tokens (st : PlannerState) (m : Metrics) :
  calculateMetrics st = Ok m ->
  gtb (tgeCirculating m) (of_Z 0) = false ->
  ~ In high_fdv_warning (warnings m).
Proof.
  unfold calculateMetrics. intros H G. apply bind_Ok in H.
  destruct H as (s & _ & H). destruct s as [|p0 rest]; [discriminate|].
  inversion H; subst; clear H. unfold gtb in G.
  cbn [tgeCirculating] in G. cbn [warnings]. rewrite G.
  destruct (ltb (of_Z 25) _); destruct (ltb (of_Z 20) _);
    destruct (ltb _ (of_Z 5)); cbn; intros HIn;
    repeat (destruct HIn as [HIn|HIn]; [discriminate|]); exact HIn.
Qed.

End Display.

Section DisplayOnBinary64.

#[local] Existing Instance B64_number.

(** X18.  On binary64, when no token circulates at TGE (the month-0 amount
    is not above 0), the ratio is positive infinity, so the component prints
    the infinity sign for it, and the warning about a high ratio is not
    raised, although infinity is above 100. *)
Theorem no_circulating_tokens_show_infinity
    (st : PlannerState) (m : Metrics) :
  calculateMetrics st = Ok m ->
  gtb (tgeCirculating m) (of_Z 0) = false ->
  fdvToMcapRatio m = pos_infinity /\
  ltb (of_Z 100) (fdvToMcapRatio m) = true /\
  ratio_is_printed m = false /\
  ~ In high_fdv_warning (warnings m).
Proof.
  intros H G.
  destruct (ratio_is_guarded_quotient st m H) as (_ & _ & Hr).
  specialize (Hr G). unfold ratio_is_printed. rewrite Hr.
  split; [reflexivity|]. split; [reflexivity|]. split; [reflexivity|].
  now apply (fdv_warning_needs_circulating_tokens st).
Qed.

Lemma no_tge_state_metrics : calculateMetrics no_tge_state = Ok no_tge_metrics.
Proof. reflexivity. Qed.

Lemma no_circulating_tokens_show_infinity_witness :
  calculateMetrics no_tge_state = Ok no_tge_metrics /\
  gtb (tgeCirculating no_tge_metrics) (of_Z 0) = false /\
  ratio_is_printed no_tge_metrics = false /\
  ~ In high_fdv_warning (warnings no_tge_metrics).
Proof.
  split; [exact no_tge_state_metrics|]. split; [reflexivity|].
  destruct (no_circulating_tokens_show_infinity no_tge_state no_tge_metrics
              no_tge_state_metrics eq_refl) as (_ & _ & H1 & H2).
  split; [exact H1|exact H2].
Defined.

End DisplayOnBinary64.

(** X19.  The list of categories and the chart agree on the names: for each
    of the seven keys, putting a space before every capital letter and
    capitalising the first letter gives the label of [chartConfig]. *)
Theorem titles_are_the_chart_labels (c : Category) :
  category_title (key_of c) = chartConfig_label c.
Proof. destruct c; reflexivity. Qed.

(** ** The horizon on binary64 *)

Section HorizonCriterionOnBinary64.

#[local] Existing Instance B64_number.

Lemma lex_compare_trans (e1 e2 e3 : Z) (m1 m2 m3 : positive) :
  match (e1 ?= e2)%Z with Lt => Lt | Gt => Gt | Eq => Pos.compare m1 m2 end
  <> Gt ->
  match (e2 ?= e3)%Z with Lt => Lt | Gt => Gt | Eq => Pos.compare m2 m3 end
  <> Gt ->
  match (e1 ?= e3)%Z with Lt => Lt | Gt => Gt | Eq => Pos.compare m1 m3 end
  <> Gt.
Proof.
  destruct (Z.compare_spec e1 e2), (Z.compare_spec e2 e3),
    (Z.compare_spec e1 e3); try lia; try congruence; subst;
    destruct (Pos.compare_spec m1 m2), (Pos.compare_spec m2 m3),
      (Pos.compare_spec m1 m3); try lia; congruence.
Qed.

(** [<=] on doubles is transitive when the middle one is a positive number. *)
Lemma SFleb_trans_positive (x z : B64.t) (m : positive) (e : Z) :
  SFleb x (S754_finite false m e) = true ->
  SFleb (S754_finite false m e) z = true ->
  SFleb x z = true.
Proof.
  unfold SFleb.
  destruct x as [[|]|[|]| |[|] mx ex], z as [[|]|[|]| |[|] mz ez];
    cbn [SFcompare]; try (intros; (discriminate || reflexivity)).
  change (Pos.compare_cont Eq mx m) with (Pos.compare mx m).
  change (Pos.compare_cont Eq m mz) with (Pos.compare m mz).
  change (Pos.compare_cont Eq mx mz) with (Pos.compare mx mz).
  intros H1 H2.
  assert (H : match (ex ?= ez)%Z with
              | Lt => Lt | Gt => Gt | Eq => Pos.compare mx mz end <> Gt).
  { apply (lex_compare_trans ex e ez mx m mz).
    - destruct (ex ?= e)%Z; [destruct (Pos.compare mx m)| |];
        (discriminate H1 || discriminate).
    - destruct (e ?= ez)%Z; [destruct (Pos.compare m mz)| |];
        (discriminate H2 || discriminate). }
  destruct (ex ?= ez)%Z; [destruct (Pos.compare mx mz)| |];
    (reflexivity || now elim H).
Qed.

Lemma months_up_to_49 (m : nat) :
  (1 <= m <= 49)%nat -> leb (of_Z (Z.of_nat m)) (of_Z 49) = true.
Proof.
  intros Hm.
  do 50 (destruct m as [|m]; [try lia; try reflexivity|]). lia.
Qed.

Lemma forty_nine_is_finite :
  B64.of_Z 49 = S754_finite false 6896136929411072 (-47).
Proof. reflexivity. Qed.

(** On binary64 a duration of at least 49 months keeps the loop running to
    month 49. *)
Lemma long_duration_runs_to_49_on_binary64 (dur : num) :
  leb (of_Z 49) dur = true -> loop_runs_to dur 49.
Proof.
  intros H. split.
  - destruct dur as [[|]|[|]| |[|] md ed]; try discriminate; reflexivity.
  - intros m Hm. pose proof (months_up_to_49 m Hm) as Hle.
    cbn [leb of_Z B64_number] in *. rewrite forty_nine_is_finite in *.
    exact (SFleb_trans_positive _ _ _ _ Hle H).
Qed.

(** X21.  On binary64 [generateUnlockSchedule] throws exactly when some
    category has vesting months of 49 or more (as a double, positive
    infinity included); in every other case, NaN and fractional months
    below 49 included, it returns the 49 points. *)
Theorem schedule_throws_exactly_past_the_horizon
    (d : Distribution) (supply : num) :
  (generateUnlockSchedule d supply = TypeError <->
   exists c : Category, leb (of_Z 49) (duration (d c)) = true) /\
  ((forall c : Category, leb (of_Z 49) (duration (d c)) = false) ->
   exists s : list UnlockPoint,
     generateUnlockSchedule d supply = Ok s /\ map month s = seq 0 49).
Proof.
  assert (Hret : (forall c, leb (of_Z 49) (duration (d c)) = false) ->
                 exists s, generateUnlockSchedule d supply = Ok s /\
                           map month s = seq 0 49).
  { intros Hall. destruct (generateUnlockSchedule_returns d supply) as [s Hs].
    - intros c. right. exists 49%nat. split; [lia|]. apply Hall.
    - exists s. split; [exact Hs|].
      now apply (returned_schedule_months d supply). }
  split; [|exact Hret]. split.
  - intros Hthrow.
    destruct (leb (of_Z 49) (duration (d publicSale))) eqn:E1;
      [now exists publicSale|].
    destruct (leb (of_Z 49) (duration (d privateRounds))) eqn:E2;
      [now exists privateRounds|].
    destruct (leb (of_Z 49) (duration (d teamAndAdvisors))) eqn:E3;
      [now exists teamAndAdvisors|].
    destruct (leb (of_Z 49) (duration (d development))) eqn:E4;
      [now exists development|].
    destruct (leb (of_Z 49) (duration (d ecosystem))) eqn:E5;
      [now exists ecosystem|].
    destruct (leb (of_Z 49) (duration (d treasury))) eqn:E6;
      [now exists treasury|].
    destruct (leb (of_Z 49) (duration (d liquidityPool))) eqn:E7;
      [now exists liquidityPool|].
    destruct Hret as (s & Hs & _).
    + intros c. destruct c; assumption.
    + rewrite Hs in Hthrow. discriminate.
  - intros [c Hc]. unfold generateUnlockSchedule.
    rewrite (for_each_throws supply (entries d) empty_schedule c (d c));
      [reflexivity|apply In_entries| |].
    + rewrite empty_schedule_length. lia.
    + rewrite empty_schedule_length.
      now apply long_duration_runs_to_49_on_binary64.
Qed.

Lemma schedule_throws_exactly_past_the_horizon_witness :
  (forall c : Category,
     leb (of_Z 49) (duration (default_distribution c)) = false) /\
  exists s : list UnlockPoint,
    generateUnlockSchedule default_distribution (of_Z 1000000000) = Ok s /\
    map month s = seq 0 49.
Proof.
  assert (H : forall c : Category,
            leb (of_Z 49) (duration (default_distribution c)) = false)
    by (intros c; destruct c; reflexivity).
  split; [exact H|].
  exact (proj2 (schedule_throws_exactly_past_the_horizon default_distribution
                  (of_Z 1000000000)) H).
Defined.

End HorizonCriterionOnBinary64.

(** ** The expanded category *)


(** * Binary64 arithmetic

    The operations of [SpecFloat] on the format of the doubles (53 bits of
    precision, exponents up to 1024), related to the rational numbers the
    doubles hold. *)

(** * Doubles as rationals *)

Lemma bpow_pos (e : Z) : 0 < bpow e.
Proof. unfold bpow. apply Qpower_0_lt. reflexivity. Qed.

Lemma bpow_plus (a b : Z) : bpow (a + b) == bpow a * bpow b.
Proof. unfold bpow. apply Qpower_plus. discriminate. Qed.

Lemma bpow_le (a b : Z) : (a <= b)%Z -> bpow a <= bpow b.
Proof. intros H. unfold bpow. apply Qpower_le_compat_l; [exact H|discriminate]. Qed.

Lemma bpow_lt (a b : Z) : (a < b)%Z -> bpow a < bpow b.
Proof. intros H. unfold bpow. apply Qpower_lt_compat_l; [exact H|reflexivity]. Qed.

Lemma bpow_Z (n : Z) : (0 <= n)%Z -> bpow n == inject_Z (2 ^ n).
Proof.
  intros H. unfold bpow. rewrite Zpower_Qpower by exact H. reflexivity.
Qed.

Lemma bpow_0 : bpow 0 == 1.
Proof. reflexivity. Qed.

Lemma bpow_succ (e : Z) : bpow (e + 1) == 2 * bpow e.
Proof. rewrite bpow_plus. change (bpow 1) with 2. ring. Qed.

Lemma F2Q_shift (m e k : Z) :
  (0 <= k)%Z -> F2Q (m * 2 ^ k) e == F2Q m (e + k).
Proof.
  intros H. unfold F2Q. rewrite bpow_plus, (bpow_Z k H), inject_Z_mult. ring.
Qed.

Lemma F2Q_le (a b e : Z) : F2Q a e <= F2Q b e <-> (a <= b)%Z.
Proof.
  unfold F2Q. pose proof (bpow_pos e) as P. rewrite Zle_Qle. split; intros H.
  - apply Qmult_le_r in H; assumption.
  - apply Qmult_le_r; assumption.
Qed.

Lemma F2Q_lt (a b e : Z) : F2Q a e < F2Q b e <-> (a < b)%Z.
Proof.
  unfold F2Q. pose proof (bpow_pos e) as P. rewrite Zlt_Qlt. split; intros H.
  - apply Qmult_lt_r in H; assumption.
  - apply Qmult_lt_r; assumption.
Qed.

Lemma F2Q_0 (e : Z) : F2Q 0 e == 0.
Proof. unfold F2Q. ring. Qed.

Lemma F2Q_plus (a b e : Z) : F2Q (a + b) e == F2Q a e + F2Q b e.
Proof. unfold F2Q. rewrite inject_Z_plus. ring. Qed.

Lemma F2Q_opp (a e : Z) : F2Q (- a) e == - F2Q a e.
Proof. unfold F2Q. rewrite inject_Z_opp. ring. Qed.

Lemma F2Q_1 (e : Z) : F2Q 1 e == bpow e.
Proof. unfold F2Q. ring. Qed.

(** Comparison at a common exponent below both. *)
Lemma F2Q_align (m e c : Z) :
  (c <= e)%Z -> F2Q m e == F2Q (m * 2 ^ (e - c)) c.
Proof.
  intros H. rewrite F2Q_shift by lia. replace (c + (e - c))%Z with e by lia.
  reflexivity.
Qed.

Lemma F2Q_le_iff (m1 e1 m2 e2 c : Z) :
  (c <= e1)%Z -> (c <= e2)%Z ->
  (F2Q m1 e1 <= F2Q m2 e2 <-> (m1 * 2 ^ (e1 - c) <= m2 * 2 ^ (e2 - c))%Z).
Proof.
  intros H1 H2. rewrite (F2Q_align m1 e1 c H1), (F2Q_align m2 e2 c H2).
  apply F2Q_le.
Qed.

Lemma F2Q_lt_iff (m1 e1 m2 e2 c : Z) :
  (c <= e1)%Z -> (c <= e2)%Z ->
  (F2Q m1 e1 < F2Q m2 e2 <-> (m1 * 2 ^ (e1 - c) < m2 * 2 ^ (e2 - c))%Z).
Proof.
  intros H1 H2. rewrite (F2Q_align m1 e1 c H1), (F2Q_align m2 e2 c H2).
  apply F2Q_lt.
Qed.

(** ** The number of binary digits *)

Lemma digits2_pos_size (p : positive) : digits2_pos p = Pos.size p.
Proof. induction p; simpl; congruence. Qed.

Lemma digits2_pos_bounds (p : positive) :
  (2 ^ (Zpos (digits2_pos p) - 1) <= Zpos p < 2 ^ Zpos (digits2_pos p))%Z.
Proof.
  induction p as [p IH|p IH|]; cbn [digits2_pos].
  - rewrite Pos2Z.inj_succ.
    replace (Z.succ (Zpos (digits2_pos p)) - 1)%Z
      with (Zpos (digits2_pos p) - 1 + 1)%Z by lia.
    unfold Z.succ. rewrite !Z.pow_add_r by lia. lia.
  - rewrite Pos2Z.inj_succ.
    replace (Z.succ (Zpos (digits2_pos p)) - 1)%Z
      with (Zpos (digits2_pos p) - 1 + 1)%Z by lia.
    unfold Z.succ. rewrite !Z.pow_add_r by lia. lia.
  - simpl. lia.
Qed.

Lemma Zdigits2_bounds (m : Z) :
  (0 < m)%Z -> (2 ^ (Zdigits2 m - 1) <= m < 2 ^ Zdigits2 m)%Z.
Proof.
  destruct m as [|p|p]; try lia. intros _. apply digits2_pos_bounds.
Qed.

Lemma Zdigits2_nonneg (m : Z) : (0 <= Zdigits2 m)%Z.
Proof. destruct m; simpl; lia. Qed.

(** The digits are determined by the bounds. *)
Lemma Zdigits2_unique (m d : Z) :
  (2 ^ (d - 1) <= m < 2 ^ d)%Z -> (0 < m)%Z -> Zdigits2 m = d.
Proof.
  intros [H1 H2] Hm. pose proof (Zdigits2_bounds m Hm) as [B1 B2].
  pose proof (Zdigits2_nonneg m) as Hd.
  assert (Hd' : (0 < Zdigits2 m)%Z).
  { destruct m; simpl in *; lia. }
  assert (0 < d)%Z.
  { destruct (Z_lt_le_dec 0 d) as [|Hn]; [assumption|].
    exfalso. assert (2 ^ d <= 2 ^ 0)%Z by (apply Z.pow_le_mono_r; lia).
    simpl in *. lia. }
  destruct (Z_lt_le_dec d (Zdigits2 m)) as [L|L].
  - exfalso.
    assert (2 ^ d <= 2 ^ (Zdigits2 m - 1))%Z by (apply Z.pow_le_mono_r; lia).
    lia.
  - destruct (Z_lt_le_dec (Zdigits2 m) d) as [L'|L']; [|lia].
    exfalso.
    assert (2 ^ Zdigits2 m <= 2 ^ (d - 1))%Z by (apply Z.pow_le_mono_r; lia).
    lia.
Qed.

(** ** Shifting and rounding a mantissa *)

Lemma fexp_eq (x : Z) : fexp 53 1024 x = Z.max (x - 53) (-1074).
Proof. reflexivity. Qed.

Lemma inbu_comp (mrs : shr_record) (u u' : Q) :
  u == u' -> inbu mrs u -> inbu mrs u'.
Proof.
  intros E. unfold inbu. destruct (shr_s mrs); rewrite E; tauto.
Qed.

Lemma inbu_bounds (mrs : shr_record) (u : Q) :
  inbu mrs u -> inject_Z (shr_m mrs) <= u /\ u < inject_Z (shr_m mrs) + 1.
Proof.
  unfold inbu, half_of. destruct (shr_s mrs), (shr_r mrs); intros H; lra.
Qed.

Lemma shr_1_inbu (mrs : shr_record) (u : Q) :
  (0 <= shr_m mrs)%Z -> inbu mrs u ->
  inbu (shr_1 mrs) (u * (1 # 2)) /\ (0 <= shr_m (shr_1 mrs))%Z.
Proof.
  destruct mrs as [m r s]. cbn [shr_m]. intros Hm.
  destruct m as [|[p|p|]|p]; try lia;
    unfold inbu, half_of; cbn [shr_1 shr_m shr_r shr_s];
    try rewrite (Pos2Z.inj_xI p); try rewrite (Pos2Z.inj_xO p);
    try rewrite inject_Z_plus; try rewrite inject_Z_mult;
    change (inject_Z 2) with 2; change (inject_Z 1) with 1;
    change (inject_Z 0) with 0;
    destruct r, s; cbn [orb]; intros H; (split; [lra|lia]).
Qed.

Lemma iter_shr_1_inbu (n : positive) :
  forall (mrs : shr_record) (u : Q),
    (0 <= shr_m mrs)%Z -> inbu mrs u ->
    inbu (iter_pos shr_1 n mrs) (u * bpow (- Zpos n)) /\
    (0 <= shr_m (iter_pos shr_1 n mrs))%Z.
Proof.
  induction n as [n IH|n IH|]; intros mrs u Hm H; cbn [iter_pos].
  - destruct (shr_1_inbu mrs u Hm H) as [H1 M1].
    destruct (IH _ _ M1 H1) as [H2 M2].
    destruct (IH _ _ M2 H2) as [H3 M3].
    split; [|exact M3].
    eapply inbu_comp; [|exact H3].
    replace (- Zpos n~1)%Z with (- 1 + (- Zpos n + - Zpos n))%Z by lia.
    rewrite !bpow_plus. change (bpow (-1)) with (1 # 2). ring.
  - destruct (IH _ _ Hm H) as [H2 M2].
    destruct (IH _ _ M2 H2) as [H3 M3].
    split; [|exact M3].
    eapply inbu_comp; [|exact H3].
    replace (- Zpos n~0)%Z with (- Zpos n + - Zpos n)%Z by lia.
    rewrite !bpow_plus. ring.
  - destruct (shr_1_inbu mrs u Hm H) as [H1 M1].
    split; [|exact M1].
    eapply inbu_comp; [|exact H1].
    change (bpow (-1)) with (1 # 2). reflexivity.
Qed.

Lemma shr_inb (mrs : shr_record) (e n : Z) (v : Q) :
  (0 <= shr_m mrs)%Z -> inb mrs e v ->
  inb (fst (shr mrs e n)) (snd (shr mrs e n)) v /\
  (0 <= shr_m (fst (shr mrs e n)))%Z /\
  snd (shr mrs e n) = (e + Z.max n 0)%Z.
Proof.
  intros Hm H. unfold shr. destruct n as [|p|p]; cbn [fst snd].
  - rewrite Z.add_0_r. auto.
  - destruct (iter_shr_1_inbu p mrs _ Hm H) as [H1 M1].
    split; [|split; [exact M1|lia]].
    unfold inb. eapply inbu_comp; [|exact H1].
    replace (- (e + Zpos p))%Z with (- e + - Zpos p)%Z by lia.
    rewrite bpow_plus. ring.
  - split; [exact H|]. split; [exact Hm|lia].
Qed.

(** In terms of the number itself. *)
Lemma inb_bounds (mrs : shr_record) (e : Z) (v : Q) :
  inb mrs e v -> F2Q (shr_m mrs) e <= v /\ v < F2Q (shr_m mrs + 1) e.
Proof.
  unfold inb. intros H. apply inbu_bounds in H. destruct H as [H1 H2].
  pose proof (bpow_pos e) as P.
  assert (E : bpow (- e) * bpow e == 1).
  { rewrite <- bpow_plus. replace (- e + e)%Z with 0%Z by lia. reflexivity. }
  unfold F2Q. rewrite inject_Z_plus. change (inject_Z 1) with 1.
  split.
  - apply Qmult_le_r with (z := bpow e) in H1; [|exact P].
    setoid_replace (v * bpow (- e) * bpow e) with v in H1
      by (rewrite <- Qmult_assoc, E; ring).
    exact H1.
  - apply Qmult_lt_r with (z := bpow e) in H2; [|exact P].
    setoid_replace (v * bpow (- e) * bpow e) with v in H2
      by (rewrite <- Qmult_assoc, E; ring).
    exact H2.
Qed.

Lemma Zdigits2_le_53 (m : Z) : (0 <= m < 2 ^ 53)%Z -> (Zdigits2 m <= 53)%Z.
Proof.
  intros [H0 H]. destruct (Z.eq_dec m 0) as [->|Hn]; [simpl; lia|].
  pose proof (Zdigits2_bounds m ltac:(lia)) as [B _].
  destruct (Z_lt_le_dec 53 (Zdigits2 m)) as [L|L]; [|exact L].
  exfalso.
  assert (2 ^ 53 <= 2 ^ (Zdigits2 m - 1))%Z by (apply Z.pow_le_mono_r; lia).
  lia.
Qed.

Lemma inb_loc_choice (mrs : shr_record) (e : Z) (v : Q) :
  inb mrs e v ->
  let m' := shr_m mrs in
  let m1 := round_nearest_even m' (loc_of_shr_record mrs) in
  (m1 = m' /\ 2 * v <= F2Q (2 * m' + 1) e) \/
  (m1 = (m' + 1)%Z /\ F2Q (2 * m' + 1) e <= 2 * v).
Proof.
  unfold inb. intros H. cbv zeta.
  pose proof (bpow_pos e) as P.
  assert (E : bpow (- e) * bpow e == 1).
  { rewrite <- bpow_plus. replace (- e + e)%Z with 0%Z by lia. reflexivity. }
  set (u := v * bpow (- e)) in *.
  assert (Hv : v == u * bpow e).
  { unfold u. rewrite <- Qmult_assoc, E. ring. }
  assert (K : forall m1,
    (m1 = shr_m mrs /\ 2 * u <= inject_Z (2 * shr_m mrs + 1)) \/
    (m1 = (shr_m mrs + 1)%Z /\ inject_Z (2 * shr_m mrs + 1) <= 2 * u) ->
    (m1 = shr_m mrs /\ 2 * v <= F2Q (2 * shr_m mrs + 1) e) \/
    (m1 = (shr_m mrs + 1)%Z /\ F2Q (2 * shr_m mrs + 1) e <= 2 * v)).
  { intros m1 [[A B]|[A B]]; [left|right]; (split; [exact A|]);
      unfold F2Q; rewrite Hv.
    - setoid_replace (2 * (u * bpow e)) with (2 * u * bpow e) by ring.
      apply Qmult_le_r; assumption.
    - setoid_replace (2 * (u * bpow e)) with (2 * u * bpow e) by ring.
      apply Qmult_le_r; assumption. }
  apply K. clear K Hv.
  rewrite inject_Z_plus, inject_Z_mult.
  change (inject_Z 2) with 2. change (inject_Z 1) with 1.
  destruct mrs as [m r s]. unfold inbu, half_of in H.
  cbn [shr_m shr_r shr_s] in *.
  destruct r, s; cbn [loc_of_shr_record round_nearest_even].
  - right. split; [reflexivity|lra].
  - destruct (Z.even m); [left|right]; (split; [reflexivity|lra]).
  - left. split; [reflexivity|lra].
  - left. split; [reflexivity|lra].
Qed.

Lemma shr_record_of_loc_m (m : Z) (l : location) :
  shr_m (shr_record_of_loc m l) = m.
Proof. destruct l as [|[| |]]; reflexivity. Qed.

(** [binary_round_aux] rounds to nearest. *)
Lemma binary_round_aux_rounding (sx : bool) (mx ex : Z) (lx : location)
    (v : Q) :
  (0 <= mx)%Z -> aligned mx ex -> inb (shr_record_of_loc mx lx) ex v ->
  exists m' e' m1 : Z,
    rounding v m' e' m1 /\
    binary_round_aux 53 1024 sx mx ex lx = pack sx m1 e'.
Proof.
  intros Hmx Hal Hin. unfold binary_round_aux, shr_fexp.
  set (n := (fexp 53 1024 (Zdigits2 mx + ex) - ex)%Z).
  assert (Hn : (0 <= n)%Z) by (unfold aligned in Hal; lia).
  assert (Hm0 : (0 <= shr_m (shr_record_of_loc mx lx))%Z)
    by (rewrite shr_record_of_loc_m; exact Hmx).
  destruct (shr_inb _ ex n v Hm0 Hin) as (Hin' & Hm' & He').
  destruct (shr (shr_record_of_loc mx lx) ex n) as [mrs' e'] eqn:Es.
  cbn [fst snd] in *.
  assert (Ee : e' = fexp 53 1024 (Zdigits2 mx + ex)) by (unfold n in *; lia).
  set (m' := shr_m mrs') in *.
  destruct (inb_bounds _ _ _ Hin') as [Lo Hi]. fold m' in Lo, Hi.
  pose proof (inb_bounds _ _ _ Hin) as [Lo0 Hi0].
  rewrite shr_record_of_loc_m in Lo0, Hi0.
  rewrite fexp_eq in Ee.
  (* the size of v *)
  assert (Hup : v < bpow (53 + e')).
  { destruct (Z.eq_dec mx 0) as [->|Hne].
    - simpl in Hi0. rewrite F2Q_1 in Hi0.
      unfold aligned in Hal. rewrite fexp_eq in Hal. simpl in Hal, Ee.
      eapply Qlt_le_trans; [exact Hi0|]. apply bpow_le. lia.
    - pose proof (Zdigits2_bounds mx ltac:(lia)) as [_ B].
      eapply Qlt_le_trans; [exact Hi0|].
      apply Qle_trans with (F2Q (2 ^ Zdigits2 mx) ex).
      + apply F2Q_le. lia.
      + pose proof (Zdigits2_nonneg mx).
        rewrite <- (Z.mul_1_l (2 ^ Zdigits2 mx)), F2Q_shift, F2Q_1 by lia.
        apply bpow_le. lia. }
  assert (Hrange : (0 <= m' < 2 ^ 53)%Z).
  { split; [exact Hm'|].
    assert (F2Q m' e' < F2Q (2 ^ 53) e') as L.
    { eapply Qle_lt_trans; [exact Lo|]. eapply Qlt_le_trans; [exact Hup|].
      rewrite <- (Z.mul_1_l (2 ^ 53)), F2Q_shift, F2Q_1 by lia.
      apply bpow_le. lia. }
    apply F2Q_lt in L. exact L. }
  assert (Hnormal : (-1074 < e')%Z -> (2 ^ 52 <= m')%Z).
  { intros He. destruct (Z.eq_dec mx 0) as [->|Hne].
    - exfalso. unfold aligned in Hal. rewrite fexp_eq in Hal.
      simpl in Hal, Ee. lia.
    - pose proof (Zdigits2_bounds mx ltac:(lia)) as [B _].
      pose proof (Zdigits2_nonneg mx). 
      assert (Hd : (0 < Zdigits2 mx)%Z) by (destruct mx; simpl in *; lia).
      assert (F2Q (2 ^ 52) e' < F2Q (m' + 1) e') as L.
      { eapply Qle_lt_trans; [|exact Hi].
        eapply Qle_trans; [|exact Lo0].
        apply Qle_trans with (F2Q (2 ^ (Zdigits2 mx - 1)) ex).
        - rewrite <- (Z.mul_1_l (2 ^ 52)), F2Q_shift, F2Q_1 by lia.
          rewrite <- (Z.mul_1_l (2 ^ (Zdigits2 mx - 1))), F2Q_shift, F2Q_1
            by lia.
          apply bpow_le. lia.
        - apply F2Q_le. lia. }
      apply F2Q_lt in L. lia. }
  pose proof (inb_loc_choice _ _ _ Hin') as Hch. cbv zeta in Hch.
  fold m' in Hch.
  set (m1 := round_nearest_even m' (loc_of_shr_record mrs')) in *.
  exists m', e', m1. split.
  { constructor; try assumption. lia. }
  assert (Hm1 : (m1 = m' \/ m1 = m' + 1)%Z) by (destruct Hch as [[-> _]|[-> _]]; auto).
  assert (Hm1r : (0 <= m1 <= 2 ^ 53)%Z) by lia.
  unfold pack.
  destruct (Z.eq_dec m1 (2 ^ 53)) as [E53|N53].
  - rewrite E53.
    replace (fexp 53 1024 (Zdigits2 (2 ^ 53) + e') - e')%Z with 1%Z
      by (rewrite fexp_eq; change (Zdigits2 (2 ^ 53)) with 54%Z; lia).
    cbn. reflexivity.
  - assert (Hlt : (0 <= m1 < 2 ^ 53)%Z) by lia.
    pose proof (Zdigits2_le_53 m1 Hlt) as D.
    assert (Hn2 : (fexp 53 1024 (Zdigits2 m1 + e') - e' <= 0)%Z)
      by (rewrite fexp_eq; lia).
    unfold shr.
    destruct (fexp 53 1024 (Zdigits2 m1 + e') - e')%Z as [|q|q] eqn:En2;
      try lia; cbn [shr_record_of_loc shr_m];
      destruct m1 as [|p|p]; try lia; try reflexivity;
      (destruct (Z.pos p =? 2 ^ 53)%Z eqn:Eb;
       [apply Z.eqb_eq in Eb; contradiction|reflexivity]).
Qed.

(** ** Doubles in normal form *)

Lemma bounded_canon (m : positive) (e : Z) :
  bounded 53 1024 m e = true <-> canon (Zpos m) e.
Proof.
  unfold bounded, canonical_mantissa, canon. rewrite andb_true_iff.
  rewrite Z.eqb_eq, Z.leb_le, fexp_eq.
  change (1024 - 53)%Z with 971%Z.
  pose proof (digits2_pos_bounds m) as [B1 B2].
  set (d := Zpos (digits2_pos m)) in *.
  assert (Hd : (0 < d)%Z) by (unfold d; lia).
  split.
  - intros [E L].
    assert (D : (d <= 53)%Z) by lia.
    assert (M : (Zpos m < 2 ^ 53)%Z).
    { eapply Z.lt_le_trans; [exact B2|]. apply Z.pow_le_mono_r; lia. }
    repeat split; try lia.
    intros He. assert (d = 53%Z) by lia. subst d.
    replace (53 - 1)%Z with 52%Z in B1 by lia. rewrite H in B1. exact B1.
  - intros ([E1 E2] & [M1 M2] & Hn). split; [|exact E2].
    assert (D : (d <= 53)%Z) by (apply (Zdigits2_le_53 (Zpos m)); lia).
    destruct (Z.eq_dec e (-1074)) as [->|Hne]; [lia|].
    assert (d = 53%Z).
    { apply (Zdigits2_unique (Zpos m) 53); [|lia]. split; [apply Hn; lia|lia]. }
    lia.
Qed.

Lemma is_double_finite (s : bool) (m : positive) (e : Z) :
  is_double (S754_finite s m e) <-> canon (Zpos m) e.
Proof. apply bounded_canon. Qed.

(** Between two neighbours of the format there is no double. *)
Lemma grid_below (mf ef m' e' : Z) :
  (0 < mf < 2 ^ 53)%Z -> (-1074 <= ef)%Z ->
  (0 <= m')%Z -> ((-1074 < e')%Z -> (2 ^ 52 <= m')%Z) -> (-1074 <= e')%Z ->
  F2Q mf ef < F2Q (m' + 1) e' -> F2Q mf ef <= F2Q m' e'.
Proof.
  intros Hmf Hef Hm' Hn He' H.
  destruct (Z_lt_le_dec ef e') as [L|L].
  - rewrite (F2Q_align m' e' ef) by lia. apply F2Q_le.
    assert (2 ^ 1 <= 2 ^ (e' - ef))%Z by (apply Z.pow_le_mono_r; lia).
    assert (2 ^ 52 <= m')%Z by (apply Hn; lia).
    change (2 ^ 1)%Z with 2%Z in *. nia.
  - rewrite (F2Q_align mf ef e') in * by lia.
    apply F2Q_lt in H. apply F2Q_le. lia.
Qed.

Lemma grid_above (mf ef m' e' : Z) :
  (0 < mf < 2 ^ 53)%Z -> (-1074 <= ef)%Z ->
  (0 <= m')%Z -> ((-1074 < e')%Z -> (2 ^ 52 <= m')%Z) -> (-1074 <= e')%Z ->
  F2Q m' e' < F2Q mf ef -> F2Q (m' + 1) e' <= F2Q mf ef.
Proof.
  intros Hmf Hef Hm' Hn He' H.
  destruct (Z_lt_le_dec ef e') as [L|L].
  - exfalso. rewrite (F2Q_align m' e' ef) in H by lia. apply F2Q_lt in H.
    assert (2 ^ 1 <= 2 ^ (e' - ef))%Z by (apply Z.pow_le_mono_r; lia).
    assert (2 ^ 52 <= m')%Z by (apply Hn; lia).
    change (2 ^ 1)%Z with 2%Z in *. nia.
  - rewrite (F2Q_align mf ef e') in * by lia.
    apply F2Q_lt in H. apply F2Q_le. lia.
Qed.

Lemma canon_lt (m1 e1 m2 e2 : Z) :
  canon m1 e1 -> canon m2 e2 -> (e1 < e2)%Z -> F2Q m1 e1 < F2Q m2 e2.
Proof.
  intros (E1 & M1 & N1) (E2 & M2 & N2) L.
  rewrite (F2Q_align m2 e2 e1) by lia. apply F2Q_lt.
  assert (2 ^ 1 <= 2 ^ (e2 - e1))%Z by (apply Z.pow_le_mono_r; lia).
  assert (2 ^ 52 <= m2)%Z by (apply N2; lia).
  change (2 ^ 1)%Z with 2%Z in *. nia.
Qed.

Lemma F2Q_pos (m e : Z) : (0 < m)%Z -> 0 < F2Q m e.
Proof.
  intros H. rewrite <- (F2Q_0 e). apply F2Q_lt. exact H.
Qed.

Lemma F2Q_nonneg (m e : Z) : (0 <= m)%Z -> 0 <= F2Q m e.
Proof.
  intros H. rewrite <- (F2Q_0 e). apply F2Q_le. exact H.
Qed.

(** The order of the doubles is the order of the rationals they hold. *)
Lemma SFcompare_B2Q (x y : B64.t) :
  is_double x -> is_double y ->
  B64_is_number x = true -> B64_is_number y = true ->
  SFcompare x y = Some (B2Q x ?= B2Q y).
Proof.
  intros Vx Vy Fx Fy.
  destruct x as [sx|sx| |sx mx ex]; try discriminate;
    destruct y as [sy|sy| |sy my ey]; try discriminate.
  - reflexivity.
  - cbn [SFcompare B2Q]. f_equal. symmetry.
    destruct sy; cbn [cond_Zopp].
    + apply (proj1 (Qgt_alt _ _)). rewrite F2Q_opp.
      pose proof (F2Q_pos (Zpos my) ey ltac:(lia)). lra.
    + apply (proj1 (Qlt_alt _ _)). apply F2Q_pos. lia.
  - cbn [SFcompare B2Q]. f_equal. symmetry.
    destruct sx; cbn [cond_Zopp].
    + apply (proj1 (Qlt_alt _ _)). rewrite F2Q_opp.
      pose proof (F2Q_pos (Zpos mx) ex ltac:(lia)). lra.
    + apply (proj1 (Qgt_alt _ _)). apply F2Q_pos. lia.
  - apply is_double_finite in Vx, Vy.
    pose proof (F2Q_pos (Zpos mx) ex ltac:(lia)) as Px.
    pose proof (F2Q_pos (Zpos my) ey ltac:(lia)) as Py.
    cbn [SFcompare B2Q]. f_equal. symmetry.
    destruct sx, sy; cbn [cond_Zopp]; rewrite ?F2Q_opp.
    + (* both negative *)
      destruct (Z.compare_spec ex ey) as [E|L|G].
      * subst ey. rewrite Pos.compare_cont_spec. cbn [Pos.switch_Eq].
        destruct (Pos.compare_spec mx my) as [E|L|G]; cbn [CompOpp].
        -- subst. apply (proj1 (Qeq_alt _ _)). reflexivity.
        -- apply (proj1 (Qgt_alt _ _)).
           assert (F2Q (Zpos mx) ex < F2Q (Zpos my) ex) by (apply F2Q_lt; lia).
           lra.
        -- apply (proj1 (Qlt_alt _ _)).
           assert (F2Q (Zpos my) ex < F2Q (Zpos mx) ex) by (apply F2Q_lt; lia).
           lra.
      * apply (proj1 (Qgt_alt _ _)). pose proof (canon_lt _ _ _ _ Vx Vy L). lra.
      * apply (proj1 (Qlt_alt _ _)). pose proof (canon_lt _ _ _ _ Vy Vx ltac:(lia)). lra.
    + apply (proj1 (Qlt_alt _ _)). lra.
    + apply (proj1 (Qgt_alt _ _)). lra.
    + destruct (Z.compare_spec ex ey) as [E|L|G].
      * subst ey. rewrite Pos.compare_cont_spec. cbn [Pos.switch_Eq].
        destruct (Pos.compare_spec mx my) as [E|L|G].
        -- subst. apply (proj1 (Qeq_alt _ _)). reflexivity.
        -- apply (proj1 (Qlt_alt _ _)). apply F2Q_lt. lia.
        -- apply (proj1 (Qgt_alt _ _)). apply F2Q_lt. lia.
      * apply (proj1 (Qlt_alt _ _)). exact (canon_lt _ _ _ _ Vx Vy L).
      * apply (proj1 (Qgt_alt _ _)). exact (canon_lt _ _ _ _ Vy Vx ltac:(lia)).
Qed.

Lemma SFleb_B2Q (x y : B64.t) :
  is_double x -> is_double y ->
  B64_is_number x = true -> B64_is_number y = true ->
  (SFleb x y = true <-> B2Q x <= B2Q y).
Proof.
  intros Vx Vy Fx Fy. unfold SFleb. rewrite (SFcompare_B2Q x y Vx Vy Fx Fy).
  destruct (B2Q x ?= B2Q y) eqn:C.
  - apply (proj2 (Qeq_alt _ _)) in C. split; [intros _; lra|reflexivity].
  - apply (proj2 (Qlt_alt _ _)) in C. split; [intros _; lra|reflexivity].
  - apply (proj2 (Qgt_alt _ _)) in C. split; [discriminate|lra].
Qed.


Lemma SFeqb_B2Q (x y : B64.t) :
  is_double x -> is_double y ->
  B64_is_number x = true -> B64_is_number y = true ->
  (SFeqb x y = true <-> B2Q x == B2Q y).
Proof.
  intros Vx Vy Fx Fy. unfold SFeqb. rewrite (SFcompare_B2Q x y Vx Vy Fx Fy).
  destruct (B2Q x ?= B2Q y) eqn:C.
  - apply (proj2 (Qeq_alt _ _)) in C. split; [intros _; lra|reflexivity].
  - apply (proj2 (Qlt_alt _ _)) in C. split; [discriminate|lra].
  - apply (proj2 (Qgt_alt _ _)) in C. split; [discriminate|lra].
Qed.

(** ** What a rounding gives *)

Lemma rounding_m1 (v : Q) (m' e' m1 : Z) :
  rounding v m' e' m1 -> (m1 = m' \/ m1 = m' + 1)%Z.
Proof. intros [_ _ _ _ _ [[-> _]|[-> _]]]; auto. Qed.

Lemma pack_cases (sx : bool) (m1 e' : Z) :
  (0 <= m1 <= 2 ^ 53)%Z -> ((-1074 < e')%Z -> (2 ^ 52 <= m1)%Z) ->
  (m1 = 0%Z /\ pack sx m1 e' = S754_zero sx) \/
  (exists (p : positive) (e : Z),
     pack sx m1 e' = S754_finite sx p e /\ (e <= 971)%Z /\
     F2Q (Zpos p) e == F2Q m1 e' /\ (0 < m1)%Z /\
     (e' <= e)%Z /\
     ((m1 < 2 ^ 53)%Z -> Zpos p = m1 /\ e = e') /\
     ((m1 = 2 ^ 53)%Z -> Zpos p = (2 ^ 52)%Z /\ e = (e' + 1)%Z)) \/
  (pack sx m1 e' = S754_infinity sx /\ (0 < m1)%Z /\
   bpow 1024 <= F2Q (2 * m1) e').
Proof.
  intros Hm Hn. unfold pack. destruct m1 as [|p|p]; [left; auto| |lia].
  right. destruct (Z.eqb_spec (Zpos p) (2 ^ 53)) as [E|N].
  - destruct (Z.leb_spec (e' + 1) 971) as [L|L].
    + left. exists 4503599627370496%positive, (e' + 1)%Z.
      repeat split; try lia.
      * rewrite E. change (2 ^ 53)%Z with (2 ^ 52 * 2 ^ 1)%Z.
        rewrite F2Q_shift by lia. reflexivity.
    + right. repeat split; try lia.
      rewrite E. change (2 * 2 ^ 53)%Z with (1 * 2 ^ 54)%Z.
      rewrite F2Q_shift, F2Q_1 by lia. apply bpow_le. lia.
  - destruct (Z.leb_spec e' 971) as [L|L].
    + left. exists p, e'. repeat split; try lia.
    + right. repeat split; try lia.
      apply Qle_trans with (F2Q 1 (e' + 52)).
      * rewrite F2Q_1. apply bpow_le. lia.
      * rewrite <- F2Q_shift by lia. apply F2Q_le.
        assert (2 ^ 52 <= Zpos p)%Z by (apply Hn; lia). lia.
Qed.

(** ** The sign *)

Lemma SFcompare_opp (x y : B64.t) :
  SFcompare (SFopp x) (SFopp y) = SFcompare y x.
Proof.
  destruct x as [sx|sx| |sx mx ex], y as [sy|sy| |sy my ey];
    try reflexivity;
    try (destruct sx; reflexivity); try (destruct sy; reflexivity);
    try (destruct sx, sy; reflexivity).
  cbn [SFopp SFcompare].
  destruct sx, sy; cbn [negb]; try reflexivity.
  - rewrite (Z.compare_antisym ex ey).
    destruct (ex ?= ey)%Z; cbn [CompOpp]; try reflexivity.
    rewrite !Pos.compare_cont_spec. cbn [Pos.switch_Eq].
    rewrite (Pos.compare_antisym mx my).
    destruct (mx ?= my)%positive; reflexivity.
  - rewrite (Z.compare_antisym ex ey).
    destruct (ex ?= ey)%Z; cbn [CompOpp]; try reflexivity.
    rewrite !Pos.compare_cont_spec. cbn [Pos.switch_Eq].
    rewrite (Pos.compare_antisym mx my).
    destruct (mx ?= my)%positive; reflexivity.
Qed.

Lemma SFleb_opp (x y : B64.t) : SFleb (SFopp x) (SFopp y) = SFleb y x.
Proof. unfold SFleb. rewrite SFcompare_opp. reflexivity. Qed.

Lemma SFopp_involutive (x : B64.t) : SFopp (SFopp x) = x.
Proof. destruct x as [s|s| |s m e]; cbn; rewrite ?negb_involutive; reflexivity. Qed.

Lemma B2Q_opp (x : B64.t) : B2Q (SFopp x) == - B2Q x.
Proof.
  destruct x as [s|s| |s m e]; cbn [SFopp B2Q]; try reflexivity.
  destruct s; cbn [negb cond_Zopp].
  - change (Z.pos m) with (- Z.neg m)%Z. rewrite F2Q_opp. 
    change (- Z.neg m)%Z with (Z.pos m).
    change (Z.neg m) with (- Z.pos m)%Z. rewrite F2Q_opp. ring.
  - rewrite F2Q_opp. reflexivity.
Qed.

Lemma is_double_opp (x : B64.t) : is_double x -> is_double (SFopp x).
Proof. destruct x; exact (fun H => H). Qed.

Lemma is_number_opp (x : B64.t) :
  B64_is_number (SFopp x) = B64_is_number x.
Proof. destruct x; reflexivity. Qed.

Lemma pack_opp (sx : bool) (m1 e' : Z) :
  pack (negb sx) m1 e' = SFopp (pack sx m1 e').
Proof.
  unfold pack. destruct m1 as [|p|p]; try reflexivity.
  destruct (Z.pos p =? 2 ^ 53)%Z.
  - destruct (e' + 1 <=? 971)%Z; reflexivity.
  - destruct (e' <=? 971)%Z; reflexivity.
Qed.

(** ** Faithful rounding *)

Lemma rounding_bounds (v : Q) (m' e' m1 : Z) :
  rounding v m' e' m1 ->
  (0 <= m1 <= 2 ^ 53)%Z /\ ((-1074 < e')%Z -> (2 ^ 52 <= m1)%Z) /\ 0 <= v.
Proof.
  intros R. pose proof (rounding_m1 _ _ _ _ R) as H.
  destruct R as [Lo Hi Rg Em Nm Ch].
  split; [lia|]. split.
  - intros He. specialize (Nm He). lia.
  - eapply Qle_trans; [|exact Lo]. apply F2Q_nonneg. lia.
Qed.

Lemma rounding_pack_double (v : Q) (m' e' m1 : Z) (sx : bool) :
  rounding v m' e' m1 -> is_double (pack sx m1 e').
Proof.
  intros R. destruct (rounding_bounds _ _ _ _ R) as (B & N & _).
  pose proof (rnd_emin _ _ _ _ R) as Em.
  destruct (pack_cases sx m1 e' B N) as [[_ ->]|[(p & e & -> & L & _ & P & Le & C1 & C2)|[-> _]]];
    try reflexivity.
  apply is_double_finite.
  destruct (Z.eq_dec m1 (2 ^ 53)) as [E|NE].
  - destruct (C2 E) as [-> ->]. unfold canon. repeat split; lia.
  - destruct (C1 ltac:(lia)) as [-> ->]. unfold canon.
    repeat split; try lia. 
Qed.

Lemma SFleb_finite_inf (f : B64.t) :
  B64_is_number f = true -> SFleb f (S754_infinity false) = true.
Proof. destruct f as [s|s| |s m e]; try discriminate; reflexivity. Qed.

Lemma SFleb_inf_finite (f : B64.t) :
  B64_is_number f = true -> SFleb (S754_infinity true) f = true.
Proof. destruct f as [s|s| |s m e]; try discriminate; reflexivity. Qed.

Lemma double_below_overflow (f : B64.t) :
  is_double f -> B64_is_number f = true -> B2Q f < bpow 1024.
Proof.
  intros V F. destruct f as [s|s| |s m e]; try discriminate.
  - apply bpow_pos.
  - apply is_double_finite in V. destruct V as (E & M & _).
    cbn [B2Q]. apply Qle_lt_trans with (F2Q (Zpos m) e).
    + destruct s; cbn [cond_Zopp]; [|apply Qle_refl].
      apply F2Q_le. lia.
    + apply Qlt_le_trans with (F2Q (2 ^ 53) e).
      * apply F2Q_lt. lia.
      * rewrite <- (Z.mul_1_l (2 ^ 53)), F2Q_shift, F2Q_1 by lia.
        apply bpow_le. lia.
Qed.

(** The values of a double: its mantissa and exponent, as integers in
    normal form, when it is above 0. *)
Lemma double_positive (f : B64.t) :
  is_double f -> B64_is_number f = true -> 0 < B2Q f ->
  exists (m : positive) (e : Z),
    f = S754_finite false m e /\ canon (Zpos m) e.
Proof.
  intros V F P. destruct f as [s|s| |s m e]; try discriminate.
  apply is_double_finite in V. destruct s.
  - exfalso. cbn [B2Q cond_Zopp] in P. rewrite F2Q_opp in P.
    pose proof (F2Q_pos (Zpos m) e ltac:(lia)). lra.
  - exists m, e. auto.
Qed.

Lemma pack_false_below (v : Q) (m' e' m1 : Z) (f : B64.t) :
  rounding v m' e' m1 ->
  is_double f -> B64_is_number f = true -> B2Q f <= v ->
  SFleb f (pack false m1 e') = true.
Proof.
  intros R V F Le.
  pose proof (rounding_pack_double v m' e' m1 false R) as Vp.
  destruct (rounding_bounds _ _ _ _ R) as (B & N & Pv).
  pose proof (rounding_m1 _ _ _ _ R) as M1.
  destruct R as [Lo Hi Rg Em Nm Ch].
  destruct (pack_cases false m1 e' B N)
    as [[Z0 E]|[(p & e & E & L & Q1 & P1 & _)|[E _]]];
    rewrite E in *.
  - apply SFleb_B2Q; try assumption; try reflexivity.
    cbn [B2Q]. destruct (Qlt_le_dec 0 (B2Q f)) as [Pf|Nf]; [|exact Nf].
    exfalso. destruct (double_positive f V F Pf) as (mf & ef & -> & C).
    destruct C as (E1 & M & _). cbn [B2Q cond_Zopp] in *.
    assert (m' = 0%Z) by lia. subst m'.
    assert (F2Q (Zpos mf) ef <= F2Q 0 e').
    { apply grid_below; try lia. eapply Qle_lt_trans; [exact Le|exact Hi]. }
    rewrite F2Q_0 in H. lra.
  - apply SFleb_B2Q; try assumption; try reflexivity.
    cbn [B2Q cond_Zopp]. rewrite Q1.
    destruct (Qlt_le_dec 0 (B2Q f)) as [Pf|Nf].
    + destruct (double_positive f V F Pf) as (mf & ef & -> & C).
      destruct C as (E1 & M & _). cbn [B2Q cond_Zopp] in *.
      apply Qle_trans with (F2Q m' e').
      * apply grid_below; try lia.
        eapply Qle_lt_trans; [exact Le|exact Hi].
      * apply F2Q_le. lia.
    + eapply Qle_trans; [exact Nf|]. apply F2Q_nonneg. lia.
  - apply SFleb_finite_inf. exact F.
Qed.

Lemma pack_false_above (v : Q) (m' e' m1 : Z) (f : B64.t) :
  rounding v m' e' m1 ->
  is_double f -> B64_is_number f = true -> v <= B2Q f ->
  SFleb (pack false m1 e') f = true.
Proof.
  intros R V F Le.
  pose proof (rounding_pack_double v m' e' m1 false R) as Vp.
  destruct (rounding_bounds _ _ _ _ R) as (B & N & Pv).
  pose proof (rounding_m1 _ _ _ _ R) as M1.
  pose proof (double_below_overflow f V F) as Of.
  destruct R as [Lo Hi Rg Em Nm Ch].
  (* the value of the result is at most that of f *)
  assert (K : F2Q m1 e' <= B2Q f).
  { destruct Ch as [[-> _]|[-> C]].
    - lra.
    - assert (Lt : F2Q m' e' < v).
      { apply Qlt_le_trans with (F2Q (2 * m' + 1) (e' - 1)).
        - rewrite (F2Q_align m' e' (e' - 1)) by lia. apply F2Q_lt.
          replace (e' - (e' - 1))%Z with 1%Z by lia.
          change (2 ^ 1)%Z with 2%Z. lia.
        - unfold F2Q in *. replace e' with (e' - 1 + 1)%Z in C at 1 by lia.
          rewrite bpow_succ in C. lra. }
      assert (Pf : 0 < B2Q f).
      { eapply Qle_lt_trans; [|eapply Qlt_le_trans; [exact Lt|exact Le]].
        apply F2Q_nonneg. lia. }
      destruct (double_positive f V F Pf) as (mf & ef & -> & C').
      destruct C' as (E1 & M & _). cbn [B2Q cond_Zopp] in *.
      apply grid_above; try lia. lra. }
  destruct (pack_cases false m1 e' B N)
    as [[Z0 E]|[(p & e & E & L & Q1 & P1 & _)|[E [_ O]]]];
    rewrite E in *.
  - apply SFleb_B2Q; try assumption; try reflexivity.
    cbn [B2Q]. lra.
  - apply SFleb_B2Q; try assumption; try reflexivity.
    cbn [B2Q cond_Zopp]. rewrite Q1. exact K.
  - exfalso.
    assert (F2Q (2 * m1) e' <= 2 * B2Q f).
    { unfold F2Q in *. rewrite inject_Z_mult. change (inject_Z 2) with 2.
      lra. }
    (* 2 * f < 2^1025, but canonical m1 >= 2^52 and e' > 971 ... *)
    assert (F2Q m1 e' < bpow 1024) by lra.
    assert (F2Q (2 * m1) e' == 2 * F2Q m1 e').
    { unfold F2Q. rewrite inject_Z_mult. change (inject_Z 2) with 2. ring. }
    revert O. unfold pack in E. destruct m1 as [|p|p]; try discriminate.
    destruct (Z.eqb_spec (Zpos p) (2 ^ 53)) as [E53|N53].
    + destruct (Z.leb_spec (e' + 1) 971) as [L|L]; [discriminate|].
      intros _. rewrite E53 in H0.
      rewrite <- (Z.mul_1_l (2 ^ 53)), F2Q_shift, F2Q_1 in H0 by lia.
      assert (bpow 1024 <= bpow (e' + 53)) by (apply bpow_le; lia). lra.
    + destruct (Z.leb_spec e' 971) as [L|L]; [discriminate|].
      intros _. assert (2 ^ 52 <= Zpos p)%Z by (apply N; lia).
      assert (F2Q (2 ^ 52) e' <= F2Q (Zpos p) e') by (apply F2Q_le; lia).
      rewrite <- (Z.mul_1_l (2 ^ 52)), F2Q_shift, F2Q_1 in H3 by lia.
      assert (bpow 1024 <= bpow (e' + 52)) by (apply bpow_le; lia). lra.
Qed.

Lemma pack_not_nan (v : Q) (m' e' m1 : Z) (sx : bool) :
  rounding v m' e' m1 -> pack sx m1 e' <> S754_nan.
Proof.
  intros R. destruct (rounding_bounds _ _ _ _ R) as (B & N & _).
  destruct (pack_cases sx m1 e' B N) as [[_ ->]|[(p & e & -> & _)|[-> _]]];
    discriminate.
Qed.

(** The double [binary_round_aux] built for [v >= 0] and a sign is a
    rounding of [v] with that sign. *)
Lemma pack_faithful (v : Q) (m' e' m1 : Z) (sx : bool) :
  rounding v m' e' m1 ->
  faithful (if sx then - v else v) (pack sx m1 e').
Proof.
  intros R. split; [exact (rounding_pack_double _ _ _ _ sx R)|].
  split; [exact (pack_not_nan _ _ _ _ sx R)|].
  destruct sx.
  - change true with (negb false). rewrite pack_opp. split; intros f V F Le.
    + rewrite <- (SFopp_involutive f), SFleb_opp.
      apply (pack_false_above v m' e' m1); try assumption.
      * apply is_double_opp. exact V.
      * rewrite is_number_opp. exact F.
      * rewrite B2Q_opp. lra.
    + rewrite <- (SFopp_involutive f), SFleb_opp.
      apply (pack_false_below v m' e' m1); try assumption.
      * apply is_double_opp. exact V.
      * rewrite is_number_opp. exact F.
      * rewrite B2Q_opp. lra.
  - split; intros f V F Le.
    + apply (pack_false_below v m' e' m1); assumption.
    + apply (pack_false_above v m' e' m1); assumption.
Qed.

(** ** The operations round faithfully *)

Lemma faithful_comp (v v' : Q) (r : B64.t) :
  v == v' -> faithful v r -> faithful v' r.
Proof.
  intros E (V & N & Lo & Hi). split; [exact V|]. split; [exact N|].
  split; intros f Vf Ff H; [apply Lo|apply Hi]; try assumption;
    rewrite E; exact H.
Qed.

(** A double is the rounding of the number it holds. *)
Lemma faithful_self (x : B64.t) :
  is_double x -> B64_is_number x = true -> faithful (B2Q x) x.
Proof.
  intros V F. split; [exact V|]. split.
  - destruct x; discriminate.
  - split; intros f Vf Ff H; apply SFleb_B2Q; assumption.
Qed.

Lemma faithful_zero (v : Q) (s : bool) : v == 0 -> faithful v (S754_zero s).
Proof.
  intros E. apply (faithful_comp (B2Q (S754_zero s))).
  - symmetry. exact E.
  - apply faithful_self; reflexivity.
Qed.

Lemma inb_exact (m e : Z) (v : Q) :
  v == F2Q m e -> inb (shr_record_of_loc m loc_Exact) e v.
Proof.
  intros E. unfold inb, inbu, half_of. cbn [shr_record_of_loc shr_m shr_r shr_s].
  rewrite E. unfold F2Q. rewrite <- Qmult_assoc, <- bpow_plus.
  replace (e + - e)%Z with 0%Z by lia. rewrite bpow_0. ring.
Qed.

Lemma Zdigits2_shift (m k : Z) :
  (0 < m)%Z -> (0 <= k)%Z -> Zdigits2 (m * 2 ^ k) = (Zdigits2 m + k)%Z.
Proof.
  intros Hm Hk. pose proof (Zdigits2_bounds m Hm) as [B1 B2].
  assert (Hd : (0 < Zdigits2 m)%Z) by (destruct m; simpl in *; lia).
  assert (P : (0 < 2 ^ k)%Z) by (apply Z.pow_pos_nonneg; lia).
  apply Zdigits2_unique; [|nia].
  replace (Zdigits2 m + k - 1)%Z with (Zdigits2 m - 1 + k)%Z by lia.
  rewrite !Z.pow_add_r by lia. nia.
Qed.

Lemma iter_xO (d m : positive) :
  Zpos (Pos.iter xO m d) = (Zpos m * 2 ^ Zpos d)%Z.
Proof.
  induction d as [|d IH] using Pos.peano_ind.
  - simpl. lia.
  - rewrite Pos.iter_succ, Pos2Z.inj_xO, IH, Pos2Z.inj_succ, Z.pow_succ_r by lia.
    lia.
Qed.

Lemma shl_align_spec (mx : positive) (ex ex' : Z) :
  snd (shl_align mx ex ex') = Z.min ex ex' /\
  Zpos (fst (shl_align mx ex ex'))
  = (Zpos mx * 2 ^ (ex - Z.min ex ex'))%Z.
Proof.
  unfold shl_align. destruct (ex' - ex)%Z as [|d|d] eqn:E; cbn [fst snd].
  - replace (Z.min ex ex') with ex by lia. rewrite Z.sub_diag. simpl. lia.
  - replace (Z.min ex ex') with ex by lia. rewrite Z.sub_diag. simpl. lia.
  - replace (Z.min ex ex') with ex' by lia. split; [reflexivity|].
    rewrite iter_xO. f_equal. f_equal. lia.
Qed.

(** [binary_round] rounds [mx * 2^ex]. *)
Lemma binary_round_rounding (sx : bool) (mx : positive) (ex : Z) :
  exists m' e' m1 : Z,
    rounding (F2Q (Zpos mx) ex) m' e' m1 /\
    binary_round 53 1024 sx mx ex = pack sx m1 e'.
Proof.
  unfold binary_round.
  set (t := fexp 53 1024 (Zpos (digits2_pos mx) + ex)).
  destruct (shl_align_spec mx ex t) as [E2 E1].
  destruct (shl_align mx ex t) as [mz ez]. cbn [fst snd] in *.
  apply binary_round_aux_rounding.
  - lia.
  - unfold aligned. rewrite E1, Zdigits2_shift by lia.
    replace (Zdigits2 (Zpos mx) + (ex - Z.min ex t) + ez)%Z
      with (Zpos (digits2_pos mx) + ex)%Z by (cbn [Zdigits2]; lia).
    fold t. lia.
  - apply inb_exact. rewrite E1, F2Q_shift by lia.
    replace (ez + (ex - Z.min ex t))%Z with ex by lia. reflexivity.
Qed.

Lemma binary_normalize_faithful (z e : Z) (s : bool) :
  faithful (F2Q z e) (binary_normalize 53 1024 z e s).
Proof.
  destruct z as [|p|p]; cbn [binary_normalize].
  - apply faithful_zero. apply F2Q_0.
  - destruct (binary_round_rounding false p e) as (m' & e' & m1 & R & ->).
    exact (pack_faithful _ _ _ _ false R).
  - destruct (binary_round_rounding true p e) as (m' & e' & m1 & R & ->).
    apply (faithful_comp (- F2Q (Zpos p) e)).
    + change (Z.neg p) with (- Zpos p)%Z. rewrite F2Q_opp. reflexivity.
    + exact (pack_faithful _ _ _ _ true R).
Qed.

Lemma of_Z_faithful (z : Z) : faithful (inject_Z z) (B64.of_Z z).
Proof.
  apply (faithful_comp (F2Q z 0)).
  - unfold F2Q. rewrite bpow_0. ring.
  - apply binary_normalize_faithful.
Qed.

(** The aligned mantissa of an operand of a sum. *)
Lemma F2Q_shl_align (s : bool) (mx : positive) (ex ez : Z) :
  (ez <= ex)%Z ->
  F2Q (cond_Zopp s (Zpos (fst (shl_align mx ex ez)))) ez
  == F2Q (cond_Zopp s (Zpos mx)) ex.
Proof.
  intros L. destruct (shl_align_spec mx ex ez) as [_ ->].
  replace (Z.min ex ez) with ez by lia.
  destruct s; cbn [cond_Zopp]; rewrite ?F2Q_opp, F2Q_shift by lia;
    replace (ez + (ex - ez))%Z with ex by lia; reflexivity.
Qed.

Lemma SFadd_faithful (x y : B64.t) :
  is_double x -> is_double y ->
  B64_is_number x = true -> B64_is_number y = true ->
  faithful (B2Q x + B2Q y) (SFadd 53 1024 x y).
Proof.
  intros Vx Vy Fx Fy.
  destruct x as [sx|sx| |sx mx ex]; try discriminate;
    destruct y as [sy|sy| |sy my ey]; try discriminate.
  - destruct sx, sy; apply faithful_zero; reflexivity.
  - apply (faithful_comp (B2Q (S754_finite sy my ey))).
    + cbn [B2Q]. ring.
    + apply faithful_self; assumption.
  - apply (faithful_comp (B2Q (S754_finite sx mx ex))).
    + cbn [B2Q]. ring.
    + apply faithful_self; assumption.
  - cbn [SFadd]. eapply faithful_comp; [|apply binary_normalize_faithful].
    rewrite F2Q_plus, !F2Q_shl_align by lia. reflexivity.
Qed.

Lemma SFsub_faithful (x y : B64.t) :
  is_double x -> is_double y ->
  B64_is_number x = true -> B64_is_number y = true ->
  faithful (B2Q x - B2Q y) (SFsub 53 1024 x y).
Proof.
  intros Vx Vy Fx Fy.
  destruct x as [sx|sx| |sx mx ex]; try discriminate;
    destruct y as [sy|sy| |sy my ey]; try discriminate.
  - destruct sx, sy; apply faithful_zero; reflexivity.
  - apply (faithful_comp (B2Q (SFopp (S754_finite sy my ey)))).
    + rewrite B2Q_opp. cbn [B2Q]. ring.
    + apply faithful_self; assumption.
  - apply (faithful_comp (B2Q (S754_finite sx mx ex))).
    + cbn [B2Q]. ring.
    + apply faithful_self; assumption.
  - cbn [SFsub]. eapply faithful_comp; [|apply binary_normalize_faithful].
    unfold Z.sub. rewrite F2Q_plus, F2Q_opp, !F2Q_shl_align by lia.
    cbn [B2Q]. ring.
Qed.

(** The product of two doubles. *)
Lemma SFmul_rounding (sx sy : bool) (mx my : positive) (ex ey : Z) :
  canon (Zpos mx) ex -> canon (Zpos my) ey ->
  exists m' e' m1 : Z,
    rounding (F2Q (Zpos mx) ex * F2Q (Zpos my) ey) m' e' m1 /\
    SFmul 53 1024 (S754_finite sx mx ex) (S754_finite sy my ey)
    = pack (xorb sx sy) m1 e'.
Proof.
  intros (Ex & Mx & Nx) (Ey & My & Ny). cbn [SFmul].
  apply binary_round_aux_rounding.
  - lia.
  - unfold aligned. rewrite fexp_eq.
    destruct (Z.eq_dec ex (-1074)) as [X|X];
      destruct (Z.eq_dec ey (-1074)) as [Y|Y]; try lia.
    + assert (2 ^ 52 <= Zpos my)%Z by (apply Ny; lia).
      assert (D : (53 <= Zdigits2 (Zpos (mx * my)))%Z).
      { destruct (Z_lt_le_dec (Zdigits2 (Zpos (mx * my))) 53) as [L|L];
          [|exact L].
        exfalso.
        pose proof (Zdigits2_bounds (Zpos (mx * my)) ltac:(lia)) as [_ B].
        assert (2 ^ Zdigits2 (Zpos (mx * my)) <= 2 ^ 52)%Z
          by (apply Z.pow_le_mono_r; lia).
        rewrite Pos2Z.inj_mul in *. nia. }
      lia.
    + assert (2 ^ 52 <= Zpos mx)%Z by (apply Nx; lia).
      assert (D : (53 <= Zdigits2 (Zpos (mx * my)))%Z).
      { destruct (Z_lt_le_dec (Zdigits2 (Zpos (mx * my))) 53) as [L|L];
          [|exact L].
        exfalso.
        pose proof (Zdigits2_bounds (Zpos (mx * my)) ltac:(lia)) as [_ B].
        assert (2 ^ Zdigits2 (Zpos (mx * my)) <= 2 ^ 52)%Z
          by (apply Z.pow_le_mono_r; lia).
        rewrite Pos2Z.inj_mul in *. nia. }
      lia.
    + assert (2 ^ 52 <= Zpos mx)%Z by (apply Nx; lia).
      assert (D : (53 <= Zdigits2 (Zpos (mx * my)))%Z).
      { destruct (Z_lt_le_dec (Zdigits2 (Zpos (mx * my))) 53) as [L|L];
          [|exact L].
        exfalso.
        pose proof (Zdigits2_bounds (Zpos (mx * my)) ltac:(lia)) as [_ B].
        assert (2 ^ Zdigits2 (Zpos (mx * my)) <= 2 ^ 52)%Z
          by (apply Z.pow_le_mono_r; lia).
        rewrite Pos2Z.inj_mul in *. nia. }
      lia.
  - apply inb_exact. unfold F2Q. rewrite Pos2Z.inj_mul, inject_Z_mult, bpow_plus.
    ring.
Qed.

Lemma B2Q_sign_mul (sx sy : bool) (a b : Q) :
  (if xorb sx sy then - (a * b) else a * b)
  == (if sx then - a else a) * (if sy then - b else b).
Proof. destruct sx, sy; cbn [xorb]; ring. Qed.

Lemma B2Q_finite (s : bool) (m : positive) (e : Z) :
  B2Q (S754_finite s m e) == (if s then - F2Q (Zpos m) e else F2Q (Zpos m) e).
Proof. cbn [B2Q]. destruct s; cbn [cond_Zopp]; rewrite ?F2Q_opp; reflexivity. Qed.

Lemma SFmul_faithful (x y : B64.t) :
  is_double x -> is_double y ->
  B64_is_number x = true -> B64_is_number y = true ->
  faithful (B2Q x * B2Q y) (SFmul 53 1024 x y).
Proof.
  intros Vx Vy Fx Fy.
  destruct x as [sx|sx| |sx mx ex]; try discriminate;
    destruct y as [sy|sy| |sy my ey]; try discriminate;
    try (apply faithful_zero; cbn [B2Q]; ring).
  apply is_double_finite in Vx, Vy.
  destruct (SFmul_rounding sx sy mx my ex ey Vx Vy)
    as (m' & e' & m1 & R & ->).
  eapply faithful_comp; [|exact (pack_faithful _ _ _ _ (xorb sx sy) R)].
  rewrite !B2Q_finite. apply B2Q_sign_mul.
Qed.

(** ** The quotient *)

(** The location [SFdiv_core_binary] computes from the remainder [r] of a
    division by [m2] places the quotient [q + r / m2]. *)
Lemma new_location_inbu (m2 r q : Z) :
  (0 <= r < m2)%Z ->
  inbu (shr_record_of_loc q (new_location m2 r))
    (inject_Z q + inject_Z r / inject_Z m2).
Proof.
  intros [R0 R1].
  assert (M : 0 < inject_Z m2).
  { change 0 with (inject_Z 0). rewrite <- Zlt_Qlt. lia. }
  set (rho := inject_Z r / inject_Z m2).
  assert (P0 : (0 < r)%Z -> 0 < rho).
  { intros H. unfold rho. apply Qlt_shift_div_l; [exact M|].
    rewrite Qmult_0_l. change 0 with (inject_Z 0). rewrite <- Zlt_Qlt. lia. }
  assert (Z0 : r = 0%Z -> rho == 0).
  { intros ->. unfold rho. unfold Qdiv. change (inject_Z 0) with 0. ring. }
  assert (Lt : (2 * r < m2)%Z -> rho < 1 # 2).
  { intros H. unfold rho. apply Qlt_shift_div_r; [exact M|].
    rewrite Zlt_Qlt, inject_Z_mult in H. change (inject_Z 2) with 2 in H.
    lra. }
  assert (Eq : (2 * r = m2)%Z -> rho == 1 # 2).
  { intros H. unfold rho. rewrite <- H, inject_Z_mult.
    change (inject_Z 2) with 2. field.
    rewrite <- H, inject_Z_mult in M. change (inject_Z 2) with 2 in M.
    intros K. rewrite K in M. lra. }
  assert (Gt : (m2 < 2 * r)%Z -> 1 # 2 < rho).
  { intros H. unfold rho. apply Qlt_shift_div_l; [exact M|].
    rewrite Zlt_Qlt, inject_Z_mult in H. change (inject_Z 2) with 2 in H.
    lra. }
  assert (L1 : rho < 1).
  { unfold rho. apply Qlt_shift_div_r; [exact M|].
    rewrite Zlt_Qlt in R1. lra. }
  clearbody rho.
  unfold new_location, new_location_even, new_location_odd.
  destruct (Z.even m2) eqn:Ev.
  - destruct (Z.eqb_spec r 0) as [E|N].
    + unfold inbu, half_of; cbn. specialize (Z0 E). lra.
    + destruct (Z.compare_spec (2 * r) m2) as [E|L|G];
        unfold inbu, half_of; cbn [shr_record_of_loc shr_m shr_r shr_s].
      * specialize (Eq E). lra.
      * specialize (Lt L). specialize (P0 ltac:(lia)). lra.
      * specialize (Gt G). lra.
  - destruct (Z.eqb_spec r 0) as [E|N].
    + unfold inbu, half_of; cbn. specialize (Z0 E). lra.
    + assert (Od : Z.odd m2 = true) by (rewrite <- Z.negb_even, Ev; reflexivity).
      apply Z.odd_spec in Od. destruct Od as [k Hk].
      destruct (Z.compare_spec (2 * r + 1) m2) as [E|L|G];
        unfold inbu, half_of; cbn [shr_record_of_loc shr_m shr_r shr_s].
      * specialize (Lt ltac:(lia)). specialize (P0 ltac:(lia)). lra.
      * specialize (Lt ltac:(lia)). specialize (P0 ltac:(lia)). lra.
      * specialize (Gt ltac:(lia)). lra.
Qed.

Lemma SFdiv_rounding (sx sy : bool) (mx my : positive) (ex ey : Z) :
  exists m' e' m1 : Z,
    rounding (F2Q (Zpos mx) ex / F2Q (Zpos my) ey) m' e' m1 /\
    SFdiv 53 1024 (S754_finite sx mx ex) (S754_finite sy my ey)
    = pack (xorb sx sy) m1 e'.
Proof.
  cbn [SFdiv]. unfold SFdiv_core_binary.
  set (d1 := Zdigits2 (Zpos mx)). set (d2 := Zdigits2 (Zpos my)).
  set (e' := Z.min (fexp 53 1024 (d1 + ex - (d2 + ey))) (ex - ey)).
  set (s := (ex - ey - e')%Z).
  assert (Hs : (0 <= s)%Z) by (unfold s, e'; lia).
  set (m' := match s with
             | 0%Z => Zpos mx
             | Zpos _ => Z.shiftl (Zpos mx) s
             | Zneg _ => 0%Z
             end).
  assert (Hm' : m' = (Zpos mx * 2 ^ s)%Z).
  { unfold m'. destruct s as [|p|p] eqn:Es; try lia.
    rewrite Z.shiftl_mul_pow2 by lia. reflexivity. }
  clearbody m'.
  pose proof (Z_div_mod m' (Zpos my) ltac:(lia)) as DM.
  destruct (Z.div_eucl m' (Zpos my)) as [q r]. destruct DM as [Eq Hr].
  pose proof (Zdigits2_bounds (Zpos mx) ltac:(lia)) as [Bx1 Bx2].
  pose proof (Zdigits2_bounds (Zpos my) ltac:(lia)) as [By1 By2].
  fold d1 in Bx1, Bx2. fold d2 in By1, By2.
  assert (Hd1 : (0 < d1)%Z) by (unfold d1; simpl; lia).
  assert (Hd2 : (0 < d2)%Z) by (unfold d2; simpl; lia).
  assert (P2s : (0 < 2 ^ s)%Z) by (apply Z.pow_pos_nonneg; lia).
  assert (Hq : (0 <= q)%Z) by nia.
  apply binary_round_aux_rounding.
  - exact Hq.
  - unfold aligned. rewrite fexp_eq.
    destruct (Z_le_gt_dec e' (-1074)) as [L|G]; [lia|].
    assert (K : (e' <= d1 + ex - (d2 + ey) - 53)%Z).
    { unfold e' in *. rewrite fexp_eq in *. lia. }
    assert (S1 : (d2 - d1 + 53 <= s)%Z) by (unfold s; lia).
    (* q >= 2^(d1 - 1 + s - d2) *)
    set (t := (d1 - 1 + s - d2)%Z).
    assert (Ht : (52 <= t)%Z) by (unfold t; lia).
    assert (Hqt : (2 ^ t <= q)%Z).
    { assert (E1 : (2 ^ (d1 - 1) * 2 ^ s = 2 ^ t * 2 ^ d2)%Z).
      { rewrite <- !Z.pow_add_r by lia. f_equal. unfold t. lia. }
      assert (P2t : (0 < 2 ^ t)%Z) by (apply Z.pow_pos_nonneg; lia).
      destruct (Z_lt_le_dec q (2 ^ t)) as [C|C]; [|exact C].
      exfalso.
      assert (Zpos my * (q + 1) <= Zpos my * 2 ^ t)%Z by nia.
      nia. }
    assert (D : (t + 1 <= Zdigits2 q)%Z).
    { assert (P2t : (0 < 2 ^ t)%Z) by (apply Z.pow_pos_nonneg; lia).
      pose proof (Zdigits2_bounds q ltac:(lia)) as [_ B].
      destruct (Z_lt_le_dec (Zdigits2 q) (t + 1)) as [C|C]; [|exact C].
      exfalso.
      assert (2 ^ Zdigits2 q <= 2 ^ t)%Z.
      { apply Z.pow_le_mono_r; lia. }
      lia. }
    unfold t in D. unfold s in D. lia.
  - unfold inb. eapply inbu_comp; [|apply (new_location_inbu (Zpos my) r q Hr)].
    assert (Em : inject_Z m' == inject_Z (Zpos my) * inject_Z q + inject_Z r).
    { rewrite Eq, inject_Z_plus, inject_Z_mult. reflexivity. }
    rewrite Hm', inject_Z_mult in Em.
    assert (Es : bpow ex == bpow s * bpow ey * bpow e').
    { rewrite <- !bpow_plus. unfold s. f_equal. 
      replace (ex - ey - e' + ey + e')%Z with ex by lia. reflexivity. }
    assert (Ee : bpow e' * bpow (- e') == 1).
    { rewrite <- bpow_plus. replace (e' + - e')%Z with 0%Z by lia.
      reflexivity. }
    rewrite <- (bpow_Z s Hs) in Em.
    pose proof (bpow_pos ey) as Pey. pose proof (bpow_pos e') as Pe'.
    assert (My : 0 < inject_Z (Zpos my)).
    { change 0 with (inject_Z 0). rewrite <- Zlt_Qlt. lia. }
    unfold F2Q. rewrite Es.
    set (A := inject_Z (Zpos mx)) in *. set (B := inject_Z (Zpos my)) in *.
    set (Qq := inject_Z q) in *. set (Rr := inject_Z r) in *.
    set (bs := bpow s) in *. set (by_ := bpow ey) in *.
    set (be := bpow e') in *. set (bn := bpow (- e')) in *.
    assert (Hgoal : Qq + Rr / B == A * bs / B).
    { rewrite Em. field. lra. }
    rewrite Hgoal.
    setoid_replace (A * (bs * by_ * be) / (B * by_) * bn)
      with (A * bs / B * (be * bn)).
    + rewrite Ee. ring.
    + field. split; lra.
Qed.

Lemma B2Q_sign_div (sx sy : bool) (a b : Q) :
  ~ b == 0 ->
  (if xorb sx sy then - (a / b) else a / b)
  == (if sx then - a else a) / (if sy then - b else b).
Proof. intros H. destruct sx, sy; cbn [xorb]; field; exact H. Qed.

(** The quotient of a double by a double other than 0. *)
Lemma SFdiv_faithful (x y : B64.t) :
  is_double x -> B64_is_number x = true ->
  (exists (sy : bool) (my : positive) (ey : Z), y = S754_finite sy my ey) ->
  faithful (B2Q x / B2Q y) (SFdiv 53 1024 x y).
Proof.
  intros Vx Fx (sy & my & ey & ->).
  pose proof (F2Q_pos (Zpos my) ey ltac:(lia)) as Py.
  destruct x as [sx|sx| |sx mx ex]; try discriminate.
  - apply faithful_zero. cbn [B2Q]. unfold Qdiv. ring.
  - destruct (SFdiv_rounding sx sy mx my ex ey) as (m' & e' & m1 & R & ->).
    eapply faithful_comp; [|exact (pack_faithful _ _ _ _ (xorb sx sy) R)].
    rewrite !B2Q_finite. apply B2Q_sign_div. lra.
Qed.

(** ** Numbers the format holds *)

(** A rounding of a number on the grid of the kept exponent is that
    number. *)
Lemma rounding_on_grid (v : Q) (m' e' m1 z e : Z) :
  rounding v m' e' m1 -> v == F2Q z e -> (e' <= e)%Z ->
  m1 = m' /\ F2Q m' e' == v.
Proof.
  intros [Lo Hi Rg Em Nm Ch] E L.
  rewrite (F2Q_align z e e' L) in E.
  assert (A : (m' <= z * 2 ^ (e - e'))%Z) by (apply (F2Q_le _ _ e'); lra).
  assert (B : (z * 2 ^ (e - e') < m' + 1)%Z) by (apply (F2Q_lt _ _ e'); lra).
  assert (Em' : m' = (z * 2 ^ (e - e'))%Z) by lia.
  split.
  - destruct Ch as [[-> _]|[_ C]]; [reflexivity|exfalso].
    assert (F2Q (2 * m' + 1) e' <= F2Q (2 * m') e').
    { eapply Qle_trans; [exact C|]. rewrite E, <- Em'.
      unfold F2Q. rewrite inject_Z_mult. change (inject_Z 2) with 2.
      apply Qle_lteq. right. ring. }
    apply F2Q_le in H. lia.
  - rewrite E, Em'. reflexivity.
Qed.

Lemma pack_finite_B2Q (sx : bool) (m1 e' : Z) :
  (0 <= m1 <= 2 ^ 53)%Z -> ((-1074 < e')%Z -> (2 ^ 52 <= m1)%Z) ->
  B64_is_number (pack sx m1 e') = true ->
  B2Q (pack sx m1 e') == (if sx then - F2Q m1 e' else F2Q m1 e').
Proof.
  intros B N F.
  destruct (pack_cases sx m1 e' B N)
    as [[Z0 E]|[(p & e & E & L & Q1 & P1 & _)|[E _]]]; rewrite E in *.
  - subst m1. cbn [B2Q]. destruct sx; rewrite F2Q_0; reflexivity.
  - rewrite B2Q_finite. destruct sx; rewrite Q1; reflexivity.
  - discriminate.
Qed.

(** An integer of at most 53 bits is a double. *)
Lemma of_Z_exact (z : Z) :
  (Z.abs z <= 2 ^ 53)%Z ->
  B64_is_number (B64.of_Z z) = true /\ B2Q (B64.of_Z z) == inject_Z z.
Proof.
  intros Hz. unfold B64.of_Z.
  assert (K : forall (s : bool) (p : positive),
    (Zpos p <= 2 ^ 53)%Z ->
    B64_is_number (binary_round 53 1024 s p 0) = true /\
    B2Q (binary_round 53 1024 s p 0)
    == (if s then - inject_Z (Zpos p) else inject_Z (Zpos p))).
  { intros s p Hp.
    destruct (binary_round_rounding s p 0) as (m' & e' & m1 & R & ->).
    destruct (rounding_bounds _ _ _ _ R) as (B & N & _).
    pose proof R as [Lo Hi Rg Em Nm Ch].
    assert (He : (e' <= 1)%Z).
    { destruct (Z_le_gt_dec e' 1) as [L|G]; [exact L|exfalso].
      assert (2 ^ 52 <= m')%Z by (apply Nm; lia).
      rewrite (F2Q_align m' e' 0) in Lo by lia.
      apply F2Q_le in Lo.
      assert (2 ^ 2 <= 2 ^ (e' - 0))%Z by (apply Z.pow_le_mono_r; lia).
      change (2 ^ 2)%Z with 4%Z in *. nia. }
    assert (G : m1 = m' /\ F2Q m' e' == F2Q (Zpos p) 0).
    { destruct (Z.eq_dec e' 1) as [->|Ne].
      - assert (2 ^ 52 <= m')%Z by (apply Nm; lia).
        rewrite (F2Q_align m' 1 0) in Lo by lia. apply F2Q_le in Lo.
        change (2 ^ (1 - 0))%Z with 2%Z in Lo.
        assert (Zpos p = 2 ^ 53)%Z by lia.
        apply (rounding_on_grid _ m' 1 m1 (2 ^ 52) 1 R); [|lia].
        rewrite H0. change (2 ^ 53)%Z with (2 ^ 52 * 2 ^ 1)%Z.
        rewrite F2Q_shift by lia. reflexivity.
      - apply (rounding_on_grid _ m' e' m1 (Zpos p) 0 R); [reflexivity|lia]. }
    destruct G as [-> G].
    assert (Fin : B64_is_number (pack s m' e') = true).
    { destruct (pack_cases s m' e' B N)
        as [[_ ->]|[(q & e & -> & _)|[_ [_ O]]]]; try reflexivity.
      exfalso.
      assert (F2Q (2 * m') e' == 2 * F2Q (Z.pos p) 0).
      { rewrite <- G. unfold F2Q. rewrite inject_Z_mult.
        change (inject_Z 2) with 2. ring. }
      rewrite H in O.
      assert (F2Q (Zpos p) 0 <= F2Q (2 ^ 53) 0) by (apply F2Q_le; lia).
      assert (F2Q (2 ^ 53) 0 == bpow 53).
      { rewrite <- (Z.mul_1_l (2 ^ 53)), F2Q_shift, F2Q_1 by lia.
        reflexivity. }
      assert (bpow 54 < bpow 1024) by (apply bpow_lt; lia).
      assert (bpow 54 == 2 * bpow 53) by (apply (bpow_succ 53)).
      lra. }
    split; [exact Fin|].
    rewrite (pack_finite_B2Q s m' e' B N Fin).
    destruct s; rewrite G; unfold F2Q; rewrite bpow_0; ring. }
  destruct z as [|p|p]; cbn [binary_normalize].
  - split; reflexivity.
  - apply (K false p). lia.
  - destruct (K true p ltac:(lia)) as [F E]. split; [exact F|].
    rewrite E. reflexivity.
Qed.

Lemma of_Z_double (z : Z) : is_double (B64.of_Z z).
Proof. exact (proj1 (of_Z_faithful z)). Qed.

(** ** [Math.floor] and [Math.round] *)

Lemma Qfloor_unique (q : Q) (z : Z) :
  inject_Z z <= q -> q < inject_Z (z + 1) -> Qfloor q = z.
Proof.
  intros H1 H2.
  pose proof (Qfloor_le q) as F1. pose proof (Qlt_floor q) as F2.
  assert (A : (z < Qfloor q + 1)%Z) by (rewrite Zlt_Qlt; lra).
  assert (B : (Qfloor q < z + 1)%Z) by (rewrite Zlt_Qlt; lra).
  lia.
Qed.

(** The floor of [a * 2^e] for a negative [e] is the arithmetic shift. *)
Lemma Qfloor_F2Q (a e : Z) :
  (e < 0)%Z -> Qfloor (F2Q a e) = Z.shiftr a (- e).
Proof.
  intros He. rewrite Z.shiftr_div_pow2 by lia.
  assert (P : (0 < 2 ^ (- e))%Z) by (apply Z.pow_pos_nonneg; lia).
  pose proof (Z.div_mod a (2 ^ (- e)) ltac:(lia)) as DM.
  pose proof (Z.mod_pos_bound a (2 ^ (- e)) P) as MB.
  set (q := (a / 2 ^ (- e))%Z) in *.
  apply Qfloor_unique.
  - setoid_replace (inject_Z q) with (F2Q (q * 2 ^ (0 - e)) e)
      by (rewrite F2Q_shift by lia; replace (e + (0 - e))%Z with 0%Z by lia;
          unfold F2Q; rewrite bpow_0; ring).
    apply F2Q_le. replace (0 - e)%Z with (- e)%Z by lia. nia.
  - setoid_replace (inject_Z (q + 1)) with (F2Q ((q + 1) * 2 ^ (0 - e)) e)
      by (rewrite F2Q_shift by lia; replace (e + (0 - e))%Z with 0%Z by lia;
          unfold F2Q; rewrite bpow_0; ring).
    apply F2Q_lt. replace (0 - e)%Z with (- e)%Z by lia. nia.
Qed.

Lemma F2Q_integer (a e : Z) :
  (0 <= e)%Z -> F2Q a e == inject_Z (a * 2 ^ e).
Proof.
  intros H. unfold F2Q. rewrite inject_Z_mult, (bpow_Z e H). reflexivity.
Qed.

Lemma signed_B2Q (s : bool) (m : positive) (e : Z) :
  B2Q (S754_finite s m e) = F2Q (B64.signed s m) e.
Proof. reflexivity. Qed.

(** [Math.floor] of a double is the double of the integer part. *)
Lemma floor_spec (x : B64.t) :
  is_double x -> B64_is_number x = true ->
  is_double (B64.floor x) /\ B64_is_number (B64.floor x) = true /\
  B2Q (B64.floor x) == inject_Z (Qfloor (B2Q x)).
Proof.
  intros V F. destruct x as [s|s| |s m e]; try discriminate.
  - repeat split. 
  - cbn [B64.floor]. destruct (Z.leb_spec 0 e) as [L|L].
    + split; [exact V|]. split; [reflexivity|].
      rewrite signed_B2Q, (F2Q_integer _ e L), Qfloor_Z. reflexivity.
    + rewrite signed_B2Q, (Qfloor_F2Q _ e L).
      split; [apply of_Z_double|].
      apply of_Z_exact.
      apply is_double_finite in V. destruct V as (E & M & _).
      rewrite Z.shiftr_div_pow2 by lia.
      assert (P : (0 < 2 ^ (- e))%Z) by (apply Z.pow_pos_nonneg; lia).
      assert (A : (Z.abs (B64.signed s m) < 2 ^ 53)%Z).
      { unfold B64.signed. destruct s; cbn [cond_Zopp]; lia. }
      assert (- 2 ^ 53 <= B64.signed s m / 2 ^ (- e) <= 2 ^ 53)%Z.
      { split.
        - apply Z.div_le_lower_bound; [lia|]. nia.
        - apply Z.lt_le_incl, Z.div_lt_upper_bound; [lia|]. nia. }
      lia.
Qed.

(** [Math.round] of a double holds the integer [floor(x + 1/2)]. *)
Lemma round_spec (x : B64.t) :
  is_double x -> B64_is_number x = true ->
  is_double (B64.round x) /\ B64_is_number (B64.round x) = true /\
  B2Q (B64.round x) == inject_Z (Qfloor (B2Q x + (1 # 2))).
Proof.
  intros V F. destruct x as [s|s| |s m e]; try discriminate.
  - repeat split.
  - cbn [B64.round]. destruct (Z.leb_spec 0 e) as [L|L].
    + split; [exact V|]. split; [reflexivity|].
      rewrite signed_B2Q, (F2Q_integer _ e L).
      set (k := (B64.signed s m * 2 ^ e)%Z).
      rewrite (Qfloor_unique (inject_Z k + (1 # 2)) k).
      * reflexivity.
      * lra.
      * rewrite inject_Z_plus. change (inject_Z 1) with 1. lra.
    + set (z := Z.shiftr (B64.signed s m + Z.shiftl 1 (- e - 1)) (- e)).
      assert (Ez : Qfloor (B2Q (S754_finite s m e) + (1 # 2)) = z).
      { unfold z. rewrite <- (Qfloor_F2Q _ e L).
        apply Qfloor_comp. rewrite signed_B2Q, F2Q_plus.
        rewrite Z.shiftl_mul_pow2 by lia.
        rewrite F2Q_shift by lia.
        replace (e + (- e - 1))%Z with (-1)%Z by lia.
        reflexivity. }
      rewrite Ez.
      apply is_double_finite in V. destruct V as (E & M & _).
      assert (Hz : (Z.abs z <= 2 ^ 53)%Z).
      { unfold z. rewrite Z.shiftr_div_pow2, Z.shiftl_mul_pow2 by lia.
        assert (P : (0 < 2 ^ (- e))%Z) by (apply Z.pow_pos_nonneg; lia).
        assert (P' : (0 < 2 ^ (- e - 1))%Z) by (apply Z.pow_pos_nonneg; lia).
        assert (E2 : (2 ^ (- e) = 2 * 2 ^ (- e - 1))%Z).
        { replace (- e)%Z with (1 + (- e - 1))%Z at 1 by lia.
          rewrite Z.pow_add_r by lia. reflexivity. }
        assert (A : (Z.abs (B64.signed s m) < 2 ^ 53)%Z).
        { unfold B64.signed. destruct s; cbn [cond_Zopp]; lia. }
        assert (- 2 ^ 53 <= (B64.signed s m + 1 * 2 ^ (- e - 1)) / 2 ^ (- e)
                <= 2 ^ 53)%Z.
        { split.
          - apply Z.div_le_lower_bound; [lia|]. nia.
          - apply Z.lt_le_incl, Z.div_lt_upper_bound; [lia|]. nia. }
        lia. }
      destruct (Z.eqb_spec z 0) as [Z0|NZ].
      * rewrite Z0. repeat split.
      * split; [apply of_Z_double|]. apply of_Z_exact. exact Hz.
Qed.

(** ** Doubles with the same value *)

Lemma canon_unique (m1 e1 m2 e2 : Z) :
  canon m1 e1 -> canon m2 e2 -> F2Q m1 e1 == F2Q m2 e2 ->
  m1 = m2 /\ e1 = e2.
Proof.
  intros C1 C2 E.
  destruct (Z.lt_total e1 e2) as [L|[->|L]].
  - pose proof (canon_lt _ _ _ _ C1 C2 L). lra.
  - split; [|reflexivity].
    assert (m1 <= m2)%Z by (apply (F2Q_le _ _ e2); lra).
    assert (m2 <= m1)%Z by (apply (F2Q_le _ _ e2); lra).
    lia.
  - pose proof (canon_lt _ _ _ _ C2 C1 L). lra.
Qed.

(** Two doubles that hold the same number other than 0 are the same. *)
Lemma double_unique (x y : B64.t) :
  is_double x -> is_double y ->
  B64_is_number x = true -> B64_is_number y = true ->
  B2Q x == B2Q y -> ~ B2Q x == 0 -> x = y.
Proof.
  intros Vx Vy Fx Fy E NZ.
  destruct x as [sx|sx| |sx mx ex]; try discriminate.
  { exfalso. apply NZ. reflexivity. }
  destruct y as [sy|sy| |sy my ey]; try discriminate.
  { exfalso. apply NZ. rewrite E. reflexivity. }
  apply is_double_finite in Vx, Vy.
  pose proof (F2Q_pos (Zpos mx) ex ltac:(lia)) as Px.
  pose proof (F2Q_pos (Zpos my) ey ltac:(lia)) as Py.
  rewrite !B2Q_finite in E.
  destruct sx, sy; try (exfalso; lra).
  - destruct (canon_unique _ _ _ _ Vx Vy ltac:(lra)) as [A B].
    injection A as ->. subst. reflexivity.
  - destruct (canon_unique _ _ _ _ Vx Vy ltac:(lra)) as [A B].
    injection A as ->. subst. reflexivity.
Qed.

(** A number a double holds rounds to that double. *)
Lemma faithful_finite (v : Q) (r f : B64.t) :
  faithful v r -> is_double f -> B64_is_number f = true -> v == B2Q f ->
  B64_is_number r = true /\ B2Q r == v.
Proof.
  intros (V & N & Lo & Hi) Vf Ff E.
  pose proof (Lo f Vf Ff ltac:(lra)) as L1.
  pose proof (Hi f Vf Ff ltac:(lra)) as L2.
  assert (Fr : B64_is_number r = true).
  { destruct r as [s|[|]| |s m e]; try reflexivity.
    - destruct f; discriminate.
    - destruct f; discriminate.
    - contradiction. }
  split; [exact Fr|].
  apply SFleb_B2Q in L1; try assumption.
  apply SFleb_B2Q in L2; try assumption. lra.
Qed.

Lemma faithful_exact (v : Q) (r f : B64.t) :
  faithful v r -> is_double f -> B64_is_number f = true -> v == B2Q f ->
  ~ v == 0 -> r = f.
Proof.
  intros Fa Vf Ff E NZ.
  destruct (faithful_finite v r f Fa Vf Ff E) as [Fr Er].
  apply double_unique; try assumption.
  - exact (proj1 Fa).
  - lra.
  - lra.
Qed.

(** A double that holds an integer is the double of that integer. *)
Lemma of_Z_of_integer (x : B64.t) (k : Z) :
  is_double x -> B64_is_number x = true -> B2Q x == inject_Z k ->
  k <> 0%Z -> B64.of_Z k = x.
Proof.
  intros V F E NZ.
  apply (faithful_exact (inject_Z k)); try assumption.
  - apply of_Z_faithful.
  - symmetry. exact E.
  - change 0 with (inject_Z 0). rewrite inject_Z_injective. exact NZ.
Qed.

(** [Math.round] of a double that is not negative is the double of the
    integer [floor(x + 1/2)]. *)
Lemma round_of_positive (x : B64.t) :
  is_double x -> B64_is_number x = true -> B64_is_positive x = true ->
  B64.round x = B64.of_Z (Qfloor (B2Q x + (1 # 2))).
Proof.
  intros V F P.
  destruct (round_spec x V F) as (Vr & Fr & Er).
  set (k := Qfloor (B2Q x + (1 # 2))) in *.
  destruct (Z.eq_dec k 0) as [K0|NK].
  - rewrite K0 in *.
    destruct x as [[|]|s| |[|] m e]; try discriminate; [reflexivity|].
    cbn [B64.round] in *. destruct (Z.leb_spec 0 e) as [L|L].
    + exfalso. pose proof (F2Q_pos (Zpos m) e ltac:(lia)).
      cbn [B2Q cond_Zopp] in Er. change (inject_Z 0) with 0 in Er. lra.
    + destruct (Z.eqb_spec
                  (Z.shiftr (B64.signed false m + Z.shiftl 1 (- e - 1)) (- e))
                  0) as [Z0|NZ]; [reflexivity|].
      exfalso. apply NZ. 
      rewrite <- (Qfloor_F2Q _ e L). rewrite <- K0. unfold k.
      apply Qfloor_comp. rewrite signed_B2Q, F2Q_plus.
      rewrite Z.shiftl_mul_pow2 by lia.
      rewrite F2Q_shift by lia.
      replace (e + (- e - 1))%Z with (-1)%Z by lia.
      reflexivity.
  - symmetry. apply of_Z_of_integer; assumption.
Qed.

(** ** The sign of the results *)

Lemma pack_sign (v : Q) (m' e' m1 : Z) (s : bool) :
  rounding v m' e' m1 ->
  pack s m1 e' = S754_zero s \/
  (exists (p : positive) (e : Z), pack s m1 e' = S754_finite s p e) \/
  pack s m1 e' = S754_infinity s.
Proof.
  intros R. destruct (rounding_bounds _ _ _ _ R) as (B & N & _).
  destruct (pack_cases s m1 e' B N)
    as [[_ E]|[(p & e & E & _)|[E _]]]; eauto.
Qed.

Lemma ten_is_double : is_double (B64.of_Z 10).
Proof. reflexivity. Qed.

Lemma SFmul_positive (x y : B64.t) :
  is_double x -> is_double y ->
  B64_is_number x = true -> B64_is_number y = true ->
  B64_is_positive x = true -> B64_is_positive y = true ->
  B64_is_positive (SFmul 53 1024 x y) = true.
Proof.
  intros Vx Vy Fx Fy Px Py.
  destruct x as [[|]|sx| |[|] mx ex]; try discriminate;
    destruct y as [[|]|sy| |[|] my ey]; try discriminate; try reflexivity.
  apply is_double_finite in Vx, Vy.
  destruct (SFmul_rounding false false mx my ex ey Vx Vy)
    as (m' & e' & m1 & R & ->).
  cbn [xorb].
  destruct (pack_sign _ _ _ _ false R) as [->|[(p & e & ->)| ->]]; reflexivity.
Qed.

Lemma SFmul_double (x y : B64.t) :
  is_double x -> is_double y -> is_double (SFmul 53 1024 x y).
Proof.
  intros Vx Vy.
  destruct x as [sx|sx| |sx mx ex], y as [sy|sy| |sy my ey]; try reflexivity.
  apply is_double_finite in Vx, Vy.
  destruct (SFmul_rounding sx sy mx my ex ey Vx Vy)
    as (m' & e' & m1 & R & ->).
  exact (rounding_pack_double _ _ _ _ _ R).
Qed.

Section FrameOnBinary64.

#[local] Existing Instance B64_number.

(** Whether the other operand is [+0] or [-0] makes no difference to a
    comparison of the sum. *)
Lemma add_zero_leb (x c : B64.t) (s1 s2 : bool) :
  SFleb (SFadd 53 1024 x (S754_zero s1)) c
  = SFleb (SFadd 53 1024 x (S754_zero s2)) c.
Proof.
  destruct x as [[|]|[|]| |[|] m e], s1, s2, c; reflexivity.
Qed.

Lemma max_zero_cases (v : B64.t) :
  SFleb (B64.of_Z 0) v = true ->
  (B64.max (B64.of_Z 0) v = v /\ B64_is_positive v = true) \/
  (v = S754_zero true /\ B64.max (B64.of_Z 0) v = S754_zero false).
Proof.
  destruct v as [[|]|[|]| |[|] m e]; intros H; try discriminate;
    try (right; split; reflexivity); left; split; reflexivity.
Qed.

(** C6.  On binary64, a percentage edit of a category to a double
    [value >= 0] ([-0] included) for which the other categories' percentages
    plus [value] are within 100 returns the distribution in which
    - the target's percentage is [value] rounded to one decimal place as
      the doubles round: whenever [value * 10] does not overflow, it is the
      double [k / 10] for the integer [k] nearest to the double
      [value * 10], a half counting upwards;
    - the target's TGE and duration are the old ones;
    - the record of every other category is the old record itself. *)
Theorem percentage_edit_within_budget_frame
    (d : Distribution) (category : Category) (value : num) :
  is_double value ->
  leb (of_Z 0) value = true ->
  leb (add (otherTotal d category) value) (of_Z 100) = true ->
  exists d' : Distribution,
    handleDistributionChange d category f_percentage value = Ok d' /\
    (B64_is_number (mul value (of_Z 10)) = true ->
     exists k : Z,
       inject_Z k - (1 # 2) <= B2Q (mul value (of_Z 10)) /\
       B2Q (mul value (of_Z 10)) < inject_Z k + (1 # 2) /\
       percentage (d' category) = lit k 10) /\
    tge (d' category) = tge (d category) /\
    duration (d' category) = duration (d category) /\
    forall c : Category, c <> category -> d' c = d c.
Proof.
  intros V Hnn Hle.
  assert (Hbranch :
    leb (add (otherTotal d category) (max (of_Z 0) value)) (of_Z 100) = true).
  { cbn [leb add max of_Z B64_number] in *.
    destruct (max_zero_cases value Hnn) as [[-> _]|[-> ->]]; [exact Hle|].
    rewrite (add_zero_leb _ _ false true). exact Hle. }
  destruct (within_budget_frame d category value Hbranch)
    as (d' & Hd' & Hp & Ht & Hdur & Hfr).
  exists d'. split; [exact Hd'|]. split; [|auto].
  intros Fin. rewrite Hp. unfold round1, lit.
  cbn [leb add mul div round max of_Z B64_number] in *.
  unfold B64.prec, B64.emax in *.
  destruct (max_zero_cases value Hnn) as [[-> Pos]|[-> ->]].
  - assert (Fv : B64_is_number value = true).
    { destruct value as [s|[|]| |s m e]; try reflexivity; discriminate. }
    pose proof (SFmul_double value (B64.of_Z 10) V ten_is_double) as VP.
    pose proof (SFmul_positive value (B64.of_Z 10) V ten_is_double Fv
                  eq_refl Pos eq_refl) as PP.
    set (P := SFmul 53 1024 value (B64.of_Z 10)) in *.
    exists (Qfloor (B2Q P + (1 # 2))).
    pose proof (Qfloor_le (B2Q P + (1 # 2))) as F1.
    pose proof (Qlt_floor (B2Q P + (1 # 2))) as F2.
    rewrite inject_Z_plus in F2. change (inject_Z 1) with 1 in F2.
    split; [lra|]. split; [lra|].
    rewrite (round_of_positive P VP Fin PP). reflexivity.
  - exists 0%Z. split; [discriminate|]. split; reflexivity.
Qed.

End FrameOnBinary64.

(** ** The operations keep the normal form *)

Lemma SFdiv_double (x y : B64.t) : is_double (SFdiv 53 1024 x y).
Proof.
  destruct x as [sx|sx| |sx mx ex], y as [sy|sy| |sy my ey]; try reflexivity.
  destruct (SFdiv_rounding sx sy mx my ex ey) as (m' & e' & m1 & R & ->).
  exact (rounding_pack_double _ _ _ _ _ R).
Qed.

Lemma SFadd_double (x y : B64.t) :
  is_double x -> is_double y -> is_double (SFadd 53 1024 x y).
Proof.
  intros Vx Vy.
  destruct x as [[|]|[|]| |sx mx ex], y as [[|]|[|]| |sy my ey];
    try reflexivity; try assumption.
  cbn [SFadd]. exact (proj1 (binary_normalize_faithful _ _ _)).
Qed.

Lemma SFsub_double (x y : B64.t) :
  is_double x -> is_double y -> is_double (SFsub 53 1024 x y).
Proof.
  intros Vx Vy.
  destruct x as [[|]|[|]| |sx mx ex], y as [[|]|[|]| |sy my ey];
    try reflexivity; try assumption.
  cbn [SFsub]. exact (proj1 (binary_normalize_faithful _ _ _)).
Qed.

Lemma floor_double (x : B64.t) : is_double x -> is_double (B64.floor x).
Proof.
  intros V. destruct x as [s|s| |s m e]; try assumption.
  exact (proj1 (floor_spec _ V eq_refl)).
Qed.

Lemma round_double (x : B64.t) : is_double x -> is_double (B64.round x).
Proof.
  intros V. destruct x as [s|s| |s m e]; try assumption.
  exact (proj1 (round_spec _ V eq_refl)).
Qed.

Lemma min_double (x y : B64.t) :
  is_double x -> is_double y -> is_double (B64.min x y).
Proof.
  intros Vx Vy. unfold B64.min.
  destruct (B64.is_nan x || B64.is_nan y); [reflexivity|].
  destruct (SFltb x y); [assumption|].
  destruct (SFltb y x); [assumption|].
  destruct (B64.is_neg_zero x); assumption.
Qed.

Lemma max_double (x y : B64.t) :
  is_double x -> is_double y -> is_double (B64.max x y).
Proof.
  intros Vx Vy. unfold B64.max.
  destruct (B64.is_nan x || B64.is_nan y); [reflexivity|].
  destruct (SFltb x y); [assumption|].
  destruct (SFltb y x); [assumption|].
  destruct (B64.is_neg_zero x); assumption.
Qed.

(** ** Whole numbers *)

Lemma floor_integer (x : B64.t) : is_double x -> integer_valued (B64.floor x).
Proof.
  intros V. destruct x as [s|s| |s m e]; try (exists 0%Z; reflexivity).
  destruct (floor_spec _ V eq_refl) as (_ & _ & E). eexists. exact E.
Qed.

Lemma finite_exponent_integer (s : bool) (m : positive) (e : Z) :
  (0 <= e)%Z -> integer_valued (S754_finite s m e).
Proof.
  intros L. exists (cond_Zopp s (Zpos m) * 2 ^ e)%Z.
  cbn [B2Q]. apply F2Q_integer. exact L.
Qed.

(** A double of at least [2^53] in size is a whole number. *)
Lemma large_double_integer (x : B64.t) :
  is_double x -> B64_is_number x = true ->
  inject_Z (2 ^ 53) <= B2Q x \/ B2Q x <= - inject_Z (2 ^ 53) ->
  integer_valued x.
Proof.
  intros V F H. destruct x as [s|s| |s m e]; try discriminate.
  - exists 0%Z. reflexivity.
  - apply finite_exponent_integer.
    apply is_double_finite in V. destruct V as (E & M & _).
    destruct (Z_lt_le_dec e 0) as [L|L]; [exfalso|exact L].
    assert (B : F2Q (Zpos m) e < inject_Z (2 ^ 53)).
    { apply Qlt_le_trans with (F2Q (2 ^ 53) e).
      - apply F2Q_lt. lia.
      - rewrite <- (Z.mul_1_l (2 ^ 53)), F2Q_shift, F2Q_1 by lia.
        rewrite <- (bpow_Z 53) by lia. apply bpow_le. lia. }
    pose proof (F2Q_pos (Zpos m) e ltac:(lia)) as Pm.
    assert (P53 : 0 < inject_Z (2 ^ 53)) by reflexivity.
    destruct H as [H|H]; rewrite B2Q_finite in H; destruct s; lra.
Qed.

(** The rounding of an integer is a whole number. *)
Lemma faithful_integer (k : Z) (r : B64.t) :
  faithful (inject_Z k) r -> integer_valued r.
Proof.
  intros Fa. pose proof Fa as (V & N & Lo & Hi).
  destruct (B64_is_number r) eqn:Fr.
  2:{ exists 0%Z. destruct r as [s|s| |s m e]; try discriminate; reflexivity. }
  destruct (Z_le_gt_dec (Z.abs k) (2 ^ 53)) as [S|L].
  - destruct (of_Z_exact k S) as [F E].
    exists k. 
    apply (faithful_finite _ r (B64.of_Z k) Fa (of_Z_double k) F).
    symmetry. exact E.
  - apply large_double_integer; try assumption.
    destruct (Z_le_gt_dec 0 k) as [P|Ng].
    + left. destruct (of_Z_exact (2 ^ 53) ltac:(simpl; lia)) as [F E].
      assert (L1 : SFleb (B64.of_Z (2 ^ 53)) r = true).
      { apply Lo; [apply of_Z_double|exact F|]. rewrite E.
        rewrite <- Zle_Qle. lia. }
      apply (proj1 (SFleb_B2Q _ _ (of_Z_double _) V F Fr)) in L1.
      rewrite E in L1. exact L1.
    + right. destruct (of_Z_exact (- 2 ^ 53) ltac:(simpl; lia)) as [F E].
      assert (L1 : SFleb r (B64.of_Z (- 2 ^ 53)) = true).
      { apply Hi; [apply of_Z_double|exact F|]. rewrite E.
        rewrite <- Zle_Qle. lia. }
      apply (proj1 (SFleb_B2Q _ _ V (of_Z_double _) Fr F)) in L1.
      rewrite E, inject_Z_opp in L1. exact L1.
Qed.

Lemma SFadd_integer (x y : B64.t) :
  is_double x -> is_double y -> integer_valued x -> integer_valued y ->
  integer_valued (SFadd 53 1024 x y).
Proof.
  intros Vx Vy [kx Ex] [ky Ey].
  destruct (B64_is_number x) eqn:Fx.
  2:{ exists 0%Z.
      destruct x as [s|[|]| |s m e]; try discriminate;
        destruct y as [sy|[|]| |sy my ey]; reflexivity. }
  destruct (B64_is_number y) eqn:Fy.
  2:{ exists 0%Z.
      destruct y as [s|[|]| |s m e]; try discriminate;
        destruct x as [sx|[|]| |sx mx ex]; reflexivity. }
  apply (faithful_integer (kx + ky)).
  eapply faithful_comp; [|exact (SFadd_faithful x y Vx Vy Fx Fy)].
  rewrite Ex, Ey, inject_Z_plus. reflexivity.
Qed.

(** A whole number above 0 is at least 1. *)
Lemma positive_integer_at_least_1 (x : B64.t) :
  is_double x -> integer_valued x -> SFltb (B64.of_Z 0) x = true ->
  SFleb (B64.of_Z 1) x = true.
Proof.
  intros V [k E] P.
  destruct x as [[|]|[|]| |[|] m e]; try discriminate; try reflexivity.
  apply SFleb_B2Q; try assumption; try reflexivity.
  pose proof (F2Q_pos (Zpos m) e ltac:(lia)) as Pm.
  rewrite E, (proj2 (of_Z_exact 1 ltac:(simpl; lia))).
  rewrite <- Zle_Qle.
  cbn [B2Q cond_Zopp] in E. rewrite E in Pm.
  change 0 with (inject_Z 0) in Pm. rewrite <- Zlt_Qlt in Pm. lia.
Qed.

(** ** C8 on binary64 *)

Section MetricsShape.

Context {N : JSNumber}.

(** What [calculateMetrics] reads off month 0. *)
Lemma metrics_of_month_zero (st : PlannerState) (m : Metrics) :
  calculateMetrics st = Ok m ->
  tgeCirculating m
  = min (add (of_Z 0) (tge_total (distribution st) (totalSupply st)))
      (totalSupply st) /\
  initialMarketCap m = mul (tgeCirculating m) (initialTokenPrice st).
Proof.
  unfold calculateMetrics. intros H.
  apply bind_Ok in H. destruct H as (s & Hs & H).
  destruct (returned_schedule_head _ _ _ Hs) as (r' & ->).
  cbn [cumulate] in H. cbv zeta in H.
  inversion H; subst; clear H.
  cbn [tgeCirculating initialMarketCap circulating rawCirculating].
  split; reflexivity.
Qed.

End MetricsShape.

Section RatioOnBinary64.

#[local] Existing Instance B64_number.

Lemma hundred_is_double : is_double (B64.of_Z 100).
Proof. reflexivity. Qed.

Lemma tokenAmount_double (supply : num) (data : DistributionData) :
  is_double (tokenAmount_of supply data).
Proof. apply floor_double, SFdiv_double. Qed.

Lemma tgeAmount_double (supply : num) (data : DistributionData) :
  is_double (tgeAmount_of supply data).
Proof. apply floor_double, SFdiv_double. Qed.

Lemma tgeAmount_integer (supply : num) (data : DistributionData) :
  integer_valued (tgeAmount_of supply data).
Proof. apply floor_integer, SFdiv_double. Qed.

Lemma tge_total_integer (d : Distribution) (supply : num) :
  is_double (tge_total d supply) /\ integer_valued (tge_total d supply).
Proof.
  unfold tge_total.
  assert (K : forall (l : list Category) (x : num),
    is_double x -> integer_valued x ->
    is_double (fold_left (fun acc c => add acc (tgeAmount_of supply (d c)))
                 l x) /\
    integer_valued (fold_left
                      (fun acc c => add acc (tgeAmount_of supply (d c)))
                      l x)).
  { induction l as [|c l IH]; intros x Vx Ix; cbn [fold_left].
    - split; assumption.
    - apply IH.
      + apply SFadd_double; [exact Vx|apply tgeAmount_double].
      + apply SFadd_integer; try assumption.
        * apply tgeAmount_double.
        * apply tgeAmount_integer. }
  apply K; [reflexivity|exists 0%Z; reflexivity].
Qed.

Lemma B64_min_is_one_of (x y : B64.t) :
  B64.min x y = S754_nan \/ B64.min x y = x \/ B64.min x y = y.
Proof.
  unfold B64.min. destruct (B64.is_nan x || B64.is_nan y); [left; reflexivity|].
  right. destruct (SFltb x y); [left; reflexivity|].
  destruct (SFltb y x); [right; reflexivity|].
  destruct (B64.is_neg_zero x); [left|right]; reflexivity.
Qed.

(** The product of a double of at least 1 and a double above 0 is above
    0: it does not underflow. *)
Lemma product_is_positive (x y : B64.t) :
  is_double x -> is_double y ->
  SFleb (B64.of_Z 1) x = true -> SFltb (B64.of_Z 0) y = true ->
  SFltb (B64.of_Z 0) (SFmul 53 1024 x y) = true.
Proof.
  intros Vx Vy Hx Hy.
  destruct x as [[|]|[|]| |[|] mx ex]; try discriminate;
    destruct y as [[|]|[|]| |[|] my ey]; try discriminate; try reflexivity.
  assert (X1 : 1 <= B2Q (S754_finite false mx ex)).
  { apply (proj1 (SFleb_B2Q _ _ (of_Z_double 1) Vx eq_refl eq_refl)) in Hx.
    rewrite (proj2 (of_Z_exact 1 ltac:(simpl; lia))) in Hx. exact Hx. }
  pose proof (F2Q_pos (Zpos my) ey ltac:(lia)) as Py.
  pose proof (SFmul_faithful _ _ Vx Vy eq_refl eq_refl) as (_ & _ & Lo & _).
  specialize (Lo (S754_finite false my ey) Vy eq_refl).
  apply is_double_finite in Vx, Vy.
  destruct (SFmul_rounding false false mx my ex ey Vx Vy)
    as (m' & e' & m1 & R & E).
  rewrite E in *. cbn [xorb] in *.
  assert (L : SFleb (S754_finite false my ey) (pack false m1 e') = true).
  { apply Lo. cbn [B2Q cond_Zopp] in *.
    setoid_replace (F2Q (Zpos my) ey) with (1 * F2Q (Zpos my) ey) at 1 by ring.
    apply Qmult_le_compat_r; [exact X1|]. lra. }
  destruct (pack_sign _ _ _ _ false R) as [Z|[(p & e & F)|I]];
    rewrite ?Z, ?F, ?I in *; try reflexivity.
  discriminate L.
Qed.

Lemma SFeqb_zero_not_above (x : B64.t) :
  SFeqb x (B64.of_Z 0) = true -> SFltb (B64.of_Z 0) x = false.
Proof.
  destruct x as [[|]|[|]| |[|] m e]; intros H; try discriminate; reflexivity.
Qed.

(** C8 (amended).  On binary64, for a supply of at least 1 and a price above
    0, both doubles, and whatever the distribution holds: the market cap is
    [tgeCirculating * initialTokenPrice]; when [tgeCirculating > 0] the
    ratio is [fdv / initialMarketCap] and the divisor is above 0, so neither
    0 nor NaN; when [tgeCirculating === 0] the ratio is
    [Number.POSITIVE_INFINITY]. *)
Theorem ratio_is_guarded_against_zero_tge
    (st : PlannerState) (m : Metrics) :
  is_double (totalSupply st) -> is_double (initialTokenPrice st) ->
  leb (of_Z 1) (totalSupply st) = true ->
  gtb (initialTokenPrice st) (of_Z 0) = true ->
  calculateMetrics st = Ok m ->
  initialMarketCap m = mul (tgeCirculating m) (initialTokenPrice st) /\
  (gtb (tgeCirculating m) (of_Z 0) = true ->
   fdvToMcapRatio m = div (fdv st) (initialMarketCap m) /\
   gtb (initialMarketCap m) (of_Z 0) = true) /\
  (strict_eqb (tgeCirculating m) (of_Z 0) = true ->
   fdvToMcapRatio m = pos_infinity).
Proof.
  intros Vs Vp Hs Hp H.
  destruct (ratio_is_guarded_quotient st m H) as (Hcap & Hq & Hinf).
  destruct (metrics_of_month_zero st m H) as (Ht & _).
  clear H.
  split; [exact Hcap|].
  split.
  - intros G. split; [exact (Hq G)|].
    rewrite Hcap. clear Hcap Hq Hinf.
    destruct (tge_total_integer (distribution st) (totalSupply st))
      as (Vt & It).
    revert Ht G. generalize (tgeCirculating m). intros t Ht G.
    revert Vt It Ht. generalize (tge_total (distribution st) (totalSupply st)).
    intros total Vt It Ht.
    revert Vs Vp Hs Hp Ht. 
    generalize (totalSupply st), (initialTokenPrice st).
    intros supply price Vs Vp Hs Hp Ht.
    assert (Vc : is_double (SFadd 53 1024 (B64.of_Z 0) total))
      by (apply SFadd_double; [reflexivity|exact Vt]).
    assert (Ic : integer_valued (SFadd 53 1024 (B64.of_Z 0) total)).
    { apply SFadd_integer; [reflexivity|exact Vt| |exact It].
      exists 0%Z. reflexivity. }
    change (t = B64.min (SFadd 53 1024 (B64.of_Z 0) total) supply) in Ht.
    change (SFltb (B64.of_Z 0) t = true) in G.
    change (SFltb (B64.of_Z 0) (SFmul 53 1024 t price) = true).
    apply product_is_positive.
    + rewrite Ht. apply min_double; assumption.
    + exact Vp.
    + destruct (B64_min_is_one_of (SFadd 53 1024 (B64.of_Z 0) total) supply)
        as [E|[E|E]]; rewrite E in Ht; subst t.
      * discriminate G.
      * apply positive_integer_at_least_1; [exact Vc|exact Ic|exact G].
      * exact Hs.
    + exact Hp.
  - intros Z. apply Hinf. 
    change (SFltb (B64.of_Z 0) (tgeCirculating m) = false).
    apply SFeqb_zero_not_above. exact Z.
Qed.

End RatioOnBinary64.

(** ** Signs *)

(** The shape of what [binary_round_aux] returns, on any input. *)
Lemma binary_round_aux_shape (s : bool) (m e : Z) (l : location) :
  (0 <= m)%Z ->
  binary_round_aux 53 1024 s m e l = S754_zero s \/
  (exists (p : positive) (e' : Z),
     binary_round_aux 53 1024 s m e l = S754_finite s p e') \/
  binary_round_aux 53 1024 s m e l = S754_infinity s.
Proof.
  intros H. unfold binary_round_aux.
  pose proof (shr_fexp_nonneg m e l H) as H1.
  change B64.prec with 53%Z in H1. change B64.emax with 1024%Z in H1.
  destruct (shr_fexp 53 1024 m e l) as [mrs' e']. cbn [fst] in H1.
  pose proof (shr_fexp_nonneg
                (round_nearest_even (shr_m mrs') (loc_of_shr_record mrs'))
                e' loc_Exact (round_nearest_even_nonneg _ _ H1)) as H2.
  change B64.prec with 53%Z in H2. change B64.emax with 1024%Z in H2.
  destruct (shr_fexp 53 1024
              (round_nearest_even (shr_m mrs') (loc_of_shr_record mrs'))
              e' loc_Exact) as [mrs'' e'']. cbn [fst] in H2.
  destruct (shr_m mrs'') as [|p|p]; [left; reflexivity| |lia].
  right. destruct (e'' <=? 1024 - 53)%Z; [left; eauto|right; reflexivity].
Qed.

Lemma SFmul_finite_shape (sx sy : bool) (mx my : positive) (ex ey : Z) :
  let r := SFmul 53 1024 (S754_finite sx mx ex) (S754_finite sy my ey) in
  r = S754_zero (xorb sx sy) \/
  (exists (p : positive) (e' : Z), r = S754_finite (xorb sx sy) p e') \/
  r = S754_infinity (xorb sx sy).
Proof. cbn [SFmul]. apply binary_round_aux_shape. lia. Qed.


Lemma binary_round_shape (s : bool) (m : positive) (e : Z) :
  binary_round 53 1024 s m e = S754_zero s \/
  (exists (p : positive) (e' : Z),
     binary_round 53 1024 s m e = S754_finite s p e') \/
  binary_round 53 1024 s m e = S754_infinity s.
Proof.
  unfold binary_round.
  destruct (shl_align m e (fexp 53 1024 (Z.pos (digits2_pos m) + e)))
    as [mz ez].
  apply binary_round_aux_shape. lia.
Qed.








(** ** The order of the doubles *)

Lemma SFleb_refl (x : B64.t) : B64.is_nan x = false -> SFleb x x = true.
Proof.
  destruct x as [[|]|[|]| |[|] m e]; intros H; try discriminate;
    try reflexivity; unfold SFleb; cbn [SFcompare];
    rewrite Z.compare_refl, Pos.compare_cont_refl; reflexivity.
Qed.

Lemma SFleb_trans (x y z : B64.t) :
  is_double x -> is_double y -> is_double z ->
  SFleb x y = true -> SFleb y z = true -> SFleb x z = true.
Proof.
  intros Vx Vy Vz H1 H2.
  destruct (B64_is_number x) eqn:Fx.
  2:{ destruct x as [sx|[|]| |sx mx ex]; try discriminate;
        destruct y as [[|]|[|]| |[|] my ey]; try discriminate;
        destruct z as [[|]|[|]| |[|] mz ez]; try discriminate; reflexivity. }
  destruct (B64_is_number z) eqn:Fz.
  2:{ destruct z as [sz|[|]| |sz mz ez]; try discriminate;
        destruct y as [[|]|[|]| |[|] my ey]; try discriminate;
        destruct x as [[|]|[|]| |[|] mx ex]; try discriminate; reflexivity. }
  destruct (B64_is_number y) eqn:Fy.
  2:{ destruct y as [sy|[|]| |sy my ey]; try discriminate;
        destruct x as [[|]|[|]| |[|] mx ex]; try discriminate;
        destruct z as [[|]|[|]| |[|] mz ez]; try discriminate; reflexivity. }
  apply (proj1 (SFleb_B2Q _ _ Vx Vy Fx Fy)) in H1.
  apply (proj1 (SFleb_B2Q _ _ Vy Vz Fy Fz)) in H2.
  apply (proj2 (SFleb_B2Q _ _ Vx Vz Fx Fz)). lra.
Qed.


Lemma SFleb_not_nan (x y : B64.t) :
  SFleb x y = true -> B64.is_nan x = false /\ B64.is_nan y = false.
Proof.
  destruct x as [sx|sx| |sx mx ex], y as [sy|sy| |sy my ey]; intros H;
    try discriminate; split; reflexivity.
Qed.

Lemma SFltb_not_nan (x y : B64.t) :
  SFltb x y = true -> B64.is_nan x = false /\ B64.is_nan y = false.
Proof.
  destruct x as [sx|sx| |sx mx ex], y as [sy|sy| |sy my ey]; intros H;
    try discriminate; split; reflexivity.
Qed.

(** ** C10 on binary64 *)

Section Members.

Context {N : JSNumber}.


End Members.

Section RebalanceAbove100.

#[local] Existing Instance B64_number.





Lemma hundred_exact : B2Q (B64.of_Z 100) == 100.
Proof. exact (proj2 (of_Z_exact 100 ltac:(simpl; lia))). Qed.










End RebalanceAbove100.

Section EditAbove100.

#[local] Existing Instance B64_number.




End EditAbove100.

(** ** C3 on binary64 *)

(** A rounding between two doubles is a number between them. *)
Lemma faithful_between (v : Q) (r lo hi : B64.t) :
  faithful v r ->
  is_double lo -> B64_is_number lo = true ->
  is_double hi -> B64_is_number hi = true ->
  B2Q lo <= v -> v <= B2Q hi ->
  B64_is_number r = true /\ B2Q lo <= B2Q r /\ B2Q r <= B2Q hi.
Proof.
  intros (V & N & Lo & Hi) Vl Fl Vh Fh L H.
  pose proof (Lo lo Vl Fl L) as L1. pose proof (Hi hi Vh Fh H) as L2.
  assert (Fr : B64_is_number r = true).
  { destruct r as [s|[|]| |s m e]; try reflexivity.
    - destruct lo; discriminate.
    - destruct hi; discriminate.
    - contradiction. }
  split; [exact Fr|]. split.
  - apply (proj1 (SFleb_B2Q _ _ Vl V Fl Fr)). exact L1.
  - apply (proj1 (SFleb_B2Q _ _ V Vh Fr Fh)). exact L2.
Qed.

Lemma zero_exact : B2Q (B64.of_Z 0) == 0.
Proof. reflexivity. Qed.

Section RangesOnBinary64.

#[local] Existing Instance B64_number.

(** A double in a range of integers is a number in that range. *)
Lemma in_range_B2Q (lo hi : Z) (x : B64.t) :
  (Z.abs lo <= 2 ^ 53)%Z -> (Z.abs hi <= 2 ^ 53)%Z ->
  is_double x -> in_range lo hi x ->
  B64_is_number x = true /\ inject_Z lo <= B2Q x /\ B2Q x <= inject_Z hi.
Proof.
  intros Hlo Hhi V [L H]. cbn [leb of_Z B64_number] in L, H.
  destruct (of_Z_exact lo Hlo) as [Fl El].
  destruct (of_Z_exact hi Hhi) as [Fh Eh].
  assert (Fx : B64_is_number x = true).
  { destruct x as [s|[|]| |s m e]; try reflexivity.
    - destruct (B64.of_Z lo); discriminate.
    - destruct (B64.of_Z hi); discriminate.
    - destruct (B64.of_Z lo); discriminate. }
  split; [exact Fx|]. split.
  - rewrite <- El. apply (proj1 (SFleb_B2Q _ _ (of_Z_double lo) V Fl Fx)).
    exact L.
  - rewrite <- Eh. apply (proj1 (SFleb_B2Q _ _ V (of_Z_double hi) Fx Fh)).
    exact H.
Qed.

Lemma hundred_finite :
  exists (s : bool) (m : positive) (e : Z), B64.of_Z 100 = S754_finite s m e.
Proof. repeat eexists. Qed.

End RangesOnBinary64.

(** ** Rounding to nearest *)

Lemma rounding_comp (v v' : Q) (m' e' m1 : Z) :
  v == v' -> rounding v m' e' m1 -> rounding v' m' e' m1.
Proof.
  intros E [Lo Hi Rg Em Nm Ch]. split; try assumption.
  - rewrite <- E. exact Lo.
  - rewrite <- E. exact Hi.
  - destruct Ch as [[A B]|[A B]]; [left|right]; split; try assumption;
      rewrite <- E; exact B.
Qed.

Lemma rounds_comp (v v' : Q) (r : B64.t) :
  v == v' -> rounds v r -> rounds v' r.
Proof.
  intros E [(Z0 & F & B)|(m' & e' & m1 & R & ->)].
  - left. split; [rewrite <- E; exact Z0|]. split; assumption.
  - right. exists m', e', m1. split; [|reflexivity].
    exact (rounding_comp _ _ _ _ _ E R).
Qed.

Lemma SFmul_rounds (x y : B64.t) :
  is_double x -> is_double y ->
  B64_is_number x = true -> B64_is_number y = true ->
  0 <= B2Q x -> 0 <= B2Q y ->
  rounds (B2Q x * B2Q y) (SFmul 53 1024 x y).
Proof.
  intros Vx Vy Fx Fy Px Py.
  destruct x as [sx|sx| |sx mx ex]; try discriminate;
    destruct y as [sy|sy| |sy my ey]; try discriminate;
    try (left; cbn [SFmul B2Q]; split; [ring|split; reflexivity]).
  apply is_double_finite in Vx, Vy.
  pose proof (F2Q_pos (Zpos mx) ex ltac:(lia)) as Qx.
  pose proof (F2Q_pos (Zpos my) ey ltac:(lia)) as Qy.
  rewrite B2Q_finite in Px, Py.
  destruct sx; [exfalso; lra|]. destruct sy; [exfalso; lra|].
  right. destruct (SFmul_rounding false false mx my ex ey Vx Vy)
    as (m' & e' & m1 & R & E).
  exists m', e', m1. split; [|exact E].
  apply (rounding_comp (F2Q (Zpos mx) ex * F2Q (Zpos my) ey)); [|exact R].
  rewrite !B2Q_finite. reflexivity.
Qed.

Lemma SFdiv_rounds (x : B64.t) (my : positive) (ey : Z) :
  is_double x -> B64_is_number x = true -> 0 <= B2Q x ->
  rounds (B2Q x / B2Q (S754_finite false my ey))
    (SFdiv 53 1024 x (S754_finite false my ey)).
Proof.
  intros Vx Fx Px.
  destruct x as [sx|sx| |sx mx ex]; try discriminate.
  - left. cbn [SFdiv]. split; [cbn [B2Q]; unfold Qdiv; ring|].
    split; reflexivity.
  - pose proof (F2Q_pos (Zpos mx) ex ltac:(lia)) as Qx.
    rewrite B2Q_finite in Px. destruct sx; [exfalso; lra|].
    right. destruct (SFdiv_rounding false false mx my ex ey)
      as (m' & e' & m1 & R & E).
    exists m', e', m1. split; [|exact E].
    apply (rounding_comp (F2Q (Zpos mx) ex / F2Q (Zpos my) ey)); [|exact R].
    rewrite !B2Q_finite. reflexivity.
Qed.

Lemma F2Q_twice_plus (m e : Z) : F2Q (2 * m + 1) e == 2 * F2Q m e + bpow e.
Proof.
  unfold F2Q. rewrite inject_Z_plus, inject_Z_mult.
  change (inject_Z 1) with 1. change (inject_Z 2) with 2. ring.
Qed.

Lemma F2Q_twice_minus (m e : Z) : F2Q (2 * m - 1) e == 2 * F2Q m e - bpow e.
Proof.
  replace (2 * m - 1)%Z with (2 * m + - (1))%Z by lia.
  rewrite F2Q_plus, F2Q_opp, F2Q_1. unfold F2Q. rewrite inject_Z_mult.
  change (inject_Z 2) with 2. ring.
Qed.

Lemma F2Q_succ (m e : Z) : F2Q (m + 1) e == F2Q m e + bpow e.
Proof. rewrite F2Q_plus, F2Q_1. reflexivity. Qed.

(** The rounded mantissa is within half a unit of the number. *)
Lemma rounding_error (v : Q) (m' e' m1 : Z) :
  rounding v m' e' m1 ->
  F2Q (2 * m1 - 1) e' <= 2 * v /\ 2 * v <= F2Q (2 * m1 + 1) e'.
Proof.
  intros [Lo Hi Rg Em Nm Ch].
  pose proof (bpow_pos e') as P.
  rewrite F2Q_twice_minus, F2Q_twice_plus.
  rewrite F2Q_twice_plus, F2Q_succ in *.
  destruct Ch as [[-> C]|[-> C]]; rewrite ?F2Q_succ; lra.
Qed.

(** A rounding overflows only from the middle of the last double and
    [2^1024] on. *)
Lemma rounding_overflow (v : Q) (m' e' m1 : Z) :
  rounding v m' e' m1 ->
  B64_is_number (pack false m1 e') = false ->
  bpow 1024 - bpow 970 <= v.
Proof.
  intros R F. pose proof R as [Lo Hi Rg Em Nm Ch].
  destruct (rounding_bounds _ _ _ _ R) as (B & N & Pv).
  assert (K : (m1 = 2 ^ 53 /\ 971 <= e')%Z \/ (972 <= e')%Z).
  { unfold pack in F. destruct m1 as [|p|p]; try discriminate; [|lia].
    destruct (Z.eqb_spec (Zpos p) (2 ^ 53)) as [E|NE].
    - destruct (Z.leb_spec (e' + 1) 971); [discriminate|]. left. lia.
    - destruct (Z.leb_spec e' 971); [discriminate|]. right. lia. }
  assert (H970 : bpow 1024 == F2Q (2 ^ 54) 970).
  { unfold F2Q. rewrite <- (bpow_Z 54) by lia. rewrite <- bpow_plus.
    reflexivity. }
  destruct K as [[E L]|L].
  - destruct Ch as [[A _]|[A C]]; [lia|].
    assert (E' : m' = (2 ^ 53 - 1)%Z) by lia.
    assert (D : F2Q (2 * (2 ^ 54 - 1)) 970 <= F2Q (2 * m' + 1) e').
    { apply (F2Q_le_iff _ _ _ _ 970); try lia.
      replace (970 - 970)%Z with 0%Z by lia. rewrite E'.
      assert (2 ^ 1 <= 2 ^ (e' - 970))%Z by (apply Z.pow_le_mono_r; lia).
      change (2 ^ 1)%Z with 2%Z in *. change (2 ^ 0)%Z with 1%Z. nia. }
    assert (D2 : F2Q (2 * (2 ^ 54 - 1)) 970
                 == 2 * F2Q (2 ^ 54) 970 - 2 * bpow 970).
    { replace (2 * (2 ^ 54 - 1))%Z with (2 * 2 ^ 54 + - (2))%Z by lia.
      rewrite F2Q_plus, F2Q_opp. unfold F2Q. rewrite inject_Z_mult.
      change (inject_Z 2) with 2. ring. }
    rewrite H970. lra.
  - assert (M : (2 ^ 52 <= m')%Z) by (apply Nm; lia).
    assert (D : F2Q (2 ^ 54) 970 <= F2Q m' e').
    { apply (F2Q_le_iff _ _ _ _ 970); try lia.
      replace (970 - 970)%Z with 0%Z by lia.
      assert (2 ^ 2 <= 2 ^ (e' - 970))%Z by (apply Z.pow_le_mono_r; lia).
      change (2 ^ 2)%Z with 4%Z in *. change (2 ^ 0)%Z with 1%Z.
      change (2 ^ 54)%Z with (4 * 2 ^ 52)%Z. nia. }
    pose proof (bpow_pos 970). rewrite H970. lra.
Qed.

Lemma rounds_finite (v : Q) (r : B64.t) :
  rounds v r -> v < bpow 1024 - bpow 970 -> B64_is_number r = true.
Proof.
  intros [(_ & F & _)|(m' & e' & m1 & R & ->)] L; [exact F|].
  destruct (B64_is_number (pack false m1 e')) eqn:F; [reflexivity|].
  pose proof (rounding_overflow _ _ _ _ R F). lra.
Qed.

(** A rounding is within half a unit [E] of the last place of the number,
    and the unit is [2^-1074] or at most the number over [2^52]. *)
Lemma rounds_value (v : Q) (r : B64.t) :
  rounds v r -> B64_is_number r = true ->
  exists E : Q,
    0 < E /\ 2 * B2Q r <= 2 * v + E /\ 2 * v <= 2 * B2Q r + E /\
    (E == bpow (-1074) \/ bpow 52 * E <= v).
Proof.
  intros [(Z0 & _ & B)|(m' & e' & m1 & R & ->)] F.
  - exists (bpow (-1074)). pose proof (bpow_pos (-1074)).
    split; [assumption|]. split; [lra|]. split; [lra|]. left. reflexivity.
  - exists (bpow e'). pose proof (bpow_pos e') as P.
    destruct (rounding_bounds _ _ _ _ R) as (B & N & Pv).
    pose proof (pack_finite_B2Q false m1 e' B N F) as E. cbn beta iota in E.
    destruct (rounding_error _ _ _ _ R) as [E1 E2].
    pose proof R as [Lo Hi Rg Em Nm Ch].
    split; [exact P|]. rewrite E.
    rewrite F2Q_twice_minus in E1. rewrite F2Q_twice_plus in E2.
    split; [lra|]. split; [lra|].
    destruct (Z.eq_dec e' (-1074)) as [->|NE]; [left; reflexivity|right].
    assert (M : (2 ^ 52 <= m')%Z) by (apply Nm; lia).
    eapply Qle_trans; [|exact Lo].
    rewrite (bpow_Z 52) by lia. unfold F2Q.
    apply Qmult_le_compat_r; [|lra]. rewrite <- Zle_Qle. exact M.
Qed.

Lemma finite_double_below (f : B64.t) (v : Q) (m' e' : Z) :
  is_double f -> B64_is_number f = true ->
  (0 <= m')%Z -> ((-1074 < e')%Z -> (2 ^ 52 <= m')%Z) -> (-1074 <= e')%Z ->
  B2Q f < F2Q (m' + 1) e' -> B2Q f <= F2Q m' e'.
Proof.
  intros V F M N E L.
  pose proof (F2Q_nonneg m' e' M) as P0.
  destruct f as [s|s| |s m e]; try discriminate.
  - exact P0.
  - apply is_double_finite in V. rewrite B2Q_finite in *.
    pose proof (F2Q_pos (Zpos m) e ltac:(lia)) as Pm.
    destruct s; [lra|].
    destruct V as (Ve & Vm & Vn).
    apply grid_below; try assumption; lia.
Qed.

(** No double below the number is nearer to it than its rounding is. *)
Lemma rounds_nearest (v : Q) (r f : B64.t) :
  rounds v r -> B64_is_number r = true ->
  is_double f -> B64_is_number f = true -> B2Q f <= v ->
  B2Q r - v <= v - B2Q f.
Proof.
  intros [(Z0 & _ & B)|(m' & e' & m1 & R & ->)] Fr V F L.
  - lra.
  - destruct (rounding_bounds _ _ _ _ R) as (B & N & Pv).
    pose proof (pack_finite_B2Q false m1 e' B N Fr) as E. cbn beta iota in E.
    pose proof R as [Lo Hi Rg Em Nm Ch].
    rewrite E.
    destruct Ch as [[-> C]|[-> C]]; [lra|].
    assert (Lf : B2Q f <= F2Q m' e').
    { apply finite_double_below; try assumption; try lia. lra. }
    pose proof (bpow_pos e') as P.
    rewrite F2Q_twice_plus in C. rewrite F2Q_succ. lra.
Qed.

(** A number below the middle of a double and the next one rounds to that
    double at most. *)
Lemma rounds_below_midpoint (v : Q) (r t : B64.t) (m0 e0 : Z) :
  rounds v r -> is_double r ->
  is_double t -> B64_is_number t = true -> B2Q t == F2Q m0 e0 ->
  (0 <= m0)%Z -> ((-1074 < e0)%Z -> (2 ^ 52 <= m0)%Z) -> (-1074 <= e0)%Z ->
  2 * v < F2Q (2 * m0 + 1) e0 ->
  SFleb r t = true.
Proof.
  intros [(Z0 & F & B)|(m' & e' & m1 & R & ->)] Vr Vt Ft Et M0 N0 E0 L.
  - apply SFleb_B2Q; try assumption. rewrite B, Et. apply F2Q_nonneg. exact M0.
  - destruct (Qlt_le_dec (B2Q t) v) as [G|G].
    2:{ apply (pack_false_above v m' e' m1); assumption. }
    pose proof R as [Lo Hi Rg Em Nm Ch].
    pose proof (bpow_pos e') as P. pose proof (bpow_pos e0) as P0.
    assert (A1 : B2Q t <= F2Q m' e').
    { apply finite_double_below; try assumption; try lia. lra. }
    assert (X0 : F2Q (2 * m0 + 1) e0 == 2 * F2Q m0 e0 + bpow e0).
    { unfold F2Q. rewrite inject_Z_plus, inject_Z_mult.
      change (inject_Z 1) with 1. change (inject_Z 2) with 2. ring. }
    assert (X1 : F2Q (m0 + 1) e0 == F2Q m0 e0 + bpow e0).
    { rewrite F2Q_plus, F2Q_1. reflexivity. }
    assert (X2 : F2Q (2 * m' + 1) e' == 2 * F2Q m' e' + bpow e').
    { unfold F2Q. rewrite inject_Z_plus, inject_Z_mult.
      change (inject_Z 1) with 1. change (inject_Z 2) with 2. ring. }
    assert (A2 : F2Q m' e' <= F2Q m0 e0).
    { destruct (Qlt_le_dec (F2Q m0 e0) (F2Q m' e')) as [G2|G2]; [|exact G2].
      exfalso.
      assert (Pm : (0 < m')%Z).
      { apply (F2Q_lt 0 m' e'). rewrite F2Q_0.
        pose proof (F2Q_nonneg m0 e0 M0). lra. }
      pose proof (grid_above m' e' m0 e0 ltac:(lia) Em M0 N0 E0 G2) as G3.
      lra. }
    assert (A3 : F2Q m' e' == F2Q m0 e0) by lra.
    destruct Ch as [[-> C]|[-> C]].
    + apply (pack_false_above (F2Q m' e') m' e' m'); try assumption.
      * split; try assumption; try lra.
        left. split; [reflexivity|]. rewrite X2. lra.
      * lra.
    + exfalso.
      assert (B1 : bpow e' < bpow e0) by lra.
      assert (Le : (e' < e0)%Z).
      { destruct (Z_lt_le_dec e' e0) as [K|K]; [exact K|].
        pose proof (bpow_le _ _ K). lra. }
      assert (M : (2 ^ 52 <= m0)%Z) by (apply N0; lia).
      rewrite (F2Q_align m0 e0 e') in A3 by lia.
      assert (m' <= m0 * 2 ^ (e0 - e'))%Z by (apply (F2Q_le _ _ e'); lra).
      assert (m0 * 2 ^ (e0 - e') <= m')%Z by (apply (F2Q_le _ _ e'); lra).
      assert (2 ^ 1 <= 2 ^ (e0 - e'))%Z by (apply Z.pow_le_mono_r; lia).
      change (2 ^ 1)%Z with 2%Z in *. nia.
Qed.

(** Fifty odd multiples of a unit that the mantissa of a double fills are
    not doubles: they have more than 53 bits. *)
Lemma odd_multiple_is_no_double (mx ex m0 e0 k : Z) :
  canon mx ex -> (2 ^ 52 <= m0)%Z ->
  (k = 2 * m0 + 1 \/ k = 2 * m0 - 1)%Z ->
  ~ F2Q mx ex == 50 * F2Q k e0.
Proof.
  intros (Ex & Mx & Nx) M0 K E.
  assert (E' : F2Q mx ex == F2Q (25 * k) (e0 + 1)).
  { rewrite E. unfold F2Q. rewrite bpow_succ, inject_Z_mult.
    change (inject_Z 25) with 25. ring. }
  clear E.
  destruct (Z_lt_le_dec ex (e0 + 1)) as [L|L].
  - rewrite (F2Q_align (25 * k) (e0 + 1) ex) in E' by lia.
    assert (A : (mx <= 25 * k * 2 ^ (e0 + 1 - ex))%Z)
      by (apply (F2Q_le _ _ ex); lra).
    assert (B : (25 * k * 2 ^ (e0 + 1 - ex) <= mx)%Z)
      by (apply (F2Q_le _ _ ex); lra).
    assert (2 ^ 1 <= 2 ^ (e0 + 1 - ex))%Z by (apply Z.pow_le_mono_r; lia).
    change (2 ^ 1)%Z with 2%Z in *. nia.
  - rewrite (F2Q_align mx ex (e0 + 1)) in E' by lia.
    assert (A : (mx * 2 ^ (ex - (e0 + 1)) <= 25 * k)%Z)
      by (apply (F2Q_le _ _ (e0 + 1)); lra).
    assert (B : (25 * k <= mx * 2 ^ (ex - (e0 + 1)))%Z)
      by (apply (F2Q_le _ _ (e0 + 1)); lra).
    destruct (Z.eq_dec ex (e0 + 1)) as [Q|Q].
    + replace (ex - (e0 + 1))%Z with 0%Z in * by lia.
      change (2 ^ 0)%Z with 1%Z in *. lia.
    + replace (ex - (e0 + 1))%Z with (1 + (ex - (e0 + 1) - 1))%Z in * by lia.
      rewrite Z.pow_add_r in * by lia. change (2 ^ 1)%Z with 2%Z in *.
      set (p := (2 ^ (ex - (e0 + 1) - 1))%Z) in *.
      set (q := (mx * p)%Z).
      assert (Hq : (mx * (2 * p) = 2 * q)%Z) by (unfold q; ring).
      rewrite Hq in *. lia.
Qed.

(** ** The TGE amount is at most the token amount *)

Lemma hundred_positive :
  exists (my : positive) (ey : Z), B64.of_Z 100 = S754_finite false my ey.
Proof. do 2 eexists. reflexivity. Qed.

Lemma SFdiv_100_rounds (x : B64.t) :
  is_double x -> B64_is_number x = true -> 0 <= B2Q x ->
  rounds (B2Q x / 100) (SFdiv 53 1024 x (B64.of_Z 100)).
Proof.
  intros V F P. destruct hundred_positive as (my & ey & E).
  pose proof hundred_exact as H. rewrite E in *.
  apply (rounds_comp (B2Q x / B2Q (S754_finite false my ey))).
  - rewrite H. reflexivity.
  - apply SFdiv_rounds; assumption.
Qed.

Lemma SFdiv_100_faithful (x : B64.t) :
  is_double x -> B64_is_number x = true ->
  faithful (B2Q x / 100) (SFdiv 53 1024 x (B64.of_Z 100)).
Proof.
  intros V F. apply (faithful_comp (B2Q x / B2Q (B64.of_Z 100))).
  - rewrite hundred_exact. reflexivity.
  - apply SFdiv_faithful; try assumption. exact hundred_finite.
Qed.

(** A hundredth of a number at least 0 is a number between 0 and it. *)
Lemma SFdiv_100_amount (x : B64.t) :
  is_double x -> B64_is_number x = true -> 0 <= B2Q x ->
  B64_is_number (SFdiv 53 1024 x (B64.of_Z 100)) = true /\
  0 <= B2Q (SFdiv 53 1024 x (B64.of_Z 100)) /\
  B2Q (SFdiv 53 1024 x (B64.of_Z 100)) <= B2Q x.
Proof.
  intros V F P.
  destruct (faithful_between _ _ (B64.of_Z 0) x (SFdiv_100_faithful x V F)
              (of_Z_double _) eq_refl V F) as (F2 & L & H).
  - rewrite zero_exact. apply Qle_shift_div_l; [reflexivity|]. lra.
  - apply Qle_shift_div_r; [reflexivity|]. lra.
  - rewrite zero_exact in L. auto.
Qed.

(** The rounding of a number at least 0 is at least 0. *)
Lemma faithful_at_least_0 (v : Q) (r : B64.t) :
  faithful v r -> B64_is_number r = true -> 0 <= v -> 0 <= B2Q r.
Proof.
  intros (V & _ & Lo & _) F P.
  pose proof (Lo (B64.of_Z 0) (of_Z_double _) eq_refl P) as L.
  apply (proj1 (SFleb_B2Q (B64.of_Z 0) r (of_Z_double 0) V eq_refl F)) in L.
  rewrite zero_exact in L. exact L.
Qed.

(** A double between two numbers is a number. *)
Lemma between_is_number (lo r hi : B64.t) :
  B64_is_number lo = true -> B64_is_number hi = true ->
  SFleb lo r = true -> SFleb r hi = true -> B64_is_number r = true.
Proof.
  intros Fl Fh L H.
  destruct r as [s|[|]| |s m e]; try reflexivity.
  - destruct lo as [sl|sl| |sl ml el]; try discriminate;
      try destruct sl; discriminate.
  - destruct hi as [sh|sh| |sh mh eh]; try discriminate;
      try destruct sh; discriminate.
  - discriminate.
Qed.

Lemma tiny_unit : bpow (-1074) < 1.
Proof. rewrite <- bpow_0. apply bpow_lt. lia. Qed.

Lemma no_overflow_below_2_60 : inject_Z (2 ^ 60) < bpow 1024 - bpow 970.
Proof.
  assert (H : bpow 1024 == F2Q (2 ^ 54) 970).
  { unfold F2Q. rewrite <- (bpow_Z 54) by lia. rewrite <- bpow_plus.
    reflexivity. }
  rewrite H, <- (F2Q_1 970).
  assert (E : inject_Z (2 ^ 60) == F2Q (2 ^ 60) 0).
  { unfold F2Q. rewrite bpow_0. ring. }
  assert (L : F2Q (2 ^ 60) 0 < F2Q (2 ^ 53) 970).
  { apply (F2Q_lt_iff _ _ _ _ 0); lia. }
  assert (D : F2Q (2 ^ 54) 970 == F2Q (2 ^ 53) 970 + F2Q (2 ^ 53) 970).
  { rewrite <- F2Q_plus. reflexivity. }
  pose proof (F2Q_lt 1 (2 ^ 53) 970) as [_ K]. specialize (K ltac:(lia)).
  lra.
Qed.

(** Below [2^52]: the two roundings that follow the exact product move it
    by less than 1 in all. *)
Lemma small_token_amount (tok g : B64.t) (T : Z) :
  is_double tok -> B64_is_number tok = true -> B2Q tok == inject_Z T ->
  (0 <= T < 2 ^ 52)%Z ->
  is_double g -> B64_is_number g = true -> 0 <= B2Q g -> B2Q g <= 100 ->
  B64_is_number
    (SFdiv 53 1024 (SFmul 53 1024 tok g) (B64.of_Z 100)) = true /\
  0 <= B2Q (SFdiv 53 1024 (SFmul 53 1024 tok g) (B64.of_Z 100)) /\
  B2Q (SFdiv 53 1024 (SFmul 53 1024 tok g) (B64.of_Z 100)) < inject_Z T + 1.
Proof.
  intros Vt Ft Et HT Vg Fg G0 G100.
  assert (T0 : 0 <= inject_Z T)
    by (change 0 with (inject_Z 0); rewrite <- Zle_Qle; lia).
  assert (T1 : inject_Z T <= 4503599627370495).
  { change 4503599627370495 with (inject_Z (2 ^ 52 - 1)).
    rewrite <- Zle_Qle. lia. }
  pose proof no_overflow_below_2_60 as Big.
  change (inject_Z (2 ^ 60)) with 1152921504606846976 in Big.
  pose proof tiny_unit as Tiny.
  pose proof (bpow_Z 52 ltac:(lia)) as B52.
  change (inject_Z (2 ^ 52)) with 4503599627370496 in B52.
  set (Y1 := SFmul 53 1024 tok g).
  assert (VY1 : is_double Y1) by (apply SFmul_double; assumption).
  assert (Pt : 0 <= B2Q tok) by lra.
  pose proof (SFmul_rounds tok g Vt Vg Ft Fg Pt G0) as R1. fold Y1 in R1.
  pose proof (SFmul_faithful tok g Vt Vg Ft Fg) as Fa1. fold Y1 in Fa1.
  set (v1 := B2Q tok * B2Q g) in *.
  assert (V0 : 0 <= v1) by (apply Qmult_le_0_compat; assumption).
  assert (V1 : v1 <= 100 * inject_Z T).
  { unfold v1. rewrite Et, (Qmult_comm 100).
    apply Qmult_le_compat_nonneg; split; lra. }
  assert (FY1 : B64_is_number Y1 = true) by (apply (rounds_finite v1); [exact R1|lra]).
  assert (PY1 : 0 <= B2Q Y1)
    by exact (faithful_at_least_0 _ _ Fa1 FY1 V0).
  destruct (rounds_value v1 Y1 R1 FY1) as (E1 & PE1 & U1 & _ & C1).
  assert (HY1 : B2Q Y1 <= 100 * inject_Z T + 50).
  { destruct C1 as [C1|C1]; [rewrite C1 in *; lra|].
    rewrite B52 in C1. lra. }
  set (Y2 := SFdiv 53 1024 Y1 (B64.of_Z 100)).
  pose proof (SFdiv_100_rounds Y1 VY1 FY1 PY1) as R2. fold Y2 in R2.
  destruct (SFdiv_100_amount Y1 VY1 FY1 PY1) as (FY2 & PY2 & _). fold Y2 in FY2, PY2.
  set (w2 := B2Q Y1 / 100) in *.
  assert (W : w2 * 100 == B2Q Y1) by (unfold w2; field).
  destruct (rounds_value w2 Y2 R2 FY2) as (E2 & PE2 & U2 & _ & C2).
  split; [exact FY2|]. split; [exact PY2|].
  destruct C2 as [C2|C2]; [rewrite C2 in *; lra|].
  rewrite B52 in C2. lra.
Qed.

(** The largest double: a hundred times its hundredth is below it. *)
Lemma hundredth_of_the_largest_double :
  100 * B2Q (SFdiv 53 1024 (S754_finite false 9007199254740991 971)
               (B64.of_Z 100))
  < B2Q (S754_finite false 9007199254740991 971).
Proof. vm_compute. reflexivity. Qed.

(** From [2^52] on: the token amount is itself the rounded hundredth of a
    double, which keeps a hundred times it near a double. *)
Lemma large_token_amount (X1 g : B64.t) :
  is_double X1 -> B64_is_number X1 = true -> 0 <= B2Q X1 ->
  inject_Z (2 ^ 52) <= B2Q (SFdiv 53 1024 X1 (B64.of_Z 100)) ->
  is_double g -> B64_is_number g = true -> 0 <= B2Q g -> B2Q g <= 100 ->
  B64_is_number
    (SFdiv 53 1024
       (SFmul 53 1024 (SFdiv 53 1024 X1 (B64.of_Z 100)) g)
       (B64.of_Z 100)) = true /\
  0 <= B2Q (SFdiv 53 1024
              (SFmul 53 1024 (SFdiv 53 1024 X1 (B64.of_Z 100)) g)
              (B64.of_Z 100)) /\
  B2Q (SFdiv 53 1024
         (SFmul 53 1024 (SFdiv 53 1024 X1 (B64.of_Z 100)) g)
         (B64.of_Z 100))
  <= B2Q (SFdiv 53 1024 X1 (B64.of_Z 100)).
Proof.
  intros VX1 FX1 PX1 Large Vg Fg G0 G100.
  change (inject_Z (2 ^ 52)) with 4503599627370496 in Large.
  pose proof (SFdiv_100_rounds X1 VX1 FX1 PX1) as R0.
  destruct (SFdiv_100_amount X1 VX1 FX1 PX1) as (FX2 & PX2 & _).
  assert (VX2 : is_double (SFdiv 53 1024 X1 (B64.of_Z 100)))
    by apply SFdiv_double.
  set (X2 := SFdiv 53 1024 X1 (B64.of_Z 100)) in *.
  set (w0 := B2Q X1 / 100) in *.
  assert (W0 : w0 * 100 == B2Q X1) by (unfold w0; field).
  destruct R0 as [(_ & _ & B)|(m0' & e0 & m0 & R & EX2)]; [lra|].
  destruct (rounding_bounds _ _ _ _ R) as (Bm & Nm & _).
  assert (ET : B2Q X2 == F2Q m0 e0).
  { pose proof (pack_finite_B2Q false m0 e0 Bm Nm) as K.
    rewrite <- EX2 in K. exact (K FX2). }
  pose proof R as [Lo Hi Rg Em Nm' Ch].
  pose proof (bpow_pos e0) as Pe.
  assert (He : (-1074 < e0)%Z).
  { destruct (Z_lt_le_dec (-1074) e0) as [K|K]; [exact K|exfalso].
    assert (e0 = (-1074)%Z) by lia. subst e0.
    assert (F2Q m0 (-1074) <= F2Q (2 ^ 53) (-1074)) by (apply F2Q_le; lia).
    assert (F2Q (2 ^ 53) (-1074) < F2Q 1 0).
    { apply (F2Q_lt_iff _ _ _ _ (-1074)); lia. }
    rewrite F2Q_1, bpow_0 in *. lra. }
  assert (M0 : (2 ^ 52 <= m0)%Z) by (apply Nm; exact He).
  assert (M0' : (2 ^ 52 <= m0')%Z) by (apply Nm'; exact He).
  destruct (rounding_error _ _ _ _ R) as [Er1 Er2].
  rewrite F2Q_twice_minus in Er1. rewrite F2Q_twice_plus in Er2.
  assert (PX1' : 0 < B2Q X1).
  { assert (bpow e0 <= F2Q m0 e0).
    { rewrite <- F2Q_1. apply F2Q_le. lia. }
    lra. }
  destruct (double_positive X1 VX1 FX1 PX1') as (mx & ex & EX1 & Cx).
  assert (BX1 : B2Q X1 == F2Q (Zpos mx) ex) by (rewrite EX1; apply B2Q_finite).
  assert (Par1 : ~ B2Q X1 == 50 * (2 * F2Q m0 e0 + bpow e0)).
  { rewrite BX1, <- F2Q_twice_plus.
    apply (odd_multiple_is_no_double (Zpos mx) ex m0 e0 (2 * m0 + 1)); auto. }
  assert (Par2 : ~ B2Q X1 == 50 * (2 * F2Q m0 e0 - bpow e0)).
  { rewrite BX1, <- F2Q_twice_minus.
    apply (odd_multiple_is_no_double (Zpos mx) ex m0 e0 (2 * m0 - 1)); auto. }
  assert (S1 : B2Q X1 < 50 * (2 * F2Q m0 e0 + bpow e0)).
  { apply Qle_lteq in Er2. destruct (Qlt_le_dec (B2Q X1) (50 * (2 * F2Q m0 e0 + bpow e0))) as [K|K];
      [exact K|]. exfalso. apply Par1. lra. }
  assert (S2 : 50 * (2 * F2Q m0 e0 - bpow e0) < B2Q X1).
  { destruct (Qlt_le_dec (50 * (2 * F2Q m0 e0 - bpow e0)) (B2Q X1)) as [K|K];
      [exact K|]. exfalso. apply Par2. lra. }
  (* the product *)
  set (Y1 := SFmul 53 1024 X2 g).
  assert (VY1 : is_double Y1) by (apply SFmul_double; assumption).
  pose proof (SFmul_rounds X2 g VX2 Vg FX2 Fg PX2 G0) as R1. fold Y1 in R1.
  pose proof (SFmul_faithful X2 g VX2 Vg FX2 Fg) as Fa1. fold Y1 in Fa1.
  set (v1 := B2Q X2 * B2Q g) in *.
  assert (V0 : 0 <= v1) by (apply Qmult_le_0_compat; assumption).
  assert (V1 : v1 <= 100 * B2Q X2).
  { unfold v1. rewrite (Qmult_comm 100).
    apply Qmult_le_compat_nonneg; split; lra. }
  assert (K1 : B64_is_number Y1 = true /\
               B2Q Y1 < 50 * (2 * F2Q m0 e0 + bpow e0)).
  { destruct (Qlt_le_dec (B2Q X1) v1) as [G|G].
    - assert (FY1 : B64_is_number Y1 = true).
      { destruct (B64_is_number Y1) eqn:F; [reflexivity|exfalso].
        destruct R1 as [(_ & F' & _)|(m1' & e1 & m1 & R1 & EY1)];
          [congruence|].
        rewrite EY1 in F.
        pose proof (rounding_overflow _ _ _ _ R1 F) as Ov.
        assert (H970 : bpow 1024 == 18014398509481984 * bpow 970).
        { change 18014398509481984 with (inject_Z (2 ^ 54)).
          rewrite <- (bpow_Z 54) by lia. rewrite <- bpow_plus. reflexivity. }
        pose proof (bpow_pos 970) as P970.
        assert (U : 4503599627370496 * bpow e0 <= w0).
        { eapply Qle_trans; [|exact Lo].
          change 4503599627370496 with (inject_Z (2 ^ 52)).
          unfold F2Q. apply Qmult_le_compat_r; [|lra].
          rewrite <- Zle_Qle. exact M0'. }
        assert (Top : F2Q (2 ^ 53 - 2) 971 < F2Q (Zpos mx) ex).
        { rewrite <- BX1.
          assert (D : F2Q (2 ^ 53 - 2) 971 == 18014398509481980 * bpow 970).
          { unfold F2Q. change 971%Z with (970 + 1)%Z. rewrite bpow_succ.
            change (inject_Z (2 ^ 53 - 2)) with 9007199254740990. ring. }
          rewrite D. lra. }
        destruct Cx as (Ex & Mx & Nx).
        assert (ex = 971%Z).
        { destruct (Z.eq_dec ex 971) as [Q|Q]; [exact Q|exfalso].
          apply (F2Q_lt_iff _ _ _ _ ex) in Top; try lia.
          replace (ex - ex)%Z with 0%Z in Top by lia.
          change (2 ^ 0)%Z with 1%Z in Top.
          assert (2 ^ 1 <= 2 ^ (971 - ex))%Z
            by (apply Z.pow_le_mono_r; lia).
          change (2 ^ 1)%Z with 2%Z in *. nia. }
        subst ex. apply F2Q_lt in Top.
        assert (mx = 9007199254740991%positive) by lia. subst mx.
        pose proof hundredth_of_the_largest_double as Edge.
        rewrite <- EX1 in Edge. fold X2 in Edge. lra. }
      split; [exact FY1|].
      pose proof (rounds_nearest v1 Y1 X1 R1 FY1 VX1 FX1 ltac:(lra)) as Nr.
      lra.
    - destruct (faithful_between _ _ (B64.of_Z 0) X1 Fa1
                  (of_Z_double _) eq_refl VX1 FX1) as (FY1 & _ & HY1).
      + rewrite zero_exact. exact V0.
      + exact G.
      + split; [exact FY1|]. lra. }
  destruct K1 as [FY1 HY1].
  assert (PY1 : 0 <= B2Q Y1)
    by exact (faithful_at_least_0 _ _ Fa1 FY1 V0).
  (* the hundredth of the product *)
  set (Y2 := SFdiv 53 1024 Y1 (B64.of_Z 100)).
  assert (VY2 : is_double Y2) by apply SFdiv_double.
  pose proof (SFdiv_100_rounds Y1 VY1 FY1 PY1) as R2. fold Y2 in R2.
  destruct (SFdiv_100_amount Y1 VY1 FY1 PY1) as (FY2 & PY2 & _).
  fold Y2 in FY2, PY2.
  set (w2 := B2Q Y1 / 100) in *.
  assert (W2 : w2 * 100 == B2Q Y1) by (unfold w2; field).
  assert (Le : SFleb Y2 X2 = true).
  { apply (rounds_below_midpoint w2 Y2 X2 m0 e0); try assumption; try lia.
    rewrite F2Q_twice_plus. lra. }
  split; [exact FY2|]. split; [exact PY2|].
  apply SFleb_B2Q in Le; assumption.
Qed.

(** A double of at least [2^52] is a whole number. *)
Lemma double_from_2_52_is_integer (x : B64.t) :
  is_double x -> B64_is_number x = true -> inject_Z (2 ^ 52) <= B2Q x ->
  integer_valued x.
Proof.
  intros V F L.
  assert (P : 0 < B2Q x).
  { eapply Qlt_le_trans; [|exact L]. reflexivity. }
  destruct (double_positive x V F P) as (m & e & -> & (Ce & Cm & Cn)).
  apply finite_exponent_integer.
  destruct (Z_lt_le_dec e 0) as [K|K]; [exfalso|exact K].
  rewrite B2Q_finite in L.
  assert (F2Q (Zpos m) e < F2Q (2 ^ 52) 0).
  { apply (F2Q_lt_iff _ _ _ _ e); try lia.
    replace (e - e)%Z with 0%Z by lia. change (2 ^ 0)%Z with 1%Z.
    assert (2 ^ 1 <= 2 ^ (0 - e))%Z by (apply Z.pow_le_mono_r; lia).
    change (2 ^ 1)%Z with 2%Z in *. nia. }
  assert (F2Q (2 ^ 52) 0 == inject_Z (2 ^ 52)).
  { unfold F2Q. rewrite bpow_0. ring. }
  lra.
Qed.

(** The token amount of a category is a number at least 0, and so is the
    part of it unlocked at TGE, which is at most the token amount: for every
    double [x1 >= 0] in the place of [totalSupply * percentage] and every
    TGE percentage from 0 to 100. *)
Lemma tge_amount_at_most_token_amount (x1 g : B64.t) :
  is_double x1 -> B64_is_number x1 = true -> 0 <= B2Q x1 ->
  is_double g -> B64_is_number g = true -> 0 <= B2Q g -> B2Q g <= 100 ->
  amount (B64.floor (SFdiv 53 1024 x1 (B64.of_Z 100))) /\
  amount (B64.floor
            (SFdiv 53 1024
               (SFmul 53 1024
                  (B64.floor (SFdiv 53 1024 x1 (B64.of_Z 100))) g)
               (B64.of_Z 100))) /\
  B2Q (B64.floor
         (SFdiv 53 1024
            (SFmul 53 1024
               (B64.floor (SFdiv 53 1024 x1 (B64.of_Z 100))) g)
            (B64.of_Z 100)))
  <= B2Q (B64.floor (SFdiv 53 1024 x1 (B64.of_Z 100))).
Proof.
  intros VX1 FX1 PX1 Vg Fg G0 G100.
  destruct (SFdiv_100_amount x1 VX1 FX1 PX1) as (FX2 & PX2 & _).
  assert (VX2 : is_double (SFdiv 53 1024 x1 (B64.of_Z 100)))
    by apply SFdiv_double.
  destruct (floor_spec _ VX2 FX2) as (Vt & Ft & Et).
  set (T := Qfloor (B2Q (SFdiv 53 1024 x1 (B64.of_Z 100)))) in *.
  assert (T0 : (0 <= T)%Z).
  { unfold T. change 0%Z with (Qfloor 0). apply Qfloor_resp_le. exact PX2. }
  assert (T0q : 0 <= inject_Z T)
    by (change 0 with (inject_Z 0); rewrite <- Zle_Qle; exact T0).
  assert (K : B64_is_number
                (SFdiv 53 1024
                   (SFmul 53 1024
                      (B64.floor (SFdiv 53 1024 x1 (B64.of_Z 100))) g)
                   (B64.of_Z 100)) = true /\
              0 <= B2Q (SFdiv 53 1024
                          (SFmul 53 1024
                             (B64.floor (SFdiv 53 1024 x1 (B64.of_Z 100))) g)
                          (B64.of_Z 100)) /\
              B2Q (SFdiv 53 1024
                     (SFmul 53 1024
                        (B64.floor (SFdiv 53 1024 x1 (B64.of_Z 100))) g)
                     (B64.of_Z 100)) < inject_Z T + 1).
  { destruct (Z_lt_le_dec T (2 ^ 52)) as [S|L].
    - apply small_token_amount; try assumption. lia.
    - assert (Lq : inject_Z (2 ^ 52)
                   <= B2Q (SFdiv 53 1024 x1 (B64.of_Z 100))).
      { apply Qle_trans with (inject_Z T).
        - rewrite <- Zle_Qle. exact L.
        - apply Qfloor_le. }
      destruct (double_from_2_52_is_integer _ VX2 FX2 Lq) as [k Ek].
      assert (QT : T = k).
      { unfold T. rewrite (Qfloor_comp _ _ Ek). apply Qfloor_Z. }
      assert (Same : B64.floor (SFdiv 53 1024 x1 (B64.of_Z 100))
                     = SFdiv 53 1024 x1 (B64.of_Z 100)).
      { apply double_unique; try assumption.
        - rewrite Et, QT, Ek. reflexivity.
        - rewrite Et. assert (0 < inject_Z (2 ^ 52)) by reflexivity.
          assert (inject_Z (2 ^ 52) <= inject_Z T)
            by (rewrite <- Zle_Qle; exact L).
          lra. }
      rewrite Same.
      destruct (large_token_amount x1 g VX1 FX1 PX1 Lq Vg Fg G0 G100)
        as (A & B & C).
      split; [exact A|]. split; [exact B|].
      rewrite Same in Et. lra. }
  destruct K as (FY2 & PY2 & HY2).
  assert (VY2 : is_double
                  (SFdiv 53 1024
                     (SFmul 53 1024
                        (B64.floor (SFdiv 53 1024 x1 (B64.of_Z 100))) g)
                     (B64.of_Z 100))) by apply SFdiv_double.
  destruct (floor_spec _ VY2 FY2) as (Vg' & Fg' & Eg').
  set (Y2 := SFdiv 53 1024
               (SFmul 53 1024
                  (B64.floor (SFdiv 53 1024 x1 (B64.of_Z 100))) g)
               (B64.of_Z 100)) in *.
  assert (G0z : (0 <= Qfloor (B2Q Y2))%Z).
  { change 0%Z with (Qfloor 0). apply Qfloor_resp_le. exact PY2. }
  assert (G1z : (Qfloor (B2Q Y2) <= T)%Z).
  { pose proof (Qfloor_le (B2Q Y2)) as GL.
    assert (inject_Z (Qfloor (B2Q Y2)) < inject_Z (T + 1)).
    { rewrite inject_Z_plus. change (inject_Z 1) with 1. lra. }
    rewrite <- Zlt_Qlt in H. lia. }
  split; [|split].
  - split; [exact Vt|]. split; [exact Ft|]. rewrite Et. exact T0q.
  - split; [exact Vg'|]. split; [exact Fg'|]. rewrite Eg'.
    change 0 with (inject_Z 0). rewrite <- Zle_Qle. exact G0z.
  - rewrite Eg', Et. rewrite <- Zle_Qle. exact G1z.
Qed.

Section AmountsOnBinary64.

#[local] Existing Instance B64_number.

(** A product that is a number has two numbers for factors. *)
Lemma SFmul_is_number (x y : B64.t) :
  B64_is_number (SFmul 53 1024 x y) = true ->
  B64_is_number x = true /\ B64_is_number y = true.
Proof.
  destruct x as [sx|sx| |sx mx ex], y as [sy|sy| |sy my ey];
    try discriminate; auto.
Qed.

(** The token amount and the TGE amount of a category whose share of the
    supply does not overflow: numbers at least 0, the second at most the
    first. *)
Lemma amounts_in_order (supply : num) (data : DistributionData) :
  is_double supply -> leb (of_Z 1) supply = true ->
  is_double (percentage data) -> in_range 0 100 (percentage data) ->
  is_double (tge data) -> in_range 0 100 (tge data) ->
  B64_is_number (mul supply (percentage data)) = true ->
  amount (tokenAmount_of supply data) /\
  amount (tgeAmount_of supply data) /\
  B2Q (tgeAmount_of supply data) <= B2Q (tokenAmount_of supply data).
Proof.
  intros Vs Ls Vp Rp Vg Rg FX1.
  destruct (in_range_B2Q 0 100 _ ltac:(simpl; lia) ltac:(simpl; lia) Vp Rp)
    as (Fp & P1 & P2).
  destruct (in_range_B2Q 0 100 _ ltac:(simpl; lia) ltac:(simpl; lia) Vg Rg)
    as (Fg & G1 & G2).
  change (inject_Z 0) with 0 in *. change (inject_Z 100) with 100 in *.
  cbn [mul leb of_Z B64_number] in FX1, Ls. unfold B64.prec, B64.emax in FX1.
  destruct (SFmul_is_number _ _ FX1) as [Fs _].
  apply (proj1 (SFleb_B2Q _ _ (of_Z_double 1) Vs eq_refl Fs)) in Ls.
  rewrite (proj2 (of_Z_exact 1 ltac:(simpl; lia))) in Ls.
  change (inject_Z 1) with 1 in Ls.
  assert (PX1 : 0 <= B2Q (SFmul 53 1024 supply (percentage data))).
  { apply (faithful_at_least_0 (B2Q supply * B2Q (percentage data))).
    - apply SFmul_faithful; assumption.
    - exact FX1.
    - apply Qmult_le_0_compat; lra. }
  unfold tgeAmount_of, tokenAmount_of.
  cbn [mul div floor of_Z B64_number]. unfold B64.prec, B64.emax.
  apply tge_amount_at_most_token_amount; try assumption.
  apply SFmul_double; assumption.
Qed.

End AmountsOnBinary64.

Section ScheduleOnBinary64.

#[local] Existing Instance B64_number.

Lemma at_least_0_cases (x : B64.t) :
  at_least_0 x ->
  (B64_is_number x = true /\ 0 <= B2Q x) \/ x = S754_infinity false.
Proof.
  intros [V L].
  destruct x as [s|[|]| |s m e]; try discriminate.
  - left. split; [reflexivity|]. apply Qle_refl.
  - right. reflexivity.
  - left. split; [reflexivity|].
    apply (proj1 (SFleb_B2Q _ _ (of_Z_double 0) V eq_refl eq_refl)) in L.
    exact L.
Qed.

Lemma amount_at_least_0 (x : B64.t) : amount x -> at_least_0 x.
Proof.
  intros (V & F & P). split; [exact V|].
  apply (proj2 (SFleb_B2Q _ _ (of_Z_double 0) V eq_refl F)). exact P.
Qed.

(** Adding an amount at least 0 does not lower a running total at least
    0. *)
Lemma add_at_least_0 (x y : B64.t) :
  at_least_0 x -> at_least_0 y ->
  at_least_0 (SFadd 53 1024 x y) /\ SFleb x (SFadd 53 1024 x y) = true.
Proof.
  intros Hx Hy. pose proof Hx as [Vx Lx]. pose proof Hy as [Vy Ly].
  destruct (at_least_0_cases x Hx) as [[Fx Px]| ->];
    destruct (at_least_0_cases y Hy) as [[Fy Py]| ->].
  - destruct (SFadd_faithful x y Vx Vy Fx Fy) as (V & N & Lo & _).
    split; [split; [exact V|]|].
    + apply Lo; [apply of_Z_double|reflexivity|]. rewrite zero_exact. lra.
    + apply Lo; [exact Vx|exact Fx|]. lra.
  - destruct x as [[|]|[|]| |[|] m e]; try discriminate;
      (split; [split|]; reflexivity).
  - destruct y as [[|]|[|]| |[|] m e]; try discriminate;
      (split; [split|]; reflexivity).
  - split; [split|]; reflexivity.
Qed.

(** The monthly unlock [(tokenAmount - tgeAmount) / duration] is at least
    0 when the TGE amount is at most the token amount. *)
Lemma monthly_unlock_at_least_0 (tok g dur : B64.t) :
  amount tok -> amount g -> B2Q g <= B2Q tok ->
  is_double dur -> SFltb (B64.of_Z 0) dur = true ->
  at_least_0 (SFdiv 53 1024 (SFsub 53 1024 tok g) dur).
Proof.
  intros (Vt & Ft & Pt) (Vg & Fg & Pg) Le Vd Pd.
  split; [apply SFdiv_double|].
  pose proof (SFsub_double tok g Vt Vg) as Vr.
  destruct (faithful_between _ _ (B64.of_Z 0) tok
              (SFsub_faithful tok g Vt Vg Ft Fg)
              (of_Z_double 0) eq_refl Vt Ft) as (Fr & R0 & _).
  { rewrite zero_exact. lra. }
  { lra. }
  rewrite zero_exact in R0.
  set (r := SFsub 53 1024 tok g) in *.
  destruct dur as [[|]|[|]| |[|] md ed]; try discriminate.
  - destruct r as [[|]|[|]| |[|] mr er]; try discriminate; reflexivity.
  - destruct (SFdiv_faithful r (S754_finite false md ed) Vr Fr
                ltac:(eauto)) as (_ & _ & Lo & _).
    apply Lo; [apply of_Z_double|reflexivity|].
    rewrite zero_exact.
    pose proof (F2Q_pos (Zpos md) ed ltac:(lia)) as Pm.
    apply Qle_shift_div_l; [exact Pm|]. lra.
Qed.

(** *** The raw amounts stay at least 0 *)

Lemma Forall_set_nth (A : Type) (P : A -> Prop) (l : list A) (i : nat)
    (x : A) :
  Forall P l -> P x -> Forall P (set_nth l i x).
Proof.
  intros Hl Hx. revert i. induction Hl as [|y r Hy Hr IH]; intros [|j]; simpl;
    constructor; auto.
Qed.

Lemma add_raw_at_least_0 (s s' : list SchedulePoint) (i : nat) (x : num) :
  raws_at_least_0 s -> at_least_0 x -> add_raw s i x = Ok s' ->
  raws_at_least_0 s'.
Proof.
  unfold add_raw, raws_at_least_0. intros Hs Hx.
  destruct (nth_error s i) as [p|] eqn:E; [|discriminate].
  intros H; inversion H; subst; clear H.
  apply Forall_set_nth; [exact Hs|].
  cbn [rawCirculating]. apply add_at_least_0; [|exact Hx].
  rewrite Forall_forall in Hs. apply Hs. exact (nth_error_In _ _ E).
Qed.

Lemma vesting_loop_at_least_0 (fuel m : nat) (dur mu : num)
    (s s' : list SchedulePoint) :
  raws_at_least_0 s -> at_least_0 mu ->
  vesting_loop fuel m dur mu s = Ok s' -> raws_at_least_0 s'.
Proof.
  intros Hs Hmu. revert m s Hs.
  induction fuel as [|f IH]; intros m s Hs; rewrite vesting_loop_eq;
    destruct (leb (of_Z (Z.of_nat m)) dur); try discriminate.
  - intros H; inversion H; subst; exact Hs.
  - intros H. apply bind_Ok in H. destruct H as (s1 & E & H).
    apply (IH (S m) s1); [|exact H].
    exact (add_raw_at_least_0 s s1 m mu Hs Hmu E).
  - intros H; inversion H; subst; exact Hs.
Qed.

Lemma unlock_category_at_least_0 (supply : num) (data : DistributionData)
    (s s' : list SchedulePoint) :
  is_double supply -> leb (of_Z 1) supply = true ->
  is_double (percentage data) -> in_range 0 100 (percentage data) ->
  is_double (tge data) -> in_range 0 100 (tge data) ->
  is_double (duration data) ->
  B64_is_number (mul supply (percentage data)) = true ->
  raws_at_least_0 s -> unlock_category supply data s = Ok s' ->
  raws_at_least_0 s'.
Proof.
  intros Vs Rs Vp Rp Vg Rg Vd Fx Hs.
  destruct (amounts_in_order supply data Vs Rs Vp Rp Vg Rg Fx)
    as (Atok & Atge & Hle).
  unfold unlock_category.
  change (floor (div (mul supply (percentage data)) (of_Z 100)))
    with (tokenAmount_of supply data).
  change (floor (div (mul (tokenAmount_of supply data) (tge data))
                   (of_Z 100)))
    with (tgeAmount_of supply data).
  intros H. apply bind_Ok in H. destruct H as (s0 & E & H).
  assert (Hs0 : raws_at_least_0 s0).
  { apply (add_raw_at_least_0 s s0 0 (tgeAmount_of supply data)); auto.
    apply amount_at_least_0. exact Atge. }
  destruct (ltb (of_Z 0) (duration data)) eqn:G.
  - revert H. apply vesting_loop_at_least_0; [exact Hs0|].
    apply monthly_unlock_at_least_0; assumption.
  - inversion H; subst. exact Hs0.
Qed.

Lemma for_each_at_least_0 (supply : num)
    (l : list (Category * DistributionData)) (s s' : list SchedulePoint) :
  is_double supply -> leb (of_Z 1) supply = true ->
  (forall e, In e l ->
     (is_double (percentage (snd e)) /\ in_range 0 100 (percentage (snd e))) /\
     (is_double (tge (snd e)) /\ in_range 0 100 (tge (snd e))) /\
     is_double (duration (snd e)) /\
     B64_is_number (mul supply (percentage (snd e))) = true) ->
  raws_at_least_0 s -> for_each supply l s = Ok s' -> raws_at_least_0 s'.
Proof.
  intros Vs Rs. revert s.
  induction l as [|[c data] l IH]; intros s Hl Hs; simpl.
  - intros H; inversion H; subst. exact Hs.
  - intros H. apply bind_Ok in H. destruct H as (s1 & E & H).
    destruct (Hl (c, data) (or_introl eq_refl))
      as ((Vp & Rp) & (Vg & Rg) & Vd & Fx).
    apply (IH s1); [| |exact H].
    + intros e He. apply Hl. now right.
    + exact (unlock_category_at_least_0 supply data s s1 Vs Rs Vp Rp Vg Rg Vd
               Fx Hs E).
Qed.

Lemma empty_schedule_at_least_0 : raws_at_least_0 empty_schedule.
Proof.
  unfold raws_at_least_0, empty_schedule. apply Forall_forall. intros p Hp.
  apply in_map_iff in Hp. destruct Hp as (m & <- & _).
  split; reflexivity.
Qed.

(** *** The running total *)

Lemma min_bounds (x T : B64.t) :
  is_double x -> is_double T ->
  B64.is_nan x = false -> B64.is_nan T = false ->
  is_double (B64.min x T) /\
  SFleb (B64.min x T) T = true /\ SFleb (B64.min x T) x = true /\
  (SFleb x (B64.min x T) = true \/ SFleb T (B64.min x T) = true).
Proof.
  intros Vx VT Nx NT. split; [apply min_double; assumption|].
  unfold B64.min. rewrite Nx, NT. cbn [orb].
  destruct (SFltb x T) eqn:L1.
  - split; [apply SFltb_leb; exact L1|].
    split; [apply SFleb_refl; exact Nx|].
    left. apply SFleb_refl; exact Nx.
  - assert (LTx : SFleb T x = true) by (apply SFleb_of_not_ltb; assumption).
    destruct (SFltb T x) eqn:L2.
    + split; [apply SFleb_refl; exact NT|]. split; [exact LTx|].
      right. apply SFleb_refl; exact NT.
    + assert (LxT : SFleb x T = true) by (apply SFleb_of_not_ltb; assumption).
      destruct (B64.is_neg_zero x).
      * split; [exact LxT|]. split; [apply SFleb_refl; exact Nx|].
        left. apply SFleb_refl; exact Nx.
      * split; [apply SFleb_refl; exact NT|]. split; [exact LTx|].
        right. apply SFleb_refl; exact NT.
Qed.

Lemma at_least_0_not_nan (x : B64.t) : at_least_0 x -> B64.is_nan x = false.
Proof. intros [_ L]. destruct x; try discriminate; reflexivity. Qed.

(** Every later point holds at least the capped running total, and at most
    the supply. *)
Lemma cumulate_bounds (T c : B64.t) (s : list SchedulePoint) :
  is_double T -> B64.is_nan T = false ->
  raws_at_least_0 s -> at_least_0 c ->
  forall q : UnlockPoint, In q (cumulate T c s) ->
  is_double (circulating q) /\
  SFleb (circulating q) T = true /\
  (SFleb c (circulating q) = true \/ SFleb T (circulating q) = true).
Proof.
  intros VT NT Hs. revert c.
  induction Hs as [|p r Hp Hr IH]; intros c Hc q Hq; [contradiction|].
  cbn [cumulate] in Hq. cbv zeta in Hq.
  cbn [add min B64_number] in Hq. unfold B64.prec, B64.emax in Hq.
  destruct (add_at_least_0 c (rawCirculating p) Hc Hp) as [Hc' Hle].
  set (c' := SFadd 53 1024 c (rawCirculating p)) in *.
  pose proof Hc' as [Vc' _]. pose proof Hc as [Vc _].
  destruct Hq as [<-|Hq].
  - cbn [circulating].
    destruct (min_bounds c' T Vc' VT (at_least_0_not_nan _ Hc') NT)
      as (Vm & M1 & M2 & M3).
    split; [exact Vm|]. split; [exact M1|].
    destruct M3 as [M3|M3]; [left|right; exact M3].
    exact (SFleb_trans _ _ _ Vc Vc' Vm Hle M3).
  - destruct (IH c' Hc' q Hq) as (Vq & Q1 & Q2).
    split; [exact Vq|]. split; [exact Q1|].
    destruct Q2 as [Q2|Q2]; [left|right; exact Q2].
    exact (SFleb_trans _ _ _ Vc Vc' Vq Hle Q2).
Qed.

Lemma cumulate_non_decreasing (T c : B64.t) (s : list SchedulePoint) :
  is_double T -> B64.is_nan T = false ->
  raws_at_least_0 s -> at_least_0 c ->
  non_decreasing (cumulate T c s).
Proof.
  intros VT NT Hs. revert c.
  induction Hs as [|p r Hp Hr IH]; intros c Hc i j u v Hij Hi Hj.
  - destruct i; discriminate.
  - cbn [cumulate] in Hi, Hj. cbv zeta in Hi, Hj.
    cbn [add min B64_number] in Hi, Hj. unfold B64.prec, B64.emax in Hi, Hj.
    destruct (add_at_least_0 c (rawCirculating p) Hc Hp) as [Hc' Hle].
    set (c' := SFadd 53 1024 c (rawCirculating p)) in *.
    pose proof Hc' as [Vc' _].
    destruct (min_bounds c' T Vc' VT (at_least_0_not_nan _ Hc') NT)
      as (Vm & M1 & M2 & M3).
    destruct i as [|i].
    + cbn [nth_error] in Hi. injection Hi as <-. cbn [circulating leb B64_number].
      destruct j as [|j].
      * cbn [nth_error] in Hj. injection Hj as <-. cbn [circulating].
        apply SFleb_refl.
        destruct (B64.min c' T); try discriminate; reflexivity.
      * cbn [nth_error] in Hj. apply nth_error_In in Hj.
        destruct (cumulate_bounds T c' r VT NT Hr Hc' v Hj)
          as (Vv & Q1 & [Q2|Q2]).
        -- exact (SFleb_trans _ _ _ Vm Vc' Vv M2 Q2).
        -- exact (SFleb_trans _ _ _ Vm VT Vv M1 Q2).
    + destruct j as [|j]; [lia|].
      cbn [nth_error] in Hi, Hj.
      apply (IH c' Hc' i j u v); auto. lia.
Qed.

Lemma cumulate_length {N : JSNumber} (supply c : num)
    (s : list SchedulePoint) :
  List.length (cumulate supply c s) = List.length s.
Proof.
  revert c. induction s as [|p r IH]; intros c; simpl; [reflexivity|].
  now rewrite IH.
Qed.

(** A duration of at most 48 months stops the loop by month 49. *)
Lemma short_duration_stops (dur : num) :
  leb dur (of_Z 48) = true -> loop_stops_by dur 49.
Proof.
  intros H1. right. exists 49%nat. split; [lia|].
  cbn [leb of_Z B64_number] in *.
  destruct (SFleb (B64.of_Z (Z.of_nat 49)) dur) eqn:C; [|reflexivity].
  exfalso.
  destruct dur as [[|]|[|]| |[|] m e]; try discriminate.
  pose proof (SFleb_trans_positive _ _ _ _ C H1) as K. discriminate K.
Qed.

(** C3 (amended).  On binary64, for every distribution whose fields are
    doubles with percentages and TGE percentages from 0 to 100 and vesting
    months at least 0, and every supply of at least 1 for which no
    category's [totalSupply * percentage] overflows: in every schedule that
    [generateUnlockSchedule] returns, the circulating amount never decreases
    from one month to the next and is at most the supply at every month; and
    a schedule of 49 points is returned whenever no category vests over more
    than 48 months. *)
Theorem schedule_is_monotone_and_capped
    (d : Distribution) (supply : num) :
  doubles d -> is_double supply ->
  leb (of_Z 1) supply = true -> valid_distribution d ->
  (forall c, B64_is_number (mul supply (percentage (d c))) = true) ->
  (forall s : list UnlockPoint,
     generateUnlockSchedule d supply = Ok s ->
     non_decreasing s /\ capped supply s) /\
  ((forall c, leb (duration (d c)) (of_Z 48) = true) ->
   exists s : list UnlockPoint,
     generateUnlockSchedule d supply = Ok s /\ List.length s = 49%nat).
Proof.
  intros Dd Vs Rs Hd Hfin.
  assert (Ns : B64.is_nan supply = false).
  { cbn [leb of_Z B64_number] in Rs.
    destruct supply; try discriminate; reflexivity. }
  assert (Hsched : forall sched,
            for_each supply (entries d) empty_schedule = Ok sched ->
            raws_at_least_0 sched).
  { intros sched E.
    apply (for_each_at_least_0 supply (entries d) empty_schedule sched Vs Rs);
      [|exact empty_schedule_at_least_0|exact E].
    intros e He. unfold entries in He. apply in_map_iff in He.
    destruct He as (c & <- & _). cbn [snd].
    destruct (Dd c) as (Vp & Vg & Vd). destruct (Hd c) as (Rp & Rg & _).
    pose proof (Hfin c). auto. }
  split.
  - intros s H. unfold generateUnlockSchedule in H.
    apply bind_Ok in H. destruct H as (sched & E & H).
    injection H as <-. specialize (Hsched sched E).
    assert (H0 : at_least_0 (of_Z 0)) by (split; reflexivity).
    split.
    + exact (cumulate_non_decreasing supply (of_Z 0) sched Vs Ns Hsched H0).
    + intros q Hq.
      exact (proj1 (proj2 (cumulate_bounds supply (of_Z 0) sched Vs Ns
                             Hsched H0 q Hq))).
  - intros Hshort.
    destruct (generateUnlockSchedule_returns d supply) as [s Hs].
    { intros c. apply short_duration_stops. apply Hshort. }
    exists s. split; [exact Hs|].
    unfold generateUnlockSchedule in Hs.
    apply bind_Ok in Hs. destruct Hs as (sched & E & H).
    injection H as <-. rewrite cumulate_length.
    rewrite (for_each_length _ _ _ _ E). apply empty_schedule_length.
Qed.

End ScheduleOnBinary64.

(** ** The two number types *)

(** The doubles are ordered as the exact numbers they hold. *)
Lemma compare_to_exact (x y : B64.t) :
  is_double x -> is_double y ->
  SFcompare x y = Exact.compare (to_exact x) (to_exact y).
Proof.
  intros Vx Vy.
  destruct (B64_is_number x) eqn:Fx; destruct (B64_is_number y) eqn:Fy.
  - rewrite (SFcompare_B2Q x y Vx Vy Fx Fy).
    destruct x as [sx|sx| |sx mx ex]; try discriminate;
      destruct y as [sy|sy| |sy my ey]; try discriminate; reflexivity.
  - destruct y as [sy|[|]| |sy my ey]; try discriminate;
      destruct x as [sx|sx| |[|] mx ex]; try discriminate; reflexivity.
  - destruct x as [sx|[|]| |sx mx ex]; try discriminate;
      destruct y as [sy|sy| |[|] my ey]; try discriminate; reflexivity.
  - destruct x as [sx|[|]| |sx mx ex]; try discriminate;
      destruct y as [sy|[|]| |sy my ey]; try discriminate; reflexivity.
Qed.

(** The integers of at most 53 bits are the same numbers in both. *)
Lemma of_Z_to_exact (z : Z) :
  (Z.abs z <= 2 ^ 53)%Z ->
  exists q : Q, to_exact (B64.of_Z z) = Exact.Fin q /\ q == inject_Z z.
Proof.
  intros Hz. destruct (of_Z_exact z Hz) as [F E].
  exists (B2Q (B64.of_Z z)). split; [|exact E].
  destruct (B64.of_Z z) as [s|s| |s m e]; try discriminate; reflexivity.
Qed.

(** ** The number inputs on binary64 *)

Section InputsOnBinary64.

#[local] Existing Instance B64_number.

Lemma max_zero_of_positive (r : B64.t) :
  B64_is_positive r = true -> B64.max (B64.of_Z 0) r = r.
Proof.
  destruct r as [[|]|[|]| |[|] m e]; intros H; try discriminate; reflexivity.
Qed.

Lemma max_is_positive_or_nan (lo : Z) (v : B64.t) :
  (0 <= lo)%Z -> B64_is_positive (B64.of_Z lo) = true ->
  B64.max (B64.of_Z lo) v = S754_nan \/
  B64_is_positive (B64.max (B64.of_Z lo) v) = true.
Proof.
  intros _ P. unfold B64.max.
  destruct (B64.is_nan (B64.of_Z lo) || B64.is_nan v); [left; reflexivity|].
  right. destruct (SFltb (B64.of_Z lo) v) eqn:L.
  - destruct (B64.of_Z lo) as [[|]|[|]| |[|] ml el]; try discriminate;
      destruct v as [[|]|[|]| |[|] m e]; try discriminate; reflexivity.
  - destruct (SFltb v (B64.of_Z lo)); [exact P|].
    destruct (B64.is_neg_zero (B64.of_Z lo)) eqn:Z; [|exact P].
    destruct (B64.of_Z lo) as [[|]|[|]| |[|] ml el]; discriminate.
Qed.

Lemma SFmul_of_positive (x y : B64.t) :
  B64_is_positive x = true -> B64_is_positive y = true ->
  SFmul 53 1024 x y = S754_nan \/
  B64_is_positive (SFmul 53 1024 x y) = true.
Proof.
  intros Px Py.
  destruct x as [[|]|[|]| |[|] mx ex]; try discriminate;
    destruct y as [[|]|[|]| |[|] my ey]; try discriminate;
    try (left; reflexivity); try (right; reflexivity).
  right.
  destruct (SFmul_finite_shape false false mx my ex ey)
    as [E|[(p & e' & E)|E]]; rewrite E; reflexivity.
Qed.

(** X13.  On binary64, after [handleTotalSupplyChange(supply)] and
    [handleTokenPriceChange(price)] with any doubles, NaN and the infinities
    included, and the effect that follows: [totalSupply] is
    [Math.max(1, supply)], [initialTokenPrice] is [Math.max(0, price)] and
    [fdv] is the double product of the two; the [Math.max(0, ...)] of the
    effect never changes that product. *)
Theorem fdv_is_supply_times_price
    (st : PlannerState) (supply price : num) :
  totalSupply (after_number_inputs st supply price) = max (of_Z 1) supply /\
  initialTokenPrice (after_number_inputs st supply price)
  = max (of_Z 0) price /\
  fdv (after_number_inputs st supply price)
  = mul (totalSupply (after_number_inputs st supply price))
      (initialTokenPrice (after_number_inputs st supply price)).
Proof.
  unfold after_number_inputs.
  cbn [fdv_effect handleTokenPriceChange handleTotalSupplyChange totalSupply
         initialTokenPrice fdv].
  split; [reflexivity|]. split; [reflexivity|].
  cbn [max mul of_Z B64_number]. unfold B64.prec, B64.emax.
  destruct (max_is_positive_or_nan 1 supply ltac:(lia) eq_refl) as [E|PT].
  { rewrite E. reflexivity. }
  destruct (max_is_positive_or_nan 0 price ltac:(lia) eq_refl) as [E|PP].
  { rewrite E.
    destruct (B64.max (B64.of_Z 1) supply) as [[|]|[|]| |[|] m e];
      reflexivity. }
  destruct (SFmul_of_positive _ _ PT PP) as [E|P].
  - rewrite E. reflexivity.
  - apply max_zero_of_positive. exact P.
Qed.

End InputsOnBinary64.

Section DurationOnBinary64.

#[local] Existing Instance B64_number.

Lemma of_Z_positive (z : Z) :
  (0 <= z)%Z -> B64_is_positive (B64.of_Z z) = true.
Proof.
  intros H. destruct z as [|p|p]; try lia; [reflexivity|].
  unfold B64.of_Z, B64.prec, B64.emax. cbn [binary_normalize].
  destruct (binary_round_shape false p 0) as [E|[(q & e' & E)|E]];
    rewrite E; reflexivity.
Qed.

(** [Math.max(0, Math.round(Math.max(0, v)))] of a finite double is the
    double of the integer [max(0, floor(v + 1/2))]. *)
Lemma stored_duration (v : B64.t) :
  is_double v -> B64_is_number v = true ->
  B64.max (B64.of_Z 0) (B64.round (B64.max (B64.of_Z 0) v))
  = B64.of_Z (Z.max 0 (Qfloor (B2Q v + (1 # 2)))).
Proof.
  intros V F.
  destruct (B64_is_positive v) eqn:P.
  - rewrite (max_zero_of_positive v P).
    rewrite (round_of_positive v V F P).
    assert (K : (0 <= Qfloor (B2Q v + (1 # 2)))%Z).
    { change 0%Z with (Qfloor 0). apply Qfloor_resp_le.
      assert (0 <= B2Q v).
      { destruct v as [[|]|[|]| |[|] m e]; try discriminate.
        cbn [B2Q cond_Zopp]. apply F2Q_nonneg. lia. }
      lra. }
    rewrite Z.max_r by exact K.
    apply max_zero_of_positive, of_Z_positive. exact K.
  - assert (Nv : B2Q v <= 0).
    { destruct v as [[|]|[|]| |[|] m e]; try discriminate.
      rewrite B2Q_finite. pose proof (F2Q_pos (Zpos m) e ltac:(lia)). lra. }
    assert (K : (Qfloor (B2Q v + (1 # 2)) <= 0)%Z).
    { apply (Qfloor_resp_le (B2Q v + (1 # 2)) (1 # 2)). lra. }
    rewrite Z.max_l by exact K.
    destruct v as [[|]|[|]| |[|] m e]; try discriminate; reflexivity.
Qed.

Lemma of_Z_at_most_48 (k : Z) :
  (0 <= k <= 48)%Z -> SFleb (B64.of_Z k) (B64.of_Z 48) = true.
Proof.
  intros H.
  destruct (of_Z_exact k ltac:(lia)) as [Fk Ek].
  apply (proj2 (SFleb_B2Q _ _ (of_Z_double k) (of_Z_double 48) Fk eq_refl)).
  rewrite Ek, (proj2 (of_Z_exact 48 ltac:(simpl; lia))).
  rewrite <- Zle_Qle. lia.
Qed.

Lemma of_Z_at_least_49 (k : Z) :
  (49 <= k)%Z -> SFleb (B64.of_Z 49) (B64.of_Z k) = true.
Proof.
  intros H. destruct (of_Z_faithful k) as (_ & _ & Lo & _).
  apply Lo; [apply of_Z_double|reflexivity|].
  rewrite (proj2 (of_Z_exact 49 ltac:(simpl; lia))).
  rewrite <- Zle_Qle. exact H.
Qed.

(** X14.  On binary64, a duration edit of a category to a number [v] (a
    double other than NaN and the infinities) stores the double of the
    integer [max(0, floor(v + 1/2))]: [v] rounded to the nearest whole
    month, a half counting upwards.  With the other categories vesting
    within the horizon, [generateUnlockSchedule] on the edited distribution
    returns the points of months 0 to 48 when [v < 48.5] and throws a
    [TypeError] when [v >= 48.5], for every supply. *)
Theorem duration_edit_and_the_horizon
    (d : Distribution) (category : Category) (v supply : num) :
  is_double v -> B64_is_number v = true ->
  (forall k : Category,
     k <> category -> loop_stops_by (duration (d k)) 49) ->
  exists d' : Distribution,
    handleDistributionChange d category f_duration v = Ok d' /\
    duration (d' category) = of_Z (Z.max 0 (Qfloor (B2Q v + (1 # 2)))) /\
    (B2Q v < 97 # 2 ->
     exists s : list UnlockPoint,
       generateUnlockSchedule d' supply = Ok s /\ map month s = seq 0 49) /\
    (97 # 2 <= B2Q v -> generateUnlockSchedule d' supply = TypeError).
Proof.
  intros V F Hothers. eexists. split; [reflexivity|].
  rewrite set_category_same. cbn [duration with_duration].
  cbn [max round of_Z B64_number].
  rewrite (stored_duration v V F). split; [reflexivity|].
  set (k := Z.max 0 (Qfloor (B2Q v + (1 # 2)))).
  set (d' := set_category d category (with_duration (d category) _)).
  assert (Hd : duration (d' category) = B64.of_Z k).
  { unfold d'. rewrite set_category_same. reflexivity. }
  split.
  - intros Hv.
    assert (Hk : (0 <= k <= 48)%Z).
    { split; [apply Z.le_max_l|]. apply Z.max_lub; [lia|].
      assert (H : inject_Z (Qfloor (B2Q v + (1 # 2))) < inject_Z 49).
      { apply Qle_lt_trans with (B2Q v + (1 # 2)); [apply Qfloor_le|].
        change (inject_Z 49) with 49. lra. }
      rewrite <- Zlt_Qlt in H. lia. }
    destruct (generateUnlockSchedule_returns d' supply) as [s Hs].
    + intros c. destruct (Category_eq_or_neq c category) as [->|Hc].
      * rewrite Hd. apply short_duration_stops.
        apply of_Z_at_most_48. exact Hk.
      * unfold d'. rewrite (set_category_other _ _ _ _ Hc). now apply Hothers.
    + exists s. split; [exact Hs|].
      now apply (returned_schedule_months d' supply).
  - intros Hv.
    assert (Hk : (49 <= k)%Z).
    { apply Z.le_trans with (Qfloor (B2Q v + (1 # 2))); [|apply Z.le_max_r].
      change 49%Z with (Qfloor 49). apply Qfloor_resp_le. lra. }
    unfold generateUnlockSchedule.
    rewrite (for_each_throws supply (entries d') empty_schedule category
               (d' category)); [reflexivity|apply In_entries| |].
    + rewrite empty_schedule_length. lia.
    + rewrite empty_schedule_length, Hd.
      apply long_duration_runs_to_49_on_binary64.
      apply of_Z_at_least_49. exact Hk.
Qed.

End DurationOnBinary64.

Section PercentOnBinary64.

#[local] Existing Instance B64_number.

Lemma one_exact : B2Q (B64.of_Z 1) == 1.
Proof. exact (proj2 (of_Z_exact 1 ltac:(simpl; lia))). Qed.

Lemma cumulate_at_least_0 (T c : B64.t) (s : list SchedulePoint) :
  at_least_0 T -> raws_at_least_0 s -> at_least_0 c ->
  forall q : UnlockPoint, In q (cumulate T c s) ->
  at_least_0 (circulating q).
Proof.
  intros HT Hs. revert c.
  induction Hs as [|p r Hp Hr IH]; intros c Hc q Hq; [contradiction|].
  cbn [cumulate] in Hq. cbv zeta in Hq.
  cbn [add min B64_number] in Hq. unfold B64.prec, B64.emax in Hq.
  destruct (add_at_least_0 c (rawCirculating p) Hc Hp) as [Hc' _].
  destruct Hq as [<-|Hq].
  - cbn [circulating].
    destruct (B64_min_is_one_of (SFadd 53 1024 c (rawCirculating p)) T)
      as [E|[E|E]]; rewrite E; try assumption.
    exfalso. unfold B64.min in E.
    rewrite (at_least_0_not_nan _ Hc'), (at_least_0_not_nan _ HT) in E.
    cbn [orb] in E.
    destruct (SFltb (SFadd 53 1024 c (rawCirculating p)) T).
    + rewrite E in Hc'. destruct Hc' as [_ K]. discriminate K.
    + destruct (SFltb T (SFadd 53 1024 c (rawCirculating p))).
      * rewrite E in HT. destruct HT as [_ K]. discriminate K.
      * destruct (B64.is_neg_zero (SFadd 53 1024 c (rawCirculating p))).
        -- rewrite E in Hc'. destruct Hc' as [_ K]. discriminate K.
        -- rewrite E in HT. destruct HT as [_ K]. discriminate K.
  - exact (IH _ Hc' q Hq).
Qed.

(** X24.  On binary64, under the hypotheses of C3 (fields that are doubles
    in their ranges, a supply of at least 1, no overflow of
    [totalSupply * percentage]): every point of a returned schedule has
    [0 <= circulating <= totalSupply] and [0 <= percentCirculating <= 100]. *)
Theorem percent_circulating_is_a_percentage
    (d : Distribution) (supply : num) (s : list UnlockPoint) :
  doubles d -> is_double supply ->
  leb (of_Z 1) supply = true -> valid_distribution d ->
  (forall c, B64_is_number (mul supply (percentage (d c))) = true) ->
  generateUnlockSchedule d supply = Ok s ->
  forall q : UnlockPoint,
    In q s ->
    leb (of_Z 0) (circulating q) = true /\
    leb (circulating q) supply = true /\
    in_range 0 100 (percentCirculating q).
Proof.
  intros Dd Vs Rs Hd Hfin' Hs q Hq.
  pose proof (returned_schedule_percent d supply s Hs) as Hp.
  rewrite Forall_forall in Hp. specialize (Hp q Hq).
  assert (Fs : B64_is_number supply = true).
  { pose proof (Hfin' publicSale) as K.
    cbn [mul B64_number] in K. unfold B64.prec, B64.emax in K.
    exact (proj1 (SFmul_is_number _ _ K)). }
  assert (S1 : 1 <= B2Q supply).
  { pose proof Rs as K. cbn [leb of_Z B64_number] in K.
    apply (proj1 (SFleb_B2Q _ _ (of_Z_double 1) Vs eq_refl Fs)) in K.
    rewrite one_exact in K. exact K. }
  assert (Ns : B64.is_nan supply = false)
    by (destruct supply; try discriminate; reflexivity).
  assert (As : at_least_0 supply).
  { split; [exact Vs|].
    apply (proj2 (SFleb_B2Q _ _ (of_Z_double 0) Vs eq_refl Fs)).
    rewrite zero_exact. lra. }
  unfold generateUnlockSchedule in Hs. apply bind_Ok in Hs.
  destruct Hs as (sched & Hsched & Hs). injection Hs as <-.
  assert (Hnn : raws_at_least_0 sched).
  { apply (for_each_at_least_0 supply (entries d) empty_schedule sched Vs Rs);
      [|exact empty_schedule_at_least_0|exact Hsched].
    intros e He. unfold entries in He. apply in_map_iff in He.
    destruct He as (c & <- & _). cbn [snd].
    destruct (Dd c) as (Vp & Vg & Vd). destruct (Hd c) as (Rp & Rg & _).
    pose proof (Hfin' c). auto. }
  assert (H0 : at_least_0 (B64.of_Z 0)) by (split; reflexivity).
  destruct (cumulate_bounds supply (B64.of_Z 0) sched Vs Ns Hnn H0 q Hq)
    as (Vq & Q1 & _).
  pose proof (cumulate_at_least_0 supply (B64.of_Z 0) sched As Hnn H0 q Hq)
    as [_ Q0].
  split; [exact Q0|]. split; [exact Q1|].
  rewrite Hp. clear Hp.
  revert Vq Q0 Q1. generalize (circulating q). intros x Vx Q0 Q1.
  cbn [mul div of_Z leb B64_number]. unfold B64.prec, B64.emax.
  assert (Fx : B64_is_number x = true).
  { destruct x as [sx|[|]| |sx mx ex]; try reflexivity; try discriminate.
    destruct supply as [ss|[|]| |ss ms es]; discriminate. }
  apply (proj1 (SFleb_B2Q _ _ (of_Z_double 0) Vx eq_refl Fx)) in Q0.
  apply (proj1 (SFleb_B2Q _ _ Vx Vs Fx Fs)) in Q1.
  rewrite zero_exact in Q0.
  assert (Hfin : exists (ss : bool) (ms : positive) (es : Z),
            supply = S754_finite ss ms es).
  { destruct supply as [ss|[|]| |ss ms es]; try discriminate; eauto. }
  destruct (faithful_between _ _ (B64.of_Z 0) (B64.of_Z 1)
              (SFdiv_faithful x supply Vx Fx Hfin)
              (of_Z_double 0) eq_refl (of_Z_double 1) eq_refl)
    as (Fr & R0 & R1).
  { rewrite zero_exact. apply Qle_shift_div_l; lra. }
  { rewrite one_exact. apply Qle_shift_div_r; lra. }
  rewrite zero_exact in R0. rewrite one_exact in R1.
  set (r := SFdiv 53 1024 x supply) in *.
  assert (Vr : is_double r) by apply SFdiv_double.
  destruct (faithful_between _ _ (B64.of_Z 0) (B64.of_Z 100)
              (SFmul_faithful r (B64.of_Z 100) Vr hundred_is_double Fr
                 eq_refl)
              (of_Z_double 0) eq_refl (of_Z_double 100) eq_refl)
    as (Fm & M0 & M1).
  { rewrite zero_exact, hundred_exact. lra. }
  { rewrite hundred_exact. lra. }
  set (pc := SFmul 53 1024 r (B64.of_Z 100)) in *.
  assert (Vm : is_double pc)
    by (apply SFmul_double; [exact Vr|exact hundred_is_double]).
  split.
  - apply (proj2 (SFleb_B2Q _ _ (of_Z_double 0) Vm eq_refl Fm)). exact M0.
  - apply (proj2 (SFleb_B2Q _ _ Vm (of_Z_double 100) Fm eq_refl)). exact M1.
Qed.

End PercentOnBinary64.

(** ** The statements at the default distribution *)

Section DefaultsOnBinary64.

#[local] Existing Instance B64_number.

Lemma default_distribution_doubles : doubles default_distribution.
Proof. intros c. destruct c; repeat split; reflexivity. Qed.

Lemma default_shares_are_finite (c : Category) :
  B64_is_number (mul (of_Z 1000000000) (percentage (default_distribution c)))
  = true.
Proof. destruct c; reflexivity. Qed.

Lemma default_vesting_stops (k : Category) :
  loop_stops_by (duration (default_distribution k)) 49.
Proof. apply short_duration_stops. destruct k; reflexivity. Qed.

Lemma schedule_is_monotone_and_capped_witness :
  (doubles default_distribution /\
   is_double (of_Z 1000000000) /\
   leb (of_Z 1) (of_Z 1000000000) = true /\
   valid_distribution default_distribution /\
   (forall c, B64_is_number
                (mul (of_Z 1000000000) (percentage (default_distribution c)))
              = true)) /\
  (forall s : list UnlockPoint,
     generateUnlockSchedule default_distribution (of_Z 1000000000) = Ok s ->
     non_decreasing s /\ capped (of_Z 1000000000) s) /\
  ((forall c, leb (duration (default_distribution c)) (of_Z 48) = true) ->
   exists s : list UnlockPoint,
     generateUnlockSchedule default_distribution (of_Z 1000000000) = Ok s /\
     List.length s = 49%nat).
Proof.
  split.
  - split; [exact default_distribution_doubles|].
    split; [reflexivity|]. split; [reflexivity|].
    split; [exact default_distribution_valid_on_binary64|].
    exact default_shares_are_finite.
  - apply (schedule_is_monotone_and_capped default_distribution
             (of_Z 1000000000)).
    + exact default_distribution_doubles.
    + reflexivity.
    + reflexivity.
    + exact default_distribution_valid_on_binary64.
    + exact default_shares_are_finite.
Defined.

(** The double [4.44]: times 10 it is the double [44.4], between 43.5 and
    44.5. *)
Lemma ten_times_4_44 :
  (87 # 2) <= B2Q (mul (lit 444 100) (of_Z 10)) /\
  B2Q (mul (lit 444 100) (of_Z 10)) < (89 # 2).
Proof. split; vm_compute; [discriminate|reflexivity]. Qed.

Lemma percentage_edit_within_budget_frame_witness :
  (is_double (lit 444 100) /\
   leb (of_Z 0) (lit 444 100) = true /\
   leb (add (otherTotal default_distribution liquidityPool) (lit 444 100))
     (of_Z 100) = true) /\
  exists d' : Distribution,
    handleDistributionChange default_distribution liquidityPool f_percentage
      (lit 444 100) = Ok d' /\
    percentage (d' liquidityPool) = lit 44 10 /\
    tge (d' liquidityPool) = tge (default_distribution liquidityPool) /\
    duration (d' liquidityPool)
    = duration (default_distribution liquidityPool) /\
    forall c : Category, c <> liquidityPool -> d' c = default_distribution c.
Proof.
  split.
  - split; [reflexivity|]. split; reflexivity.
  - destruct (percentage_edit_within_budget_frame default_distribution
                liquidityPool (lit 444 100) eq_refl eq_refl eq_refl)
      as (d' & H & Hk & Ht & Hd & Ho).
    exists d'. split; [exact H|]. split; [|split; [exact Ht|split; [exact Hd|exact Ho]]].
    destruct (Hk eq_refl) as (k & L & U & E).
    destruct ten_times_4_44 as [A B].
    assert (K : k = 44%Z).
    { assert (inject_Z 43 < inject_Z k) by (change (inject_Z 43) with 43; lra).
      assert (inject_Z k < inject_Z 45) by (change (inject_Z 45) with 45; lra).
      rewrite <- Zlt_Qlt in *. lia. }
    rewrite E, K. reflexivity.
Defined.

Lemma ratio_is_guarded_against_zero_tge_witness :
  (is_double (totalSupply settled_state) /\
   is_double (initialTokenPrice settled_state) /\
   leb (of_Z 1) (totalSupply settled_state) = true /\
   gtb (initialTokenPrice settled_state) (of_Z 0) = true /\
   calculateMetrics settled_state = Ok default_metrics) /\
  initialMarketCap default_metrics
  = mul (tgeCirculating default_metrics) (initialTokenPrice settled_state) /\
  (gtb (tgeCirculating default_metrics) (of_Z 0) = true ->
   fdvToMcapRatio default_metrics
   = div (fdv settled_state) (initialMarketCap default_metrics) /\
   gtb (initialMarketCap default_metrics) (of_Z 0) = true) /\
  (strict_eqb (tgeCirculating default_metrics) (of_Z 0) = true ->
   fdvToMcapRatio default_metrics = pos_infinity).
Proof.
  split.
  - split; [reflexivity|]. split; [reflexivity|]. split; [reflexivity|].
    split; [reflexivity|exact settled_state_metrics].
  - apply (ratio_is_guarded_against_zero_tge settled_state
             default_metrics); reflexivity.
Defined.




Lemma duration_edit_and_the_horizon_witness :
  (is_double (of_Z 49) /\ B64_is_number (of_Z 49) = true /\
   forall k : Category,
     k <> development ->
     loop_stops_by (duration (default_distribution k)) 49) /\
  exists d' : Distribution,
    handleDistributionChange default_distribution development f_duration
      (of_Z 49) = Ok d' /\
    duration (d' development)
    = of_Z (Z.max 0 (Qfloor (B2Q (of_Z 49) + (1 # 2)))) /\
    (B2Q (of_Z 49) < 97 # 2 ->
     exists s : list UnlockPoint,
       generateUnlockSchedule d' (of_Z 1000000000) = Ok s /\
       map month s = seq 0 49) /\
    (97 # 2 <= B2Q (of_Z 49) ->
     generateUnlockSchedule d' (of_Z 1000000000) = TypeError).
Proof.
  split.
  - split; [reflexivity|]. split; [reflexivity|].
    intros k _. apply default_vesting_stops.
  - apply (duration_edit_and_the_horizon default_distribution development
             (of_Z 49) (of_Z 1000000000)).
    + reflexivity.
    + reflexivity.
    + intros k _. apply default_vesting_stops.
Defined.

Lemma percent_circulating_is_a_percentage_witness :
  (doubles default_distribution /\
   is_double (of_Z 1000000000) /\
   leb (of_Z 1) (of_Z 1000000000) = true /\
   valid_distribution default_distribution /\
   (forall c, B64_is_number
                (mul (of_Z 1000000000) (percentage (default_distribution c)))
              = true) /\
   generateUnlockSchedule default_distribution (of_Z 1000000000)
   = Ok default_schedule) /\
  forall q : UnlockPoint,
    In q default_schedule ->
    leb (of_Z 0) (circulating q) = true /\
    leb (circulating q) (of_Z 1000000000) = true /\
    in_range 0 100 (percentCirculating q).
Proof.
  split.
  - split; [exact default_distribution_doubles|].
    split; [reflexivity|]. split; [reflexivity|].
    split; [exact default_distribution_valid_on_binary64|].
    split; [exact default_shares_are_finite|].
    exact default_schedule_is_returned.
  - apply (percent_circulating_is_a_percentage default_distribution
             (of_Z 1000000000) default_schedule).
    + exact default_distribution_doubles.
    + reflexivity.
    + reflexivity.
    + exact default_distribution_valid_on_binary64.
    + exact default_shares_are_finite.
    + exact default_schedule_is_returned.
Defined.

End DefaultsOnBinary64.
